(** * Sky Guide AR: the astronomy core, observer/position engine and gaze matcher

    A shallow embedding of [AstroMath.ts], [SkyEngine.ts], [SkyRenderer.ts]
    (the highlight state, then the two meshes), [GazeAndHandController.ts],
    [InfoPanel.ts], the head of the frame loop of [SkyGuideMain.ts], and of
    the generator of the two tables ([parseCSVLine] and
    [parseConstellationJSON] of generate-star-data.js).

    JavaScript numbers are idealised as real numbers: every arithmetic
    operation is exact, [Math.sin], [Math.cos], [Math.asin], [Math.acos],
    [Math.sqrt] are the functions of the real-number library, and the
    special values (not-a-number, the infinities, signed zeros) are not
    represented.  Module-level mutable variables become fields of explicit
    state records that every entry point takes and returns; a function that
    can raise a TypeError returns an [option], [None] standing for it. *)

From Stdlib Require Import Reals Lra Lia ZArith.
From stdpp Require Import base strings list gmap pretty.

Open Scope R_scope.

(** ** AstroMath.ts *)
Module AstroMath.

Definition DEG_TO_RAD : R := PI / 180.
Definition RAD_TO_DEG : R := 180 / PI.
Definition TWO_PI : R := 2 * PI.

(** [Math.floor] and the truncation toward zero behind the [%] operator. *)
Definition Math_floor (x : R) : R := IZR (Int_part x).

Definition Math_trunc (x : R) : R :=
  if Rle_dec 0 x then IZR (Int_part x) else - IZR (Int_part (- x)).

(** [a % b]: remainder with the sign of the dividend. *)
Definition rem (a b : R) : R := a - b * Math_trunc (a / b).

(** [julianDate(date)], the date given as [date.getTime()] milliseconds. *)
Definition julianDate (ms : R) : R := ms / 86400000 + 24405875 / 10.

Definition gmst (jd : R) : R :=
  let t := jd - 2451545 in
  let f := t - Math_floor t + 1 / 2 in
  let theta :=
    TWO_PI * (f + 7790572732640 / 10000000000000
                + 273781191135448 / 100000000000000000 * t) in
  rem (rem theta TWO_PI + TWO_PI) TWO_PI.

Definition localSiderealTime (gmstRad longitudeRad : R) : R :=
  rem (rem (gmstRad + longitudeRad) TWO_PI + TWO_PI) TWO_PI.

(** [Math.max(-1, Math.min(1, x))] *)
Definition clamp1 (x : R) : R := Rmax (-1) (Rmin 1 x).

(** The locals [sinAlt] and [cosAz] of [equatorialToHorizontal]. *)
Definition sinAltOf (raRad decRad lstRad latRad : R) : R :=
  let ha := lstRad - raRad in
  sin latRad * sin decRad + cos latRad * cos decRad * cos ha.

Definition cosAzOf (raRad decRad lstRad latRad : R) : R :=
  let sinAlt := sinAltOf raRad decRad lstRad latRad in
  let alt := asin (clamp1 sinAlt) in
  (sin decRad - sin latRad * sinAlt) / (cos latRad * cos alt).

Definition equatorialToHorizontal (raRad decRad lstRad latRad : R) : R * R :=
  let ha := lstRad - raRad in
  let sinLat := sin latRad in
  let cosLat := cos latRad in
  let sinDec := sin decRad in
  let cosDec := cos decRad in
  let cosHA := cos ha in
  let sinAlt := sinLat * sinDec + cosLat * cosDec * cosHA in
  let alt := asin (Rmax (-1) (Rmin 1 sinAlt)) in
  let cosAlt := cos alt in
  if Rlt_dec (Rabs cosAlt) (/ 10000000000) then (alt, 0)
  else
    let cosAz := (sinDec - sinLat * sinAlt) / (cosLat * cosAlt) in
    let az := acos (Rmax (-1) (Rmin 1 cosAz)) in
    if Rlt_dec 0 (sin ha) then (alt, TWO_PI - az) else (alt, az).

Definition horizontalToCartesian (altRad azRad radius : R) : R * R * R :=
  let cosAlt := cos altRad in
  let x := radius * cosAlt * sin azRad in
  let y := radius * sin altRad in
  let z := - radius * cosAlt * cos azRad in
  (x, y, z).

(** [bvToColor(bv)]: red, green, blue and opacity. *)
Definition bvToColor (bv : R) : R * R * R * R :=
  let t := Rmax (- (4 / 10)) (Rmin 2 bv) in
  let '(r, g, b) :=
    if Rlt_dec t 0 then
      (6 / 10 + 4 / 10 * (1 + t / (4 / 10)),
       7 / 10 + 3 / 10 * (1 + t / (4 / 10)),
       1)
    else if Rlt_dec t (4 / 10) then
      (1, 1 - 2 / 10 * (t / (4 / 10)), 1 - 4 / 10 * (t / (4 / 10)))
    else if Rlt_dec t 1 then
      let s := (t - 4 / 10) / (6 / 10) in
      (1, 8 / 10 - 3 / 10 * s, 6 / 10 - 4 / 10 * s)
    else
      let s := (t - 1) / 1 in
      (1, 5 / 10 - 3 / 10 * s, 2 / 10 - 15 / 100 * s) in
  (r, g, Rmax 0 b, 1).

Definition magnitudeToAlpha (mag : R) : R :=
  Rmax (15 / 100) (1 - (mag + 15 / 10) / (75 / 10)).

Definition magnitudeToScale (mag : R) : R :=
  Rmax (1 / 2) (3 - (mag + 15 / 10) * (385 / 1000)).

(** The haversine term, the local [a] of both distance functions. *)
Definition haversine (lat1 lon1 lat2 lon2 : R) : R :=
  let dLat := lat2 - lat1 in
  let dLon := lon2 - lon1 in
  (sin (dLat / 2)) ^ 2 + cos lat1 * cos lat2 * (sin (dLon / 2)) ^ 2.

Definition angularDistance (ra1 dec1 ra2 dec2 : R) : R :=
  let dDec := dec2 - dec1 in
  let dRA := ra2 - ra1 in
  let a := (sin (dDec / 2)) ^ 2
           + cos dec1 * cos dec2 * (sin (dRA / 2)) ^ 2 in
  2 * asin (sqrt (Rmin 1 a)).

Definition angularDistanceAltAz (alt1 az1 alt2 az2 : R) : R :=
  let dAlt := alt2 - alt1 in
  let dAz := az2 - az1 in
  let a := (sin (dAlt / 2)) ^ 2
           + cos alt1 * cos alt2 * (sin (dAz / 2)) ^ 2 in
  2 * asin (sqrt (Rmin 1 a)).

Definition smoothHeading (current target alpha : R) : R :=
  let diff := target - current in
  let diff := if Rlt_dec 180 diff then diff - 360 else diff in
  let diff := if Rlt_dec diff (-180) then diff + 360 else diff in
  let result := current + alpha * diff in
  let result := if Rlt_dec result 0 then result + 360 else result in
  let result := if Rle_dec 360 result then result - 360 else result in
  result.

(** Where [Math.sqrt] and [Math.asin] have a value: outside these sets the
    JavaScript functions return not-a-number. *)
Definition sqrt_defined (x : R) : Prop := 0 <= x.
Definition asin_defined (x : R) : Prop := -1 <= x <= 1.

End AstroMath.

(** ** Types.ts *)
Module StarRecord.
Record t : Type := mk {
  hip : Z;        (* Hipparcos identifier *)
  ra : R;         (* right ascension, radians *)
  dec : R;        (* declination, radians *)
  mag : R;        (* apparent visual magnitude *)
  bv : R;         (* B-V colour index *)
  name : string;  (* common name or the empty string *)
  con : string    (* constellation abbreviation *)
}.
End StarRecord.

Module ConstellationRecord.
Record t : Type := mk {
  abbr : string;
  name : string;
  lines : list (list Z);
  centroidRA : R;
  centroidDec : R
}.
End ConstellationRecord.

Module StarPosition3D.
Record t : Type := mk {
  hip : Z;
  x : R;
  y : R;
  z : R;
  mag : R;
  bv : R;
  name : string
}.
End StarPosition3D.

Module ObserverState.
Record t : Type := mk {
  latitude : R;    (* radians *)
  longitude : R;   (* radians *)
  lstRadians : R;  (* local sidereal time, radians *)
  headingDeg : R;  (* compass heading, degrees *)
  timestamp : R    (* milliseconds since the epoch *)
}.
End ObserverState.

(** ** SkyEngine.ts *)
Module SkyEngine.

(** The module variables [observer], [starPositions], [initialized] and
    [rawHeadingDeg].  [starPositions] is a reference to an array object:
    [starPositionsRef] is the identity of the array it is bound to and
    [heapNext] the identity the next [new Array] receives, so that a
    reallocation is visible as a change of [starPositionsRef]. *)
Record State : Type := mkState {
  observer : ObserverState.t;
  starPositions : list StarPosition3D.t;
  starPositionsRef : nat;
  heapNext : nat;
  initialized : bool;
  rawHeadingDeg : R
}.

Definition initial : State :=
  mkState (ObserverState.mk 0 0 0 0 0) [] 0 1 false 0.

Definition SPHERE_RADIUS : R := 500.

Definition getObserver (s : State) : ObserverState.t := observer s.
Definition getStarPositions (s : State) : list StarPosition3D.t :=
  starPositions s.
Definition isInitialized (s : State) : bool := initialized s.

(** The compass callback registered by [initLocation]. *)
Definition onNorthAlignedOrientationUpdate (heading : R) (s : State) : State :=
  let o := observer s in
  mkState
    (ObserverState.mk (ObserverState.latitude o) (ObserverState.longitude o)
       (ObserverState.lstRadians o)
       (AstroMath.smoothHeading (ObserverState.headingDeg o) heading (15 / 100))
       (ObserverState.timestamp o))
    (starPositions s) (starPositionsRef s) (heapNext s) (initialized s)
    heading.

(** The position callback of [pollGPS]; [now] is [Date.now()]. *)
Definition onPosition (latDeg lonDeg now : R) (s : State) : State :=
  let o := observer s in
  mkState
    (ObserverState.mk (latDeg * (PI / 180)) (lonDeg * (PI / 180))
       (ObserverState.lstRadians o) (ObserverState.headingDeg o) now)
    (starPositions s) (starPositionsRef s) (heapNext s) true
    (rawHeadingDeg s).

(** The fallback of [initLocation] when no location service is there. *)
Definition fallbackLocation (s : State) : State :=
  let o := observer s in
  mkState
    (ObserverState.mk (488566 / 10000 * (PI / 180)) (23522 / 10000 * (PI / 180))
       (ObserverState.lstRadians o) 0 (ObserverState.timestamp o))
    (starPositions s) (starPositionsRef s) (heapNext s) true
    (rawHeadingDeg s).

Definition setObserverLocation (latDeg lonDeg : R) (s : State) : State :=
  let o := observer s in
  mkState
    (ObserverState.mk (latDeg * (PI / 180)) (lonDeg * (PI / 180))
       (ObserverState.lstRadians o) (ObserverState.headingDeg o)
       (ObserverState.timestamp o))
    (starPositions s) (starPositionsRef s) (heapNext s) true
    (rawHeadingDeg s).

(** The blank entry the allocation loop stores at every index. *)
Definition blank : StarPosition3D.t := StarPosition3D.mk 0 0 0 0 0 0 EmptyString.

(** The body of the second loop of [updateStarPositions] for one star:
    every field of [sp = starPositions[i]] is assigned, so nothing of the
    previous contents of the entry survives. *)
Definition writeStar (star : StarRecord.t) (lstRad lat : R)
    (sp : StarPosition3D.t) : StarPosition3D.t :=
  let '(alt, az) :=
    AstroMath.equatorialToHorizontal
      (StarRecord.ra star) (StarRecord.dec star) lstRad lat in
  let '(x, y, z) := AstroMath.horizontalToCartesian alt az SPHERE_RADIUS in
  StarPosition3D.mk (StarRecord.hip star) x y z
    (StarRecord.mag star) (StarRecord.bv star) (StarRecord.name star).

(** [for (let i = ...; i < STARS.length; i++)] over the stars from index
    [i] on, updating the entry at index [i] in place.  The buffer has the
    length of the catalog when the loop runs, so the index is always in
    range ([alter] leaves a list alone out of range, where the source would
    raise a TypeError). *)
Fixpoint fillFrom (i : nat) (stars : list StarRecord.t) (lstRad lat : R)
    (buf : list StarPosition3D.t) : list StarPosition3D.t :=
  match stars with
  | [] => buf
  | star :: rest =>
      fillFrom (S i) rest lstRad lat (alter (writeStar star lstRad lat) i buf)
  end.

(** The entry the loop leaves for one star, and the sidereal time a call
    at time [now] computes. *)
Definition entryOf (star : StarRecord.t) (lstRad lat : R) : StarPosition3D.t :=
  writeStar star lstRad lat blank.

Definition lstAt (now : R) (s : State) : R :=
  AstroMath.localSiderealTime (AstroMath.gmst (AstroMath.julianDate now))
    (ObserverState.longitude (observer s)).

Section WithCatalog.
(** [STARS] of StarData.ts, the generated star table: a parameter. *)
Variable STARS : list StarRecord.t.

(** [updateStarPositions()]; [now] is the time read by [new Date()],
    in milliseconds. *)
Definition updateStarPositions (now : R) (s : State) : State :=
  if negb (initialized s) then s
  else
    let jd := AstroMath.julianDate now in
    let gmstRad := AstroMath.gmst jd in
    let o := observer s in
    let lstRad :=
      AstroMath.localSiderealTime gmstRad (ObserverState.longitude o) in
    let o := ObserverState.mk (ObserverState.latitude o)
               (ObserverState.longitude o) lstRad
               (ObserverState.headingDeg o) (ObserverState.timestamp o) in
    let '(buf, ref, next) :=
      if decide (length (starPositions s) <> length STARS)
      then (replicate (length STARS) blank, heapNext s, S (heapNext s))
      else (starPositions s, starPositionsRef s, heapNext s) in
    let lat := ObserverState.latitude o in
    mkState o (fillFrom 0 STARS lstRad lat buf) ref next
            (initialized s) (rawHeadingDeg s).
End WithCatalog.

End SkyEngine.

(** ** SkyRenderer.ts: the highlight state *)
Module SkyRenderer.

Record State : Type := mkState { highlightedConstellation : string }.

Definition initial : State := mkState EmptyString.

Definition setHighlightedConstellation (abbr : string) (_ : State) : State :=
  mkState abbr.

Definition getHighlightedConstellation (s : State) : string :=
  highlightedConstellation s.

End SkyRenderer.

(** ** GazeAndHandController.ts *)
Module GazeAndHandController.

(** What the controller does to its collaborators, most recent first: a
    call of [Renderer.setHighlightedConstellation] and a call of the
    [onConstellationDeselected] callback. *)
Inductive Event : Type :=
| SetHighlighted (abbr : string)
| Deselected.

(** The module variables of the controller, together with the state of the
    two modules it calls into.  [camera] and the two callbacks are
    references that are null until [init]; a [bool] records whether they
    are set. *)
Record World : Type := mkWorld {
  engine : SkyEngine.State;
  renderer : SkyRenderer.State;
  camera : bool;
  onConstellationSelected : bool;
  onConstellationDeselected : bool;
  currentGazeConstellation : string;
  gazeHoldTime : R;
  trace : list Event
}.

Definition GAZE_THRESHOLD_RAD : R := 8 * (PI / 180).
Definition GAZE_HOLD_DELAY : R := 1 / 2.

(** [init]: the references are stored; the gesture bindings are outside
    the model. *)
Definition init (w : World) : World :=
  mkWorld (engine w) (renderer w) true true true
          (currentGazeConstellation w) (gazeHoldTime w) (trace w).

(** [Math.atan2(y, x)] on real numbers.  At [x = 0] and [y = 0] the
    JavaScript result depends on the signs of the zeros; [0] is taken. *)
Definition Math_atan2 (y x : R) : R :=
  if Rlt_dec 0 x then atan (y / x)
  else if Rlt_dec x 0 then
    (if Rle_dec 0 y then atan (y / x) + PI else atan (y / x) - PI)
  else if Rlt_dec 0 y then PI / 2
  else if Rlt_dec y 0 then - (PI / 2)
  else 0.

(** The camera forward vector rotated back by the compass heading:
    [(skyX, skyY, skyZ)]. *)
Definition skyDirection (headingDeg : R) (camForward : R * R * R) : R * R * R :=
  let '(fx, fy, fz) := camForward in
  let headingRad := headingDeg * (PI / 180) in
  let cosH := cos (- headingRad) in
  let sinH := sin (- headingRad) in
  let skyX := fx * cosH - fz * sinH in
  let skyZ := fx * sinH + fz * cosH in
  let skyY := fy in
  (skyX, skyY, skyZ).

Definition skyLength (sky : R * R * R) : R :=
  let '(skyX, skyY, skyZ) := sky in
  sqrt (skyX * skyX + skyY * skyY + skyZ * skyZ).

(** [gazeAlt] and [gazeAz] of a sky direction of length [len]. *)
Definition gazeAltAz (sky : R * R * R) : R * R :=
  let '(skyX, skyY, skyZ) := sky in
  let len := skyLength sky in
  let gazeAlt := asin (skyY / len) in
  let gazeAz := Math_atan2 skyX (- skyZ) in
  let gazeAz := if Rlt_dec gazeAz 0 then gazeAz + 2 * PI else gazeAz in
  (gazeAlt, gazeAz).

(** [clearGaze()] *)
Definition clearGaze (w : World) : World :=
  if decide (currentGazeConstellation w <> EmptyString) then
    mkWorld (engine w)
      (SkyRenderer.setHighlightedConstellation EmptyString (renderer w))
      (camera w) (onConstellationSelected w) (onConstellationDeselected w)
      EmptyString 0
      (if onConstellationDeselected w
       then Deselected :: SetHighlighted EmptyString :: trace w
       else SetHighlighted EmptyString :: trace w)
  else w.

(** The [for (const c of CONSTELLATIONS)] loop, from the given values of
    [closestAbbr] and [closestDist]. *)
Fixpoint closestLoop (obs : ObserverState.t) (gazeAlt gazeAz : R)
    (cs : list ConstellationRecord.t) (closestAbbr : string) (closestDist : R)
    : string * R :=
  match cs with
  | [] => (closestAbbr, closestDist)
  | c :: rest =>
      let '(cAlt, cAz) :=
        AstroMath.equatorialToHorizontal
          (ConstellationRecord.centroidRA c) (ConstellationRecord.centroidDec c)
          (ObserverState.lstRadians obs) (ObserverState.latitude obs) in
      if Rlt_dec cAlt 0 then
        closestLoop obs gazeAlt gazeAz rest closestAbbr closestDist
      else
        let dist := AstroMath.angularDistanceAltAz gazeAlt gazeAz cAlt cAz in
        if Rlt_dec dist closestDist then
          closestLoop obs gazeAlt gazeAz rest (ConstellationRecord.abbr c) dist
        else
          closestLoop obs gazeAlt gazeAz rest closestAbbr closestDist
  end.

(** The block "Update highlight state" that ends [updateGaze]. *)
Definition updateHighlight (closestAbbr : string) (deltaTime : R) (w : World)
    : World :=
  if decide (closestAbbr <> currentGazeConstellation w) then
    if decide (closestAbbr = EmptyString) then clearGaze w
    else
      mkWorld (engine w) (renderer w) (camera w) (onConstellationSelected w)
              (onConstellationDeselected w) closestAbbr 0 (trace w)
  else if decide (closestAbbr <> EmptyString) then
    let hold := gazeHoldTime w + deltaTime in
    if Rle_dec GAZE_HOLD_DELAY hold then
      mkWorld (engine w)
        (SkyRenderer.setHighlightedConstellation closestAbbr (renderer w))
        (camera w) (onConstellationSelected w) (onConstellationDeselected w)
        (currentGazeConstellation w) hold
        (SetHighlighted closestAbbr :: trace w)
    else
      mkWorld (engine w) (renderer w) (camera w) (onConstellationSelected w)
              (onConstellationDeselected w) (currentGazeConstellation w) hold
              (trace w)
  else w.

Section WithCatalog.
(** [CONSTELLATIONS] of ConstellationData.ts, the generated table of
    regions: a parameter. *)
Variable CONSTELLATIONS : list ConstellationRecord.t.

(** [updateGaze(deltaTime)]; [camForward] is the value read from
    [camera.getTransform().forward] on this tick. *)
Definition updateGaze (camForward : R * R * R) (deltaTime : R) (w : World)
    : World :=
  if negb (camera w) || negb (SkyEngine.isInitialized (engine w)) then w
  else
    let heading := ObserverState.headingDeg (SkyEngine.getObserver (engine w)) in
    let sky := skyDirection heading camForward in
    let len := skyLength sky in
    if Rlt_dec len (1 / 1000) then w
    else
      let '(gazeAlt, gazeAz) := gazeAltAz sky in
      if Rlt_dec gazeAlt (-5 * (PI / 180)) then clearGaze w
      else
        let obs := SkyEngine.getObserver (engine w) in
        let '(closestAbbr, closestDist) :=
          closestLoop obs gazeAlt gazeAz CONSTELLATIONS
                      EmptyString GAZE_THRESHOLD_RAD in
        updateHighlight closestAbbr deltaTime w.

(** A run of ticks, each with its camera direction and elapsed time. *)
Definition runTicks (ticks : list ((R * R * R) * R)) (w : World) : World :=
  fold_left (fun w tick => updateGaze (fst tick) (snd tick) w) ticks w.

End WithCatalog.

Definition getCurrentGazeConstellation (w : World) : string :=
  currentGazeConstellation w.

(** *** Views of [updateGaze] used to state its properties *)

(** The horizontal coordinates of a centroid and its distance from the
    gaze, as the loop computes them. *)
Definition centroidAltAz (obs : ObserverState.t) (c : ConstellationRecord.t)
    : R * R :=
  AstroMath.equatorialToHorizontal
    (ConstellationRecord.centroidRA c) (ConstellationRecord.centroidDec c)
    (ObserverState.lstRadians obs) (ObserverState.latitude obs).

Definition centroidDistance (obs : ObserverState.t) (gazeAlt gazeAz : R)
    (c : ConstellationRecord.t) : R :=
  AstroMath.angularDistanceAltAz gazeAlt gazeAz
    (fst (centroidAltAz obs c)) (snd (centroidAltAz obs c)).

(** The candidate of a tick: [None] when [updateGaze] returns before
    looking (no camera, engine not initialised, degenerate direction),
    otherwise the abbreviation it selects, the empty string standing for
    "no candidate". *)
Definition tickCandidate (CONSTELLATIONS : list ConstellationRecord.t)
    (camForward : R * R * R) (w : World) : option string :=
  if negb (camera w) || negb (SkyEngine.isInitialized (engine w)) then None
  else
    let obs := SkyEngine.getObserver (engine w) in
    let sky := skyDirection (ObserverState.headingDeg obs) camForward in
    if Rlt_dec (skyLength sky) (1 / 1000) then None
    else if Rlt_dec (fst (gazeAltAz sky)) (-5 * (PI / 180))
    then Some EmptyString
    else Some (fst (closestLoop obs (fst (gazeAltAz sky)) (snd (gazeAltAz sky))
                      CONSTELLATIONS EmptyString GAZE_THRESHOLD_RAD)).

(** The region the renderer currently highlights. *)
Definition highlighted (w : World) : string :=
  SkyRenderer.getHighlightedConstellation (renderer w).

(** The sum of the elapsed times of a run of ticks, and the number of
    those ticks at which the accumulated hold time, starting from [hold],
    is at least the hold delay. *)
Definition sumR (dts : list R) : R := fold_right Rplus 0 dts.

Fixpoint holdFirings (hold : R) (dts : list R) : nat :=
  match dts with
  | [] => 0
  | dt :: rest =>
      (if Rle_dec GAZE_HOLD_DELAY (hold + dt) then 1 else 0)
      + holdFirings (hold + dt) rest
  end.

End GazeAndHandController.

(** ** A small sky for concrete runs

    An observer on the equator at longitude 0 with sidereal time 0 and
    heading 0, and two regions whose centroids sit on the horizon: one due
    north, one due east. *)
Module Demo.
Import GazeAndHandController.

Definition demoEngine : SkyEngine.State :=
  SkyEngine.setObserverLocation 0 0 SkyEngine.initial.

Definition demoWorld : World :=
  init (mkWorld demoEngine SkyRenderer.initial false false false
                EmptyString 0 []).

Definition demoObs : ObserverState.t := SkyEngine.observer demoEngine.

Definition UMi : ConstellationRecord.t :=
  ConstellationRecord.mk "UMi" "Ursa Minor" [] 0 (PI / 2).
Definition Ori : ConstellationRecord.t :=
  ConstellationRecord.mk "Ori" "Orion" [] (PI / 2) 0.
Definition demoSky : list ConstellationRecord.t := [UMi; Ori].

(** A third centroid, beyond the pole: one degree under the north point of
    the horizon. *)
Definition Cep : ConstellationRecord.t :=
  ConstellationRecord.mk "Cep" "Cepheus" [] PI (PI / 2 - PI / 180).
Definition sunkenSky : list ConstellationRecord.t := [Cep; Ori].

Definition lookNorth : R * R * R := (0, 0, -1).
Definition lookEast : R * R * R := (1, 0, 0).
Definition lookUp : R * R * R := (0, 1, 0).

Definition Sirius : StarRecord.t :=
  StarRecord.mk 32349 (1767 / 1000) (- (2917 / 10000)) (- (144 / 100)) 0
                "Sirius" "CMa".
Definition Polaris : StarRecord.t :=
  StarRecord.mk 11767 (6623 / 10000) (15580 / 10000) (197 / 100) (64 / 100)
                "Polaris" "UMi".
Definition demoStars : list StarRecord.t := [Sirius; Polaris].

End Demo.

(** ** SkyEngine.ts: the engine as driven from outside *)
Module SkyEngineEvents.
Import SkyEngine.

(** What reaches the engine: a compass sample, a position sample (with the
    time of its arrival), a location set by hand, the fallback of
    [initLocation], a call of [updateStarPositions] (with the time it
    reads). *)
Inductive Event : Type :=
| Heading (headingDeg : R)
| Position (latDeg lonDeg now : R)
| SetLocation (latDeg lonDeg : R)
| Fallback
| Recompute (now : R).

Definition apply (STARS : list StarRecord.t) (e : Event) (s : State) : State :=
  match e with
  | Heading h => onNorthAlignedOrientationUpdate h s
  | Position lat lon now => onPosition lat lon now s
  | SetLocation lat lon => setObserverLocation lat lon s
  | Fallback => fallbackLocation s
  | Recompute now => updateStarPositions STARS now s
  end.

Definition run (STARS : list StarRecord.t) (es : list Event) (s : State)
    : State :=
  fold_left (fun s e => apply STARS e s) es s.

(** A compass sample inside the compass range. *)
Definition inRange (e : Event) : Prop :=
  match e with
  | Heading h => 0 <= h < 360
  | _ => True
  end.

End SkyEngineEvents.

Module SkyEngineInv.
Import SkyEngine.

(** What every engine state reached from [initial] satisfies. *)
Definition Inv (STARS : list StarRecord.t) (s : State) : Prop :=
  0 <= ObserverState.headingDeg (observer s) < 360 /\
  0 <= ObserverState.lstRadians (observer s) < 2 * PI /\
  ((starPositions s = [] /\ starPositionsRef s = 0%nat /\ heapNext s = 1%nat) \/
   (length (starPositions s) = length STARS /\ (heapNext s <= 2)%nat)) /\
  (initialized s = false -> starPositions s = []).

End SkyEngineInv.

(** ** GazeAndHandController.ts: the pinch handlers *)
Module GazeAndHandPinch.
Import GazeAndHandController.

(** The handler of the right-hand pinch registered by [init]: the
    arguments [onConstellationSelected] is called with, if it is called. *)
Definition pinchRight (CONSTELLATIONS : list ConstellationRecord.t)
    (w : World) : option (string * string) :=
  if decide (currentGazeConstellation w <> EmptyString) then
    match
      find (fun con =>
              bool_decide (ConstellationRecord.abbr con
                           = currentGazeConstellation w)) CONSTELLATIONS
    with
    | Some c =>
        if onConstellationSelected w
        then Some (ConstellationRecord.abbr c, ConstellationRecord.name c)
        else None
    | None => None
    end
  else None.

(** The handler of the left-hand pinch: whether [onConstellationDeselected]
    is called. *)
Definition pinchLeft (w : World) : bool := onConstellationDeselected w.

(** What holds of the controller between ticks: with no region matched the
    hold time is zero and nothing is highlighted. *)
Definition Idle (w : World) : Prop :=
  currentGazeConstellation w = EmptyString ->
  gazeHoldTime w = 0 /\ highlighted w = EmptyString.

End GazeAndHandPinch.

(** ** StarData.ts: the index of the catalog *)
Module StarData.

(** [HIP_TO_INDEX], as the generated file builds it:
    [STARS.forEach((s, i) => HIP_TO_INDEX.set(s.hip, i))]. *)
Fixpoint hipToIndexFrom (i : nat) (stars : list StarRecord.t)
    (m : gmap Z nat) : gmap Z nat :=
  match stars with
  | [] => m
  | s :: rest => hipToIndexFrom (S i) rest (<[StarRecord.hip s := i]> m)
  end.

Definition HIP_TO_INDEX (STARS : list StarRecord.t) : gmap Z nat :=
  hipToIndexFrom 0 STARS ∅.

End StarData.

(** ** SkyRenderer.ts: the two meshes *)
Module SkyRendererMeshes.

(** One interleaved vertex: position and colour. *)
Record Vertex : Type := mkVertex {
  px : R; py : R; pz : R;
  cr : R; cg : R; cb : R; ca : R
}.

(** A [MeshBuilder], as far as the renderer uses it: the vertices and the
    indices appended so far; [setVertexInterleaved(i, v)] replaces the
    vertex at index [i].  What the call does at an index that was never
    appended is not modelled (nothing is written); the properties below
    only meet indices that were. *)
Record MeshBuilder : Type := mkMesh {
  vertices : list Vertex;
  indices : list nat
}.

(** The module variables [starMeshBuilder], [lineMeshBuilder] (null until
    [init]), [totalLineSegments] and [constellationSegmentOffsets]. *)
Record State : Type := mkState {
  starMeshBuilder : option MeshBuilder;
  lineMeshBuilder : option MeshBuilder;
  totalLineSegments : nat;
  constellationSegmentOffsets : list nat
}.

Definition initial : State := mkState None None 0 [].

Definition starBlank : Vertex := mkVertex 0 0 0 1 1 1 1.
Definition lineBlank : Vertex :=
  mkVertex 0 0 0 (3 / 10) (5 / 10) (8 / 10) (4 / 10).
Definition hidden : Vertex := mkVertex 0 0 0 0 0 0 0.

(** The inner loop of [init] over the segments of one constellation. *)
Fixpoint initSegments (lines : list (list Z)) (vertIdx : nat)
    (lineVerts : list Vertex) (lineIndices : list nat) (total : nat)
    : nat * list Vertex * list nat * nat :=
  match lines with
  | [] => (vertIdx, lineVerts, lineIndices, total)
  | _ :: rest =>
      initSegments rest (vertIdx + 2)
        (lineVerts ++ [lineBlank; lineBlank])
        (lineIndices ++ [vertIdx; (vertIdx + 1)%nat])
        (S total)
  end.

(** The outer loop of [init] over the constellations. *)
Fixpoint initLines (cs : list ConstellationRecord.t) (vertIdx : nat)
    (lineVerts : list Vertex) (lineIndices : list nat) (total : nat)
    (offsets : list nat) : list Vertex * list nat * nat * list nat :=
  match cs with
  | [] => (lineVerts, lineIndices, total, offsets)
  | c :: rest =>
      let '(vertIdx', lineVerts', lineIndices', total') :=
        initSegments (ConstellationRecord.lines c) vertIdx
                     lineVerts lineIndices total in
      initLines rest vertIdx' lineVerts' lineIndices' total'
                (offsets ++ [vertIdx])
  end.

(** [init]: both builders are created and filled; the binding to the
    scene objects is outside the model. *)
Definition init (STARS : list StarRecord.t)
    (CONSTELLATIONS : list ConstellationRecord.t) (_ : State) : State :=
  let starVerts := replicate (length STARS) starBlank in
  let starIndices := seq 0 (length STARS) in
  let '(lineVerts, lineIndices, total, offsets) :=
    initLines CONSTELLATIONS 0 [] [] 0 [] in
  mkState (Some (mkMesh starVerts starIndices))
          (Some (mkMesh lineVerts lineIndices)) total offsets.

(** The vertex the first loop of [updateMeshes] writes for one star. *)
Definition starVertex (sp : StarPosition3D.t) : Vertex :=
  let '(r, g, b, _) := AstroMath.bvToColor (StarPosition3D.bv sp) in
  let alpha := AstroMath.magnitudeToAlpha (StarPosition3D.mag sp) in
  let visible := if Rle_dec 0 (StarPosition3D.y sp) then alpha else 0 in
  mkVertex (StarPosition3D.x sp) (StarPosition3D.y sp) (StarPosition3D.z sp)
           r g b visible.

(** [for (let i = 0; i < positions.length; i++)] from index [i] on. *)
Fixpoint updateStars (i : nat) (positions : list StarPosition3D.t)
    (verts : list Vertex) : list Vertex :=
  match positions with
  | [] => verts
  | sp :: rest => updateStars (S i) rest (<[i := starVertex sp]> verts)
  end.

(** The two vertices written for one segment [seg] (the [pair] of the
    source); [None] stands for the
    TypeError raised when an index of the map is outside [positions]. *)
Definition segmentVertices (positions : list StarPosition3D.t)
    (hipToIndex : gmap Z nat) (isHighlighted : bool) (seg : list Z)
    : option (Vertex * Vertex) :=
  let idx1 := seg !! 0%nat ≫= fun h => hipToIndex !! h in
  let idx2 := seg !! 1%nat ≫= fun h => hipToIndex !! h in
  match idx1, idx2 with
  | Some idx1, Some idx2 =>
      match positions !! idx1, positions !! idx2 with
      | Some s1, Some s2 =>
          let bothVisible :=
            if Rle_dec 0 (StarPosition3D.y s1)
            then (if Rle_dec 0 (StarPosition3D.y s2) then true else false)
            else false in
          let alpha :=
            if bothVisible
            then (if isHighlighted then 9 / 10 else 35 / 100)
            else 0 in
          let cr := if isHighlighted then 4 / 10 else 3 / 10 in
          let cg := if isHighlighted then 85 / 100 else 5 / 10 in
          let cb := if isHighlighted then 1 else 8 / 10 in
          Some (mkVertex (StarPosition3D.x s1) (StarPosition3D.y s1)
                         (StarPosition3D.z s1) cr cg cb alpha,
                mkVertex (StarPosition3D.x s2) (StarPosition3D.y s2)
                         (StarPosition3D.z s2) cr cg cb alpha)
      | _, _ => None
      end
  | _, _ => Some (hidden, hidden)
  end.

(** The inner loop of the second part of [updateMeshes]. *)
Fixpoint updateSegments (positions : list StarPosition3D.t)
    (hipToIndex : gmap Z nat) (isHighlighted : bool) (lines : list (list Z))
    (vertIdx : nat) (verts : list Vertex) : option (nat * list Vertex) :=
  match lines with
  | [] => Some (vertIdx, verts)
  | seg :: rest =>
      match segmentVertices positions hipToIndex isHighlighted seg with
      | Some (v1, v2) =>
          updateSegments positions hipToIndex isHighlighted rest (vertIdx + 2)
            (<[(vertIdx + 1)%nat := v2]> (<[vertIdx := v1]> verts))
      | None => None
      end
  end.

(** The outer loop over the constellations. *)
Fixpoint updateLines (positions : list StarPosition3D.t)
    (hipToIndex : gmap Z nat) (highlightedConstellation : string)
    (cs : list ConstellationRecord.t) (vertIdx : nat) (verts : list Vertex)
    : option (list Vertex) :=
  match cs with
  | [] => Some verts
  | c :: rest =>
      let isHighlighted :=
        bool_decide (ConstellationRecord.abbr c = highlightedConstellation) in
      match updateSegments positions hipToIndex isHighlighted
              (ConstellationRecord.lines c) vertIdx verts with
      | Some (vertIdx', verts') =>
          updateLines positions hipToIndex highlightedConstellation rest
                      vertIdx' verts'
      | None => None
      end
  end.

(** [updateMeshes()]: [positions] is [Engine.getStarPositions()] and
    [highlightedConstellation] the renderer's highlight; [None] stands for
    a TypeError. *)
Definition updateMeshes (CONSTELLATIONS : list ConstellationRecord.t)
    (hipToIndex : gmap Z nat) (positions : list StarPosition3D.t)
    (highlightedConstellation : string) (m : State) : option State :=
  match starMeshBuilder m, lineMeshBuilder m with
  | Some stars, Some lines =>
      if decide (length positions = 0%nat) then Some m
      else
        let stars' :=
          mkMesh (updateStars 0 positions (vertices stars)) (indices stars) in
        match updateLines positions hipToIndex highlightedConstellation
                CONSTELLATIONS 0 (vertices lines) with
        | Some lineVerts =>
            Some (mkState (Some stars') (Some (mkMesh lineVerts (indices lines)))
                    (totalLineSegments m) (constellationSegmentOffsets m))
        | None => None
        end
  | _, _ => Some m
  end.

(** All segments of the catalog with the highlight flag of their
    constellation, in the order the loops visit them. *)
Definition allSegments (highlightedConstellation : string)
    (cs : list ConstellationRecord.t) : list (bool * list Z) :=
  flat_map
    (fun c =>
       map (fun seg =>
              (bool_decide (ConstellationRecord.abbr c = highlightedConstellation),
               seg))
           (ConstellationRecord.lines c))
    cs.

(** The vertices the second part of [updateMeshes] writes for a run of
    segments, in order; [None] as soon as one of them raises. *)
Fixpoint lineVertices (positions : list StarPosition3D.t)
    (hipToIndex : gmap Z nat) (segs : list (bool * list Z))
    : option (list Vertex) :=
  match segs with
  | [] => Some []
  | (isHighlighted, seg) :: rest =>
      match segmentVertices positions hipToIndex isHighlighted seg with
      | Some (v1, v2) =>
          match lineVertices positions hipToIndex rest with
          | Some vs => Some (v1 :: v2 :: vs)
          | None => None
          end
      | None => None
      end
  end.

(** The number of segments of a list of constellations. *)
Definition segmentCount (cs : list ConstellationRecord.t) : nat :=
  length (flat_map ConstellationRecord.lines cs).

(** The layout [init] gives the two meshes: one vertex per star, two per
    segment, the segments of constellation [ci] starting at twice the
    number of segments before it. *)
Definition Laid (STARS : list StarRecord.t)
    (CONSTELLATIONS : list ConstellationRecord.t) (m : State) : Prop :=
  exists sm lm,
    starMeshBuilder m = Some sm /\
    lineMeshBuilder m = Some lm /\
    length (vertices sm) = length STARS /\
    indices sm = seq 0 (length STARS) /\
    length (vertices lm) = (2 * segmentCount CONSTELLATIONS)%nat /\
    indices lm = seq 0 (2 * segmentCount CONSTELLATIONS) /\
    totalLineSegments m = segmentCount CONSTELLATIONS /\
    constellationSegmentOffsets m =
      map (fun ci => (2 * segmentCount (take ci CONSTELLATIONS))%nat)
          (seq 0 (length CONSTELLATIONS)).

(** A run of frames, each with the positions and the highlight it reads. *)
Fixpoint runFrames (CONSTELLATIONS : list ConstellationRecord.t)
    (hipToIndex : gmap Z nat)
    (frames : list (list StarPosition3D.t * string)) (m : State)
    : option State :=
  match frames with
  | [] => Some m
  | (positions, highlightedConstellation) :: rest =>
      match updateMeshes CONSTELLATIONS hipToIndex positions
              highlightedConstellation m with
      | Some m' => runFrames CONSTELLATIONS hipToIndex rest m'
      | None => None
      end
  end.

End SkyRendererMeshes.

(** A small catalog with segments: the second segment of the first region
    names a star the star table lacks. *)
Module DemoLines.

Definition CMa : ConstellationRecord.t :=
  ConstellationRecord.mk "CMa" "Canis Major"
    [[32349%Z; 11767%Z]; [32349%Z; 99999%Z]] (1767 / 1000) (- (2917 / 10000)).
Definition UMi : ConstellationRecord.t :=
  ConstellationRecord.mk "UMi" "Ursa Minor" [[11767%Z; 11767%Z]] 0 (PI / 2).
Definition catalog : list ConstellationRecord.t := [CMa; UMi].

(** Sirius under the horizon, Polaris overhead. *)
Definition positions : list StarPosition3D.t :=
  [StarPosition3D.mk 32349 0 (- 500) 0 (- (144 / 100)) 0 "Sirius";
   StarPosition3D.mk 11767 0 500 0 (197 / 100) (64 / 100) "Polaris"].

End DemoLines.

(** ** SkyGuideMain.ts: the head of the frame loop *)
Module SkyGuideMain.

(** [frameCount], with the state of the engine and of the renderer's
    meshes that [onUpdate] drives. *)
Record State : Type := mkState {
  frameCount : nat;
  engine : SkyEngine.State;
  meshes : SkyRendererMeshes.State
}.

(** [frameCount % positionUpdateInterval === 0] for an integer interval:
    the remainder by zero is NaN, which is not [0]; otherwise it has the
    sign of the dividend. *)
Definition isDue (frameCount : nat) (positionUpdateInterval : Z) : bool :=
  if decide (positionUpdateInterval = 0%Z) then false
  else bool_decide (Z.rem (Z.of_nat frameCount) positionUpdateInterval = 0%Z).

Section WithCatalogs.
Variable STARS : list StarRecord.t.
Variable CONSTELLATIONS : list ConstellationRecord.t.
Variable positionUpdateInterval : Z.

(** The state [onStart] leaves: the engine as loaded, the renderer
    initialised, no frame counted. *)
Definition started : State :=
  mkState 0 SkyEngine.initial
          (SkyRendererMeshes.init STARS CONSTELLATIONS SkyRendererMeshes.initial).

(** The first part of [onUpdate]: the frame is counted, the positions are
    recomputed on the frames that are due, the meshes are updated.
    [now] is the time the engine reads and [highlightedConstellation] the
    renderer's highlight at this frame; [None] stands for a TypeError. *)
Definition drawFrame (now : R) (highlightedConstellation : string)
    (st : State) : option State :=
  let frameCount := S (frameCount st) in
  let engine :=
    if isDue frameCount positionUpdateInterval
    then SkyEngine.updateStarPositions STARS now (engine st)
    else engine st in
  match SkyRendererMeshes.updateMeshes CONSTELLATIONS
          (StarData.HIP_TO_INDEX STARS) (SkyEngine.getStarPositions engine)
          highlightedConstellation (meshes st) with
  | Some meshes => Some (mkState frameCount engine meshes)
  | None => None
  end.

(** What happens between and at the frames: an input of the engine or a
    frame. *)
Inductive Step : Type :=
| Input (e : SkyEngineEvents.Event)
| Frame (now : R) (highlightedConstellation : string).

Definition step (x : Step) (st : State) : option State :=
  match x with
  | Input e =>
      Some (mkState (frameCount st) (SkyEngineEvents.apply STARS e (engine st))
                    (meshes st))
  | Frame now highlightedConstellation =>
      drawFrame now highlightedConstellation st
  end.

Fixpoint runSteps (xs : list Step) (st : State) : option State :=
  match xs with
  | [] => Some st
  | x :: rest =>
      match step x st with
      | Some st' => runSteps rest st'
      | None => None
      end
  end.

End WithCatalogs.

(** The inputs of a step that is not a frame are inside their ranges. *)
Definition stepInRange (x : Step) : Prop :=
  match x with
  | Input e => SkyEngineEvents.inRange e
  | Frame _ _ => True
  end.

(** A step that is not a call of [updateStarPositions] from outside the
    frame loop. *)
Definition notRecompute (x : Step) : Prop :=
  match x with
  | Input (SkyEngineEvents.Recompute _) => False
  | _ => True
  end.

Definition isFrame (x : Step) : bool :=
  match x with
  | Frame _ _ => true
  | Input _ => false
  end.

End SkyGuideMain.

(** ** A JavaScript [Set], as far as the code uses one *)
Module JsSet.

(** The elements in the order of their first insertion; [add] of an
    element that is present changes nothing. *)
Definition add {A : Type} `{EqDecision A} (x : A) (set : list A) : list A :=
  if decide (x ∈ set) then set else set ++ [x].

End JsSet.

(** ** InfoPanel.ts *)
Module InfoPanel.

(** The panel's scene object: whether it is enabled, its world position,
    and the direction handed to [quat.lookAt] for its world rotation. *)
Record PanelRoot : Type := mkRoot {
  enabled : bool;
  worldPosition : R * R * R;
  lookAt : R * R * R
}.

(** The module variables: the panel (null until [init]), the text of the
    text component (null until [init], and after it when the text object
    has no such component), whether [camera] is set, and [isVisible]. *)
Record State : Type := mkState {
  infoPanelRoot : option PanelRoot;
  infoTextComponent : option string;
  camera : bool;
  isVisible : bool
}.

Definition initial : State := mkState None None false false.

Definition PANEL_DISTANCE : R := 3.

Definition newline : string := String (Ascii.ascii_of_nat 10) EmptyString.

(** [hide()] *)
Definition hide (st : State) : State :=
  mkState
    (match infoPanelRoot st with
     | Some root => Some (mkRoot false (worldPosition root) (lookAt root))
     | None => None
     end)
    (infoTextComponent st) (camera st) false.

(** [init(panelRoot, textObj, cameraObj)]; [text] is the text component of
    [textObj], if it has one. *)
Definition init (panelRoot : PanelRoot) (text : option string) (_ : State)
    : State :=
  hide (mkState (Some panelRoot) text true false).

Definition getIsVisible (st : State) : bool := isVisible st.

(** [positionInFrontOfCamera()]; [camPos] and [camForward] are read from
    the camera's transform. *)
Definition positionInFrontOfCamera (camPos camForward : R * R * R)
    (st : State) : State :=
  if camera st then
    match infoPanelRoot st with
    | Some root =>
        let '(cx, cy, cz) := camPos in
        let '(fx, fy, fz) := camForward in
        let panelX := cx + fx * PANEL_DISTANCE in
        let panelY := cy + fy * PANEL_DISTANCE + 1 / 2 in
        let panelZ := cz + fz * PANEL_DISTANCE in
        let toCamera := (cx - panelX, cy - panelY, cz - panelZ) in
        mkState (Some (mkRoot (enabled root) (panelX, panelY, panelZ) toCamera))
                (infoTextComponent st) (camera st) (isVisible st)
    | None => st
    end
  else st.

(** [updatePosition()] *)
Definition updatePosition (camPos camForward : R * R * R) (st : State)
    : State :=
  if isVisible st then positionInFrontOfCamera camPos camForward st else st.

(** The loop that collects [uniqueHips]; an end that a segment lacks is
    [undefined], here [None]. *)
Fixpoint collectHips (lines : list (list Z)) (uniqueHips : list (option Z))
    : list (option Z) :=
  match lines with
  | [] => uniqueHips
  | seg :: rest =>
      collectHips rest
        (JsSet.add (seg !! 1%nat) (JsSet.add (seg !! 0%nat) uniqueHips))
  end.

(** The loop that collects [starNames]; [None] stands for the TypeError
    raised when an index of the map is outside [STARS]. *)
Fixpoint collectNames (STARS : list StarRecord.t) (hipToIndex : gmap Z nat)
    (uniqueHips : list (option Z)) (starNames : list string)
    : option (list string) :=
  match uniqueHips with
  | [] => Some starNames
  | hip :: rest =>
      match hip ≫= fun h => hipToIndex !! h with
      | Some idx =>
          match STARS !! idx with
          | Some s =>
              if decide (StarRecord.name s <> EmptyString)
              then collectNames STARS hipToIndex rest
                     (starNames ++ [StarRecord.name s])
              else collectNames STARS hipToIndex rest starNames
          | None => None
          end
      | None => collectNames STARS hipToIndex rest starNames
      end
  end.

(** The text of the panel. *)
Definition panelText (abbr name : string) (size : nat)
    (starNames : list string) : string :=
  let text := name +:+ " (" +:+ abbr +:+ ")" +:+ newline in
  let text := text +:+ pretty size +:+ " stars" +:+ newline in
  if decide (0 < length starNames)%nat
  then text +:+ "Notable: " +:+ String.concat ", " (take 4 starNames)
  else text.

(** [showConstellationInfo(abbr, name)] *)
Definition showConstellationInfo (CONSTELLATIONS : list ConstellationRecord.t)
    (STARS : list StarRecord.t) (hipToIndex : gmap Z nat)
    (abbr name : string) (camPos camForward : R * R * R) (st : State)
    : option State :=
  match infoPanelRoot st, infoTextComponent st, camera st with
  | Some _, Some _, true =>
      match find (fun con => bool_decide (ConstellationRecord.abbr con = abbr))
                 CONSTELLATIONS with
      | None => Some st
      | Some c =>
          let uniqueHips := collectHips (ConstellationRecord.lines c) [] in
          match collectNames STARS hipToIndex uniqueHips [] with
          | None => None
          | Some starNames =>
              let text := panelText abbr name (length uniqueHips) starNames in
              let st1 :=
                mkState (infoPanelRoot st) (Some text) (camera st)
                        (isVisible st) in
              let st2 := positionInFrontOfCamera camPos camForward st1 in
              Some (mkState
                      (match infoPanelRoot st2 with
                       | Some root =>
                           Some (mkRoot true (worldPosition root) (lookAt root))
                       | None => None
                       end)
                      (infoTextComponent st2) (camera st2) true)
          end
      end
  | _, _, _ => Some st
  end.

End InfoPanel.

(** ** generate-star-data.js: the tool that writes the two tables *)
Module Generator.

(** *** [parseCSVLine] *)

Definition quote : Ascii.ascii := Ascii.ascii_of_nat 34.
Definition comma : Ascii.ascii := Ascii.ascii_of_nat 44.

(** The loop of [parseCSVLine] over what is left of the line, with its
    variables [inQuotes], [current] and [fields]; the push after the loop
    is its last step. *)
Fixpoint parseLoop (line : list Ascii.ascii) (inQuotes : bool)
    (current : list Ascii.ascii) (fields : list (list Ascii.ascii))
    : list (list Ascii.ascii) :=
  match line with
  | [] => fields ++ [current]
  | ch :: rest =>
      if inQuotes then
        if decide (ch = quote) then
          match rest with
          | next :: rest' =>
              if decide (next = quote)
              then parseLoop rest' true (current ++ [quote]) fields
              else parseLoop rest false current fields
          | [] => parseLoop rest false current fields
          end
        else parseLoop rest true (current ++ [ch]) fields
      else
        if decide (ch = quote) then parseLoop rest true current fields
        else if decide (ch = comma)
        then parseLoop rest false [] (fields ++ [current])
        else parseLoop rest false (current ++ [ch]) fields
  end.

Definition parseCSVLine (line : list Ascii.ascii) : list (list Ascii.ascii) :=
  parseLoop line false [] [].

(** *** What a CSV writer emits, to state what [parseCSVLine] undoes *)

(** A field with every quote doubled. *)
Definition escape (field : list Ascii.ascii) : list Ascii.ascii :=
  flat_map (fun ch => if decide (ch = quote) then [quote; quote] else [ch])
           field.

(** A field is written either between quotes, its quotes doubled, or, if
    it has neither quote nor comma, as it is. *)
Definition Written (text field : list Ascii.ascii) : Prop :=
  text = quote :: escape field ++ [quote] \/
  (text = field /\ Forall (fun ch => ch <> quote /\ ch <> comma) field).

(** The fields of a line are separated by commas. *)
Fixpoint joinFields (texts : list (list Ascii.ascii)) : list Ascii.ascii :=
  match texts with
  | [] => []
  | [text] => text
  | text :: rest => text ++ comma :: joinFields rest
  end.

(** *** [parseConstellationJSON] *)

(** An entry of the parsed JSON, as far as the function reads it: absent
    properties are [None]; [native] and [english] are those of
    [common_name], absent with it. *)
Record Entry : Type := mkEntry {
  iau : option string;
  native : option string;
  english : option string;
  lines : option (list (list Z))
}.

(** [a || b] on strings that may be absent: the empty string is falsy. *)
Definition orElse (a : option string) (b : string) : string :=
  match a with
  | Some s => if decide (s = EmptyString) then b else s
  | None => b
  end.

(** The inner loop over one chain: consecutive members become a segment
    when both are positive. *)
Fixpoint chainSegments (chain : list Z) (segments : list (Z * Z))
    : list (Z * Z) :=
  match chain with
  | h1 :: rest =>
      match rest with
      | h2 :: _ =>
          chainSegments rest
            (if decide (0 < h1 /\ 0 < h2)%Z then segments ++ [(h1, h2)]
             else segments)
      | [] => segments
      end
  | [] => segments
  end.

Fixpoint chainsSegments (chains : list (list Z)) (segments : list (Z * Z))
    : list (Z * Z) :=
  match chains with
  | [] => segments
  | chain :: rest => chainsSegments rest (chainSegments chain segments)
  end.

(** The loop that fills [uniqueHips]. *)
Fixpoint collectHips (segments : list (Z * Z)) (uniqueHips : list Z)
    : list Z :=
  match segments with
  | [] => uniqueHips
  | (h1, h2) :: rest => collectHips rest (JsSet.add h2 (JsSet.add h1 uniqueHips))
  end.

(** The loop that sums the coordinates of the members found. *)
Fixpoint sumMembers (starsByHip : gmap Z StarRecord.t) (uniqueHips : list Z)
    (sumRA sumDec : R) (count : nat) : R * R * nat :=
  match uniqueHips with
  | [] => (sumRA, sumDec, count)
  | h :: rest =>
      match starsByHip !! h with
      | Some star =>
          sumMembers starsByHip rest (sumRA + StarRecord.ra star)
                     (sumDec + StarRecord.dec star) (S count)
      | None => sumMembers starsByHip rest sumRA sumDec count
      end
  end.

(** [Math.round]: the nearest integer, halves upwards. *)
Definition Math_round (x : R) : R := AstroMath.Math_floor (x + 1 / 2).

Definition round4 (x : R) : R := Math_round (x * 10000) / 10000.

(** The body of the loop over the entries: [None] when the entry is
    skipped. *)
Definition parseEntry (starsByHip : gmap Z StarRecord.t) (entry : Entry)
    : option ConstellationRecord.t :=
  let abbr := orElse (iau entry) EmptyString in
  if decide (abbr = EmptyString) then None
  else
    let name := orElse (native entry) (orElse (english entry) abbr) in
    let segments :=
      chainsSegments (match lines entry with Some l => l | None => [] end) [] in
    if decide (length segments = 0%nat) then None
    else
      let uniqueHips := collectHips segments [] in
      let '(sumRA, sumDec, count) := sumMembers starsByHip uniqueHips 0 0 0 in
      let centroidRA := if decide (0 < count)%nat then sumRA / INR count else 0 in
      let centroidDec :=
        if decide (0 < count)%nat then sumDec / INR count else 0 in
      Some (ConstellationRecord.mk abbr name
              (map (fun seg => [fst seg; snd seg]) segments)
              (round4 centroidRA) (round4 centroidDec)).

(** [parseConstellationJSON], from the parsed entries on. *)
Definition parseConstellations (starsByHip : gmap Z StarRecord.t)
    (entries : list Entry) : list ConstellationRecord.t :=
  omap (parseEntry starsByHip) entries.

(** [starsByHip] as [main] fills it. *)
Definition starsByHipOf (stars : list StarRecord.t) : gmap Z StarRecord.t :=
  fold_left (fun m s => <[StarRecord.hip s := s]> m) stars ∅.

End Generator.

(** * Properties *)

(** ** AstroMath *)
Module AstroMathFacts.
Import AstroMath.


Lemma clamp1_id (x : R) : -1 <= x <= 1 -> clamp1 x = x.
Proof.
  intros H. unfold clamp1, Rmax, Rmin. repeat destruct (Rle_dec _ _); lra.
Qed.

(** *** Magnitude maps *)

(** C4, counterexample.  At magnitude -9 (brighter than anything the maps
    were laid out for) the opacity is 2 and the scale 5.8875: both above
    the stated ceilings 1.0 and 3.0. *)
Lemma magnitude_maps_exceed_ceiling :
  magnitudeToAlpha (-9) = 2 /\ 1 < magnitudeToAlpha (-9) /\
  magnitudeToScale (-9) = 58875 / 10000 /\ 3 < magnitudeToScale (-9).
Proof.
  unfold magnitudeToAlpha, magnitudeToScale, Rmax.
  repeat destruct (Rle_dec _ _); lra.
Qed.

(** C4, amended.  For every magnitude the opacity is at least 0.15 and the
    scale at least 0.5.  The ceilings 1.0 and 3.0 hold exactly for the
    magnitudes from -1.5 upward, where they are attained at -1.5; below
    -1.5 both values exceed their ceiling.  At magnitude 5 both maps sit on
    their floor. *)
Theorem magnitude_maps_bounds (mag : R) :
  (15 / 100 <= magnitudeToAlpha mag /\ 1 / 2 <= magnitudeToScale mag) /\
  (- (15 / 10) <= mag ->
     magnitudeToAlpha mag <= 1 /\ magnitudeToScale mag <= 3) /\
  (mag < - (15 / 10) ->
     1 < magnitudeToAlpha mag /\ 3 < magnitudeToScale mag) /\
  (magnitudeToAlpha (- (15 / 10)) = 1 /\ magnitudeToScale (- (15 / 10)) = 3) /\
  (magnitudeToAlpha 5 = 15 / 100 /\ magnitudeToScale 5 = 1 / 2).
Proof.
  unfold magnitudeToAlpha, magnitudeToScale, Rmax.
  repeat split; try intros H; repeat destruct (Rle_dec _ _); lra.
Qed.

(** *** Heading smoothing *)

(** C6.  For headings in [0, 360) and a factor in [0, 1] the result is
    again in [0, 360); it is the current heading moved by [alpha] times a
    difference that is the raw one shifted by -360 when above 180 and by
    +360 when below -180 (so of magnitude at most 180), brought back into
    range by one turn; and [smoothHeading 359 1 0.5] is 0. *)
Theorem smoothHeading_shortest_path (current target alpha : R) :
  0 <= current < 360 -> 0 <= target < 360 -> 0 <= alpha <= 1 ->
  0 <= smoothHeading current target alpha < 360 /\
  (exists diff : R,
      (180 < target - current -> diff = target - current - 360) /\
      (target - current < -180 -> diff = target - current + 360) /\
      (-180 <= target - current <= 180 -> diff = target - current) /\
      -180 <= diff <= 180 /\
      (smoothHeading current target alpha = current + alpha * diff \/
       smoothHeading current target alpha = current + alpha * diff + 360 \/
       smoothHeading current target alpha = current + alpha * diff - 360)) /\
  smoothHeading 359 1 (1 / 2) = 0.
Proof.
  intros Hc Ht Ha. split; [|split].
  - unfold smoothHeading. cbv zeta.
    repeat (destruct (Rlt_dec _ _) || destruct (Rle_dec _ _)); nra.
  - unfold smoothHeading. cbv zeta.
    destruct (Rlt_dec 180 (target - current)) as [H1|H1].
    + exists (target - current - 360).
      repeat (destruct (Rlt_dec _ _) || destruct (Rle_dec _ _));
        repeat split; intros; try lra; auto.
    + destruct (Rlt_dec (target - current) (-180)) as [H2|H2].
      * exists (target - current + 360).
        repeat (destruct (Rlt_dec _ _) || destruct (Rle_dec _ _));
          repeat split; intros; try lra; auto.
      * exists (target - current).
        repeat (destruct (Rlt_dec _ _) || destruct (Rle_dec _ _));
          repeat split; intros; try lra; auto.
  - unfold smoothHeading. cbv zeta.
    repeat (destruct (Rlt_dec _ _) || destruct (Rle_dec _ _)); lra.
Qed.

(** The boundary crossing of the specification, at the theorem's own
    hypotheses. *)
Lemma smoothHeading_shortest_path_witness :
  0 <= smoothHeading 359 1 (1 / 2) < 360 /\ smoothHeading 359 1 (1 / 2) = 0.
Proof.
  destruct (smoothHeading_shortest_path 359 1 (1 / 2)) as [Hr [_ He]];
    [lra | lra | lra | ].
  split; [exact Hr | exact He].
Defined.

(** *** Angular distance *)

Lemma sin_half_sq (x : R) : (sin (x / 2)) ^ 2 = (1 - cos x) / 2.
Proof.
  replace x with (2 * (x / 2)) at 2 by lra.
  rewrite cos_2a_sin. lra.
Qed.

(** The haversine term is half of one minus the cosine of the angle
    between the two directions. *)
Lemma haversine_dot (lat1 lon1 lat2 lon2 : R) :
  haversine lat1 lon1 lat2 lon2 =
  (1 - (sin lat1 * sin lat2 + cos lat1 * cos lat2 * cos (lon2 - lon1))) / 2.
Proof.
  unfold haversine. cbv zeta. rewrite !sin_half_sq, cos_minus. lra.
Qed.

Lemma haversine_range (lat1 lon1 lat2 lon2 : R) :
  0 <= haversine lat1 lon1 lat2 lon2 <= 1.
Proof.
  rewrite haversine_dot.
  pose proof (sin2_cos2 lat1) as H1. pose proof (sin2_cos2 lat2) as H2.
  unfold Rsqr in H1, H2.
  pose proof (COS_bound (lon2 - lon1)) as [Hk1 Hk2].
  set (s1 := sin lat1) in *. set (s2 := sin lat2) in *.
  set (c1 := cos lat1) in *. set (c2 := cos lat2) in *.
  set (k := cos (lon2 - lon1)) in *.
  pose proof (pow2_ge_0 (s1 - s2)). pose proof (pow2_ge_0 (s1 + s2)).
  pose proof (pow2_ge_0 (c1 - c2)). pose proof (pow2_ge_0 (c1 + c2)).
  assert (Ha : s1 * s2 + c1 * c2 <= 1) by lra.
  assert (Hb : s1 * s2 - c1 * c2 <= 1) by lra.
  assert (Hc : -1 <= s1 * s2 + c1 * c2) by lra.
  assert (Hd : -1 <= s1 * s2 - c1 * c2) by lra.
  split; nra.
Qed.

Lemma asin_nonneg (x : R) : 0 <= x <= 1 -> 0 <= asin x.
Proof.
  intros Hx. pose proof (asin_bound x) as [Hl Hu].
  destruct (Rle_dec 0 (asin x)) as [|Hn]; [assumption|exfalso].
  assert (Hs : sin (asin x) < 0).
  { apply sin_lt_0_var; pose proof PI_RGT_0; lra. }
  rewrite sin_asin in Hs; lra.
Qed.

Lemma clamped_haversine (h : R) :
  0 <= h -> 0 <= Rmin 1 h <= 1 /\ 0 <= sqrt (Rmin 1 h) <= 1.
Proof.
  intros Hh. assert (Hm : 0 <= Rmin 1 h <= 1).
  { unfold Rmin. destruct (Rle_dec 1 h); lra. }
  split; [exact Hm|]. split; [apply sqrt_pos|].
  apply Rle_trans with (sqrt 1); [apply sqrt_le_1_alt; lra|rewrite sqrt_1; lra].
Qed.

(** In exact arithmetic the haversine term [a] of both distance functions
    lies in [0, 1] by itself, so [min(1, a)] never changes it: the square
    root has a value in [0, 1], inside the domain of the inverse sine, and
    the distance returned lies in [0, pi].  What the clamp is there for, a
    term that rounding has moved out of that range, is outside this
    embedding; the clamp bounds the term from above only. *)
Lemma angular_distance_exact (lon1 lat1 lon2 lat2 : R) :
  let a := haversine lat1 lon1 lat2 lon2 in
  0 <= a <= 1 /\
  Rmin 1 a = a /\
  angularDistance lon1 lat1 lon2 lat2 = 2 * asin (sqrt a) /\
  angularDistanceAltAz lat1 lon1 lat2 lon2 = 2 * asin (sqrt a) /\
  sqrt_defined a /\
  asin_defined (sqrt a) /\
  0 <= angularDistance lon1 lat1 lon2 lat2 <= PI /\
  0 <= angularDistanceAltAz lat1 lon1 lat2 lon2 <= PI.
Proof.
  intros a.
  assert (E1 : angularDistance lon1 lat1 lon2 lat2
               = 2 * asin (sqrt (Rmin 1 a))) by reflexivity.
  assert (E2 : angularDistanceAltAz lat1 lon1 lat2 lon2
               = 2 * asin (sqrt (Rmin 1 a))) by reflexivity.
  destruct (haversine_range lat1 lon1 lat2 lon2) as [Ha0 Ha1].
  fold a in Ha0, Ha1.
  assert (Em : Rmin 1 a = a) by (apply Rmin_right; exact Ha1).
  destruct (clamped_haversine a Ha0) as [Hm [Hs0 Hs1]].
  rewrite Em in *.
  pose proof (asin_nonneg _ (conj Hs0 Hs1)) as Hn.
  pose proof (asin_bound (sqrt a)) as [_ Hu].
  unfold sqrt_defined, asin_defined. rewrite E1, E2.
  repeat split; try lra.
Qed.

(** *** Equatorial to horizontal *)

Lemma equatorialToHorizontal_alt (ra dec lst lat : R) :
  fst (equatorialToHorizontal ra dec lst lat)
  = asin (clamp1 (sinAltOf ra dec lst lat)).
Proof.
  unfold equatorialToHorizontal, clamp1, sinAltOf. cbv zeta.
  repeat destruct (Rlt_dec _ _); reflexivity.
Qed.

Lemma equatorialToHorizontal_az (ra dec lst lat : R) :
  snd (equatorialToHorizontal ra dec lst lat) =
  if Rlt_dec (Rabs (cos (asin (clamp1 (sinAltOf ra dec lst lat)))))
             (/ 10000000000)
  then 0
  else if Rlt_dec 0 (sin (lst - ra))
       then TWO_PI - acos (clamp1 (cosAzOf ra dec lst lat))
       else acos (clamp1 (cosAzOf ra dec lst lat)).
Proof.
  unfold equatorialToHorizontal, cosAzOf, sinAltOf, clamp1. cbv zeta.
  repeat destruct (Rlt_dec _ _); reflexivity.
Qed.


(** The celestial pole seen from the equator, six sidereal hours after the
    origin of right ascension: on the horizon, azimuth a full turn. *)
Lemma pole_from_the_equator :
  equatorialToHorizontal 0 (PI / 2) (PI / 2) 0 = (0, 2 * PI).
Proof.
  unfold equatorialToHorizontal. cbv zeta.
  replace (PI / 2 - 0) with (PI / 2) by lra.
  rewrite sin_0, cos_0, sin_PI2, cos_PI2.
  replace (0 * 1 + 1 * 0 * 0) with 0 by lra.
  replace (Rmax (-1) (Rmin 1 0)) with 0
    by (unfold Rmax, Rmin; repeat destruct (Rle_dec _ _); lra).
  rewrite asin_0, cos_0.
  destruct (Rlt_dec (Rabs 1) (/ 10000000000)) as [H|_].
  { rewrite Rabs_R1 in H. lra. }
  replace ((1 - 0 * 0) / (1 * 1)) with 1 by lra.
  replace (Rmax (-1) (Rmin 1 1)) with 1
    by (unfold Rmax, Rmin; repeat destruct (Rle_dec _ _); lra).
  rewrite acos_1.
  destruct (Rlt_dec 0 1) as [_|H]; [|lra].
  unfold TWO_PI. f_equal. lra.
Qed.

(** C10.  For every input the altitude lies in [-pi/2, pi/2] and the
    azimuth in the closed interval [0, 2 pi].  West of the meridian
    (positive sine of the hour angle, away from zenith and nadir) the
    azimuth is 2 pi minus the inverse cosine of the clamped [cosAz], and
    the value 2 pi itself is returned for the input (0, pi/2, pi/2, 0): the
    result is not normalised into [0, 2 pi). *)
Theorem horizontal_ranges (ra dec lst lat : R) :
  let alt := fst (equatorialToHorizontal ra dec lst lat) in
  let az := snd (equatorialToHorizontal ra dec lst lat) in
  - (PI / 2) <= alt <= PI / 2 /\
  0 <= az <= 2 * PI /\
  (~ Rabs (cos alt) < / 10000000000 -> 0 < sin (lst - ra) ->
   az = 2 * PI - acos (clamp1 (cosAzOf ra dec lst lat))) /\
  snd (equatorialToHorizontal 0 (PI / 2) (PI / 2) 0) = 2 * PI.
Proof.
  intros alt az. subst alt az.
  rewrite equatorialToHorizontal_alt, equatorialToHorizontal_az.
  pose proof PI_RGT_0 as Hpi.
  pose proof (acos_bound (clamp1 (cosAzOf ra dec lst lat))) as [Ha0 Ha1].
  split; [apply asin_bound|]. split.
  - unfold TWO_PI. repeat destruct (Rlt_dec _ _); lra.
  - split.
    + intros Hz Hw. unfold TWO_PI.
      repeat destruct (Rlt_dec _ _); try lra; tauto.
    + rewrite pole_from_the_equator. reflexivity.
Qed.

End AstroMathFacts.

(** ** SkyEngine *)
Module SkyEngineFacts.
Import SkyEngine.

Lemma entryOf_fields (star : StarRecord.t) (lstRad lat : R) :
  StarPosition3D.hip (entryOf star lstRad lat) = StarRecord.hip star /\
  StarPosition3D.mag (entryOf star lstRad lat) = StarRecord.mag star /\
  StarPosition3D.bv (entryOf star lstRad lat) = StarRecord.bv star /\
  StarPosition3D.name (entryOf star lstRad lat) = StarRecord.name star.
Proof.
  unfold entryOf, writeStar.
  destruct (AstroMath.equatorialToHorizontal _ _ _ _) as [alt az].
  destruct (AstroMath.horizontalToCartesian _ _ _) as [[x y] z].
  repeat split.
Qed.

Lemma length_fillFrom (stars : list StarRecord.t) :
  forall i lstRad lat buf,
    length (fillFrom i stars lstRad lat buf) = length buf.
Proof.
  induction stars as [|star rest IH]; intros i lstRad lat buf; simpl.
  - reflexivity.
  - rewrite IH. apply length_alter.
Qed.

(** Entries before the running index are left alone. *)
Lemma lookup_fillFrom_before (stars : list StarRecord.t) :
  forall i lstRad lat buf j,
    (j < i)%nat -> fillFrom i stars lstRad lat buf !! j = buf !! j.
Proof.
  induction stars as [|star rest IH]; intros i lstRad lat buf j Hj; simpl.
  - reflexivity.
  - rewrite IH by lia. apply list_lookup_alter_ne. lia.
Qed.

(** In a buffer long enough the loop leaves at index [i + j] the entry of
    the [j]-th star it visits. *)
Lemma lookup_fillFrom (stars : list StarRecord.t) :
  forall i lstRad lat buf j star,
    (i + length stars <= length buf)%nat ->
    stars !! j = Some star ->
    fillFrom i stars lstRad lat buf !! (i + j)%nat
    = Some (entryOf star lstRad lat).
Proof.
  induction stars as [|s0 rest IH]; intros i lstRad lat buf j star Hlen Hj.
  - discriminate.
  - simpl in Hlen. destruct j as [|j]; simpl in *.
    + injection Hj as ->. rewrite Nat.add_0_r.
      rewrite lookup_fillFrom_before by lia.
      rewrite list_lookup_alter_eq.
      destruct (lookup_lt_is_Some_2 buf i) as [sp Hsp]; [lia|].
      rewrite Hsp. reflexivity.
    + replace (i + S j)%nat with (S i + j)%nat by lia.
      apply IH; [rewrite length_alter; lia|assumption].
Qed.

Section Engine.
Variable STARS : list StarRecord.t.

(** One call on an initialised engine. *)
Lemma updateStarPositions_call (now : R) (s : State) :
  initialized s = true ->
  let s' := updateStarPositions STARS now s in
  initialized s' = true /\
  length (starPositions s') = length STARS /\
  (forall i star, STARS !! i = Some star ->
     starPositions s' !! i =
       Some (entryOf star (lstAt now s) (ObserverState.latitude (observer s)))) /\
  (length (starPositions s) = length STARS ->
     starPositionsRef s' = starPositionsRef s /\ heapNext s' = heapNext s).
Proof.
  intros Hinit s'. subst s'. unfold updateStarPositions. rewrite Hinit. simpl.
  destruct (decide (length (starPositions s) <> length STARS)) as [Hne|He];
    simpl.
  - split; [reflexivity|]. split; [|split].
    + rewrite length_fillFrom. apply length_replicate.
    + intros i star Hi.
      apply (lookup_fillFrom STARS 0 _ _ _ i star); [|assumption].
      rewrite length_replicate. lia.
    + intros Hl. contradiction.
  - assert (Hl : length (starPositions s) = length STARS).
    { destruct (decide (length (starPositions s) = length STARS));
        [assumption|contradiction]. }
    split; [reflexivity|]. split; [|split].
    + rewrite length_fillFrom. assumption.
    + intros i star Hi.
      apply (lookup_fillFrom STARS 0 _ _ _ i star); [|assumption]. lia.
    + intros _. split; reflexivity.
Qed.

(** C7.  On an initialised engine, after a call the buffer has the length
    of the catalog and its entry at every index [i] carries the identifier,
    magnitude, colour index and name of catalog entry [i]; after a further
    call, at any later time, the same holds, and the buffer is the same
    array object: it was not allocated again. *)
Theorem updateStarPositions_output (now later : R) (s : State) :
  initialized s = true ->
  let s1 := updateStarPositions STARS now s in
  let s2 := updateStarPositions STARS later s1 in
  (length (starPositions s1) = length STARS /\
   forall i star, STARS !! i = Some star ->
     exists sp, starPositions s1 !! i = Some sp /\
       StarPosition3D.hip sp = StarRecord.hip star /\
       StarPosition3D.mag sp = StarRecord.mag star /\
       StarPosition3D.bv sp = StarRecord.bv star /\
       StarPosition3D.name sp = StarRecord.name star) /\
  (length (starPositions s2) = length STARS /\
   forall i star, STARS !! i = Some star ->
     exists sp, starPositions s2 !! i = Some sp /\
       StarPosition3D.hip sp = StarRecord.hip star /\
       StarPosition3D.mag sp = StarRecord.mag star /\
       StarPosition3D.bv sp = StarRecord.bv star /\
       StarPosition3D.name sp = StarRecord.name star) /\
  starPositionsRef s2 = starPositionsRef s1 /\
  heapNext s2 = heapNext s1.
Proof.
  intros Hinit s1 s2.
  destruct (updateStarPositions_call now s Hinit) as (Hi1 & Hl1 & He1 & _).
  fold s1 in Hi1, Hl1, He1.
  destruct (updateStarPositions_call later s1 Hi1) as (_ & Hl2 & He2 & Hr2).
  fold s2 in Hl2, He2, Hr2.
  split; [|split].
  - split; [exact Hl1|]. intros i star Hi. eexists. split; [apply (He1 i star Hi)|].
    apply entryOf_fields.
  - split; [exact Hl2|]. intros i star Hi. eexists. split; [apply (He2 i star Hi)|].
    apply entryOf_fields.
  - exact (Hr2 Hl1).
Qed.

(** C8.  On an engine that is not initialised a call returns the state it
    was given: observer, buffer and every other field unchanged. *)
Theorem updateStarPositions_uninitialized (now : R) (s : State) :
  initialized s = false -> updateStarPositions STARS now s = s.
Proof.
  intros Hinit. unfold updateStarPositions. rewrite Hinit. reflexivity.
Qed.

End Engine.

(** The two-star catalog, the observer seeded by hand: first call sizes the
    buffer, second call keeps it. *)
Lemma updateStarPositions_output_witness :
  let s := setObserverLocation 0 0 initial in
  let s1 := updateStarPositions Demo.demoStars 0 s in
  let s2 := updateStarPositions Demo.demoStars 1000 s1 in
  initialized s = true /\
  length (starPositions s1) = 2%nat /\
  starPositionsRef s2 = starPositionsRef s1.
Proof.
  intros s s1 s2.
  pose proof (updateStarPositions_output Demo.demoStars 0 1000 s eq_refl) as H.
  cbv zeta in H. destruct H as ((Hl & _) & _ & Hr & _).
  split; [reflexivity|]. split; [exact Hl | exact Hr].
Defined.

(** Before any position fix or fallback the engine is the initial one. *)
Lemma updateStarPositions_uninitialized_witness :
  initialized initial = false /\
  updateStarPositions Demo.demoStars 0 initial = initial.
Proof.
  split; [reflexivity|].
  apply (updateStarPositions_uninitialized Demo.demoStars 0 initial).
  reflexivity.
Defined.

End SkyEngineFacts.

(** ** GazeAndHandController *)
Module GazeFacts.
Import GazeAndHandController.

(** *** The loop over the centroids *)

Lemma closestLoop_step obs gazeAlt gazeAz c rest abbr dist :
  closestLoop obs gazeAlt gazeAz (c :: rest) abbr dist =
  if Rlt_dec (fst (centroidAltAz obs c)) 0
  then closestLoop obs gazeAlt gazeAz rest abbr dist
  else if Rlt_dec (centroidDistance obs gazeAlt gazeAz c) dist
       then closestLoop obs gazeAlt gazeAz rest (ConstellationRecord.abbr c)
              (centroidDistance obs gazeAlt gazeAz c)
       else closestLoop obs gazeAlt gazeAz rest abbr dist.
Proof.
  unfold centroidDistance, centroidAltAz. simpl.
  destruct (AstroMath.equatorialToHorizontal _ _ _ _) as [cAlt cAz].
  reflexivity.
Qed.

(** When no centroid above the horizon is nearer than the running
    distance, the loop returns what it was started with. *)
Lemma closestLoop_none obs gazeAlt gazeAz cs : forall abbr dist,
  (forall c, In c cs -> 0 <= fst (centroidAltAz obs c) ->
             dist <= centroidDistance obs gazeAlt gazeAz c) ->
  closestLoop obs gazeAlt gazeAz cs abbr dist = (abbr, dist).
Proof.
  induction cs as [|c rest IH]; intros abbr dist Hfar.
  - reflexivity.
  - rewrite closestLoop_step.
    assert (Hrest : closestLoop obs gazeAlt gazeAz rest abbr dist
                    = (abbr, dist)).
    { apply IH. intros c' Hin. apply Hfar. right. exact Hin. }
    destruct (Rlt_dec (fst (centroidAltAz obs c)) 0) as [Hbelow|Habove];
      [exact Hrest|].
    destruct (Rlt_dec (centroidDistance obs gazeAlt gazeAz c) dist)
      as [Hnear|_]; [|exact Hrest].
    exfalso. specialize (Hfar c (or_introl eq_refl)). lra.
Qed.

(** *** One tick *)

Lemma updateHighlight_empty dt w :
  updateHighlight EmptyString dt w = clearGaze w.
Proof.
  unfold updateHighlight, clearGaze.
  destruct (decide (EmptyString <> currentGazeConstellation w)) as [Hne|He].
  - destruct (decide (EmptyString = EmptyString)); [|contradiction].
    reflexivity.
  - destruct (decide (EmptyString <> EmptyString)); [contradiction|].
    destruct (decide (currentGazeConstellation w <> EmptyString)) as [Hc|Hc];
      [|reflexivity].
    exfalso. apply He. intros E. apply Hc. symmetry. exact E.
Qed.

(** [updateGaze] is the highlight update applied to the tick's candidate. *)
Lemma updateGaze_tickCandidate cs f dt w :
  updateGaze cs f dt w =
  match tickCandidate cs f w with
  | None => w
  | Some c => updateHighlight c dt w
  end.
Proof.
  unfold updateGaze, tickCandidate, SkyEngine.getObserver.
  destruct (negb (camera w) || negb (SkyEngine.isInitialized (engine w)));
    [reflexivity|]. cbv zeta.
  destruct (Rlt_dec _ _); [reflexivity|].
  destruct (gazeAltAz _) as [gazeAlt gazeAz]. simpl fst. simpl snd.
  destruct (Rlt_dec gazeAlt _); [symmetry; apply updateHighlight_empty|].
  destruct (closestLoop _ _ _ _ _ _) as [abbr dist]. reflexivity.
Qed.

Lemma updateHighlight_frame c dt w :
  engine (updateHighlight c dt w) = engine w /\
  camera (updateHighlight c dt w) = camera w /\
  onConstellationDeselected (updateHighlight c dt w)
  = onConstellationDeselected w.
Proof.
  unfold updateHighlight, clearGaze.
  repeat (destruct (decide _) || destruct (Rle_dec _ _)); simpl; auto.
Qed.

Lemma updateGaze_frame cs f dt w :
  engine (updateGaze cs f dt w) = engine w /\
  camera (updateGaze cs f dt w) = camera w /\
  onConstellationDeselected (updateGaze cs f dt w)
  = onConstellationDeselected w.
Proof.
  rewrite updateGaze_tickCandidate.
  destruct (tickCandidate cs f w); [apply updateHighlight_frame|auto].
Qed.

(** The candidate depends on the engine and the camera only. *)
Lemma tickCandidate_frame cs f w w' :
  engine w' = engine w -> camera w' = camera w ->
  tickCandidate cs f w' = tickCandidate cs f w.
Proof. intros He Hc. unfold tickCandidate. rewrite He, Hc. reflexivity. Qed.

Lemma clearGaze_matched w :
  currentGazeConstellation w <> EmptyString ->
  clearGaze w =
  mkWorld (engine w) (SkyRenderer.mkState EmptyString) (camera w)
    (onConstellationSelected w) (onConstellationDeselected w) EmptyString 0
    (if onConstellationDeselected w
     then Deselected :: SetHighlighted EmptyString :: trace w
     else SetHighlighted EmptyString :: trace w).
Proof.
  intros Hc. unfold clearGaze.
  destruct (decide (currentGazeConstellation w <> EmptyString));
    [reflexivity|contradiction].
Qed.

Lemma clearGaze_idle w :
  currentGazeConstellation w = EmptyString -> clearGaze w = w.
Proof.
  intros Hc. unfold clearGaze.
  destruct (decide (currentGazeConstellation w <> EmptyString));
    [contradiction|reflexivity].
Qed.

Lemma updateHighlight_enter A dt w :
  A <> currentGazeConstellation w -> A <> EmptyString ->
  updateHighlight A dt w =
  mkWorld (engine w) (renderer w) (camera w) (onConstellationSelected w)
          (onConstellationDeselected w) A 0 (trace w).
Proof.
  intros Hne HA. unfold updateHighlight.
  destruct (decide (A <> currentGazeConstellation w)); [|contradiction].
  destruct (decide (A = EmptyString)); [contradiction|reflexivity].
Qed.

Lemma updateHighlight_hold A dt w :
  currentGazeConstellation w = A -> A <> EmptyString ->
  updateHighlight A dt w =
  if Rle_dec GAZE_HOLD_DELAY (gazeHoldTime w + dt) then
    mkWorld (engine w) (SkyRenderer.mkState A) (camera w)
            (onConstellationSelected w) (onConstellationDeselected w)
            A (gazeHoldTime w + dt) (SetHighlighted A :: trace w)
  else
    mkWorld (engine w) (renderer w) (camera w) (onConstellationSelected w)
            (onConstellationDeselected w) A (gazeHoldTime w + dt) (trace w).
Proof.
  intros Hc HA. unfold updateHighlight. rewrite Hc.
  destruct (decide (A <> A)); [contradiction|].
  destruct (decide (A <> EmptyString)); [|contradiction].
  reflexivity.
Qed.

(** *** Runs of ticks *)

Lemma replicate_middle {A} (n : nat) (x : A) (l : list A) :
  replicate n x ++ x :: l = x :: replicate n x ++ l.
Proof.
  induction n as [|n IH]; simpl; [reflexivity|]. rewrite IH. reflexivity.
Qed.

Lemma runTicks_cons cs t ticks w :
  runTicks cs (t :: ticks) w
  = runTicks cs ticks (updateGaze cs (fst t) (snd t) w).
Proof. reflexivity. Qed.

(** Ticks that all select the region already matched: the hold time grows
    by their elapsed times and the highlight setter is called at each tick
    whose accumulated hold time has reached the delay. *)
Lemma runTicks_held cs A : forall held w,
  currentGazeConstellation w = A -> A <> EmptyString ->
  (forall t, In t held -> tickCandidate cs (fst t) w = Some A) ->
  let w' := runTicks cs held w in
  let n := holdFirings (gazeHoldTime w) (map snd held) in
  engine w' = engine w /\ camera w' = camera w /\
  onConstellationDeselected w' = onConstellationDeselected w /\
  currentGazeConstellation w' = A /\
  gazeHoldTime w' = gazeHoldTime w + sumR (map snd held) /\
  trace w' = replicate n (SetHighlighted A) ++ trace w /\
  renderer w' =
    (if decide (n = 0%nat) then renderer w else SkyRenderer.mkState A).
Proof.
  induction held as [|[f dt] rest IH]; intros w Hc HA Hall; cbv zeta.
  - simpl. rewrite Rplus_0_r. repeat split; auto.
  - rewrite runTicks_cons. simpl fst. simpl snd.
    assert (Hstep : updateGaze cs f dt w = updateHighlight A dt w).
    { rewrite updateGaze_tickCandidate.
      pose proof (Hall (f, dt) (or_introl eq_refl)) as H0. simpl in H0.
      rewrite H0. reflexivity. }
    rewrite Hstep, (updateHighlight_hold A dt w Hc HA).
    simpl map. simpl holdFirings. simpl sumR.
    destruct (Rle_dec GAZE_HOLD_DELAY (gazeHoldTime w + dt)) as [Hfire|Hwait].
    + match goal with |- context [runTicks cs rest ?w1] =>
        specialize (IH w1 eq_refl HA) end.
      cbv zeta in IH. simpl in IH.
      destruct IH as (He & Hcam & Hcb & Hcur & Hhold & Htr & Hr).
      { intros t Hin. rewrite <- (Hall t (or_intror Hin)).
        apply tickCandidate_frame; reflexivity. }
      repeat split; auto.
      * rewrite Hhold. fold (sumR (map snd rest)). lra.
      * rewrite Htr. apply replicate_middle.
      * rewrite Hr. simpl.
        destruct (decide (holdFirings (gazeHoldTime w + dt) (map snd rest)
                          = 0%nat)); reflexivity.
    + match goal with |- context [runTicks cs rest ?w1] =>
        specialize (IH w1 eq_refl HA) end.
      cbv zeta in IH. simpl in IH.
      destruct IH as (He & Hcam & Hcb & Hcur & Hhold & Htr & Hr).
      { intros t Hin. rewrite <- (Hall t (or_intror Hin)).
        apply tickCandidate_frame; reflexivity. }
      repeat split; auto.
      rewrite Hhold. fold (sumR (map snd rest)). lra.
Qed.

Lemma sumR_nonneg (dts : list R) :
  (forall dt, In dt dts -> 0 <= dt) -> 0 <= sumR dts.
Proof.
  induction dts as [|dt rest IH]; intros Hall; simpl; [lra|].
  specialize (IH (fun d Hd => Hall d (or_intror Hd))).
  specialize (Hall dt (or_introl eq_refl)). fold (sumR rest). lra.
Qed.

(** The last tick of a run that reaches the delay fires. *)
Lemma holdFirings_reached (dts : list R) : forall hold,
  dts <> [] -> GAZE_HOLD_DELAY <= hold + sumR dts ->
  (1 <= holdFirings hold dts)%nat.
Proof.
  induction dts as [|dt rest IH]; intros hold Hne Hsum; [contradiction|].
  simpl in *. fold (sumR rest) in Hsum.
  destruct rest as [|dt' rest'].
  - simpl in Hsum. destruct (Rle_dec _ _); [lia|lra].
  - assert (1 <= holdFirings (hold + dt) (dt' :: rest'))%nat.
    { apply IH; [discriminate|lra]. }
    lia.
Qed.

(** With elapsed times that are not negative, nothing fires before the
    delay is reached. *)
Lemma holdFirings_short (dts : list R) : forall hold,
  (forall dt, In dt dts -> 0 <= dt) ->
  hold + sumR dts < GAZE_HOLD_DELAY ->
  holdFirings hold dts = 0%nat.
Proof.
  induction dts as [|dt rest IH]; intros hold Hall Hsum; [reflexivity|].
  simpl in *. fold (sumR rest) in Hsum.
  pose proof (sumR_nonneg rest (fun d Hd => Hall d (or_intror Hd))) as Hr.
  destruct (Rle_dec _ _) as [Hfire|_]; [lra|].
  rewrite IH; [reflexivity| |lra].
  intros d Hd. apply Hall. right. exact Hd.
Qed.

(** A match episode: a tick that selects a region not matched before,
    then ticks that keep selecting it. *)
Lemma runTicks_episode cs A w0 f0 dt0 held :
  A <> EmptyString -> currentGazeConstellation w0 <> A ->
  tickCandidate cs f0 w0 = Some A ->
  (forall t, In t held -> tickCandidate cs (fst t) w0 = Some A) ->
  let w1 := updateGaze cs f0 dt0 w0 in
  let w2 := runTicks cs held w1 in
  let n := holdFirings 0 (map snd held) in
  w1 = mkWorld (engine w0) (renderer w0) (camera w0)
         (onConstellationSelected w0) (onConstellationDeselected w0)
         A 0 (trace w0) /\
  engine w2 = engine w0 /\ camera w2 = camera w0 /\
  currentGazeConstellation w2 = A /\
  gazeHoldTime w2 = sumR (map snd held) /\
  trace w2 = replicate n (SetHighlighted A) ++ trace w0 /\
  renderer w2 =
    (if decide (n = 0%nat) then renderer w0 else SkyRenderer.mkState A).
Proof.
  intros HA Hcur Hf0 Hheld w1 w2 n.
  assert (E1 : w1 = mkWorld (engine w0) (renderer w0) (camera w0)
                      (onConstellationSelected w0)
                      (onConstellationDeselected w0) A 0 (trace w0)).
  { subst w1. rewrite updateGaze_tickCandidate, Hf0.
    apply updateHighlight_enter; [|exact HA].
    intros E. apply Hcur. symmetry. exact E. }
  split; [exact E1|].
  assert (Hall1 : forall t, In t held -> tickCandidate cs (fst t) w1 = Some A).
  { intros t Hin. rewrite <- (Hheld t Hin).
    apply tickCandidate_frame; rewrite E1; reflexivity. }
  assert (Hc1 : currentGazeConstellation w1 = A) by (rewrite E1; reflexivity).
  destruct (runTicks_held cs A held w1 Hc1 HA Hall1)
    as (He & Hcam & _ & Hc2 & Hh & Htr & Hr).
  assert (Hh1 : gazeHoldTime w1 = 0) by (rewrite E1; reflexivity).
  rewrite Hh1 in Hh, Htr, Hr. fold w2 in He, Hcam, Hc2, Hh, Htr, Hr.
  fold n in Htr, Hr.
  assert (Ee : engine w1 = engine w0) by (rewrite E1; reflexivity).
  assert (Ec : camera w1 = camera w0) by (rewrite E1; reflexivity).
  assert (Et : trace w1 = trace w0) by (rewrite E1; reflexivity).
  assert (Er : renderer w1 = renderer w0) by (rewrite E1; reflexivity).
  rewrite Ee in He. rewrite Ec in Hcam. rewrite Et in Htr. rewrite Er in Hr.
  repeat split; try assumption. rewrite Hh. lra.
Qed.

(** *** The small sky, evaluated *)
Section DemoSky.
Import Demo.

Lemma demoObs_eq : demoObs = ObserverState.mk 0 0 0 0 0.
Proof.
  unfold demoObs, demoEngine, SkyEngine.setObserverLocation. simpl.
  f_equal; lra.
Qed.

Lemma Rmin_1_half : Rmin 1 (1 / 2) = 1 / 2.
Proof. unfold Rmin. destruct (Rle_dec _ _); lra. Qed.

Lemma Rmin_1_0 : Rmin 1 0 = 0.
Proof. unfold Rmin. destruct (Rle_dec _ _); lra. Qed.

Lemma asin_sqrt_half : asin (sqrt (1 / 2)) = PI / 4.
Proof.
  replace (1 / 2) with (/ 2) by lra. rewrite sqrt_inv. apply asin_inv_sqrt2.
Qed.

Lemma distance_of_dot (alt1 az1 alt2 az2 : R) :
  AstroMath.angularDistanceAltAz alt1 az1 alt2 az2 =
  2 * asin (sqrt (Rmin 1
    ((1 - (sin alt1 * sin alt2 + cos alt1 * cos alt2 * cos (az2 - az1))) / 2))).
Proof.
  rewrite <- AstroMathFacts.haversine_dot. reflexivity.
Qed.

Lemma distance_zero (alt az : R) :
  AstroMath.angularDistanceAltAz alt az alt az = 0.
Proof.
  unfold AstroMath.angularDistanceAltAz. cbv zeta.
  replace ((alt - alt) / 2) with 0 by lra. replace ((az - az) / 2) with 0 by lra.
  rewrite sin_0. replace (0 ^ 2 + cos alt * cos alt * 0 ^ 2) with 0 by lra.
  rewrite Rmin_1_0, sqrt_0, asin_0. lra.
Qed.

Lemma distance_quarter (alt1 az1 alt2 az2 : R) :
  sin alt1 * sin alt2 + cos alt1 * cos alt2 * cos (az2 - az1) = 0 ->
  AstroMath.angularDistanceAltAz alt1 az1 alt2 az2 = PI / 2.
Proof.
  intros H. rewrite distance_of_dot, H.
  replace ((1 - 0) / 2) with (1 / 2) by lra.
  rewrite Rmin_1_half, asin_sqrt_half. lra.
Qed.

Lemma centroid_UMi : centroidAltAz demoObs UMi = (0, 0).
Proof.
  rewrite demoObs_eq. unfold centroidAltAz, UMi. simpl.
  unfold AstroMath.equatorialToHorizontal. cbv zeta.
  replace (0 - 0) with 0 by lra.
  rewrite sin_0, cos_0, sin_PI2, cos_PI2.
  replace (0 * 1 + 1 * 0 * 1) with 0 by lra.
  replace (Rmax (-1) (Rmin 1 0)) with 0
    by (unfold Rmax, Rmin; repeat destruct (Rle_dec _ _); lra).
  rewrite asin_0, cos_0, Rabs_R1.
  destruct (Rlt_dec 1 (/ 10000000000)) as [H|_]; [lra|].
  replace ((1 - 0 * 0) / (1 * 1)) with 1 by lra.
  replace (Rmax (-1) (Rmin 1 1)) with 1
    by (unfold Rmax, Rmin; repeat destruct (Rle_dec _ _); lra).
  rewrite acos_1.
  destruct (Rlt_dec 0 0) as [H|_]; [lra|reflexivity].
Qed.

Lemma centroid_Ori : centroidAltAz demoObs Ori = (0, PI / 2).
Proof.
  rewrite demoObs_eq. unfold centroidAltAz, Ori. simpl.
  unfold AstroMath.equatorialToHorizontal. cbv zeta.
  replace (0 - PI / 2) with (- (PI / 2)) by lra.
  rewrite cos_neg, sin_neg, sin_0, cos_0, sin_PI2, cos_PI2.
  replace (0 * 0 + 1 * 1 * 0) with 0 by lra.
  replace (Rmax (-1) (Rmin 1 0)) with 0
    by (unfold Rmax, Rmin; repeat destruct (Rle_dec _ _); lra).
  rewrite asin_0, cos_0, Rabs_R1.
  destruct (Rlt_dec 1 (/ 10000000000)) as [H|_]; [lra|].
  replace ((0 - 0 * 0) / (1 * 1)) with 0 by lra.
  replace (Rmax (-1) (Rmin 1 0)) with 0
    by (unfold Rmax, Rmin; repeat destruct (Rle_dec _ _); lra).
  rewrite acos_0.
  destruct (Rlt_dec 0 _) as [H|_]; [lra|reflexivity].
Qed.

Lemma skyDirection_heading0 (f : R * R * R) : skyDirection 0 f = f.
Proof.
  destruct f as [[fx fy] fz]. unfold skyDirection.
  replace (- (0 * (PI / 180))) with 0 by lra. rewrite cos_0, sin_0.
  repeat f_equal; lra.
Qed.

Lemma skyLength_unit (f : R * R * R) :
  (let '(x, y, z) := f in x * x + y * y + z * z) = 1 -> skyLength f = 1.
Proof.
  destruct f as [[x y] z]. intros H. unfold skyLength. rewrite H. apply sqrt_1.
Qed.

Lemma gaze_north : gazeAltAz lookNorth = (0, 0).
Proof.
  unfold gazeAltAz, lookNorth.
  rewrite (skyLength_unit (0, 0, -1)) by lra.
  replace (0 / 1) with 0 by lra. rewrite asin_0.
  unfold Math_atan2. replace (- -1) with 1 by lra.
  destruct (Rlt_dec 0 1) as [_|H]; [|lra].
  replace (0 / 1) with 0 by lra. rewrite atan_0.
  destruct (Rlt_dec 0 0) as [H|_]; [lra|reflexivity].
Qed.

Lemma gaze_east : gazeAltAz lookEast = (0, PI / 2).
Proof.
  unfold gazeAltAz, lookEast.
  rewrite (skyLength_unit (1, 0, 0)) by lra.
  replace (0 / 1) with 0 by lra. rewrite asin_0.
  unfold Math_atan2. rewrite Ropp_0.
  destruct (Rlt_dec 0 0) as [H|_]; [lra|].
  destruct (Rlt_dec 0 1) as [_|H]; [|lra].
  pose proof PI_RGT_0.
  destruct (Rlt_dec (PI / 2) 0) as [H0|_]; [lra|reflexivity].
Qed.

Lemma gaze_up : gazeAltAz lookUp = (PI / 2, 0).
Proof.
  unfold gazeAltAz, lookUp.
  rewrite (skyLength_unit (0, 1, 0)) by lra.
  replace (1 / 1) with 1 by lra. rewrite asin_1.
  unfold Math_atan2. rewrite Ropp_0.
  repeat (destruct (Rlt_dec 0 0) as [H|_]; [lra|]). reflexivity.
Qed.

Lemma tickCandidate_demo (f : R * R * R) (gazeAlt gazeAz : R) (w : World) :
  engine w = demoEngine -> camera w = true ->
  skyLength f = 1 -> gazeAltAz f = (gazeAlt, gazeAz) -> 0 <= gazeAlt ->
  tickCandidate demoSky f w =
  Some (fst (closestLoop demoObs gazeAlt gazeAz demoSky EmptyString
               GAZE_THRESHOLD_RAD)).
Proof.
  intros He Hc Hlen Hg Halt. unfold tickCandidate. rewrite He, Hc.
  change (SkyEngine.isInitialized demoEngine) with true.
  change (SkyEngine.getObserver demoEngine) with demoObs.
  simpl negb. simpl orb. cbv zeta.
  replace (ObserverState.headingDeg demoObs) with 0
    by (rewrite demoObs_eq; reflexivity).
  rewrite skyDirection_heading0, Hlen, Hg. simpl fst. simpl snd.
  destruct (Rlt_dec 1 (1 / 1000)) as [H|_]; [lra|].
  pose proof PI_RGT_0.
  destruct (Rlt_dec gazeAlt (-5 * (PI / 180))) as [H0|_]; [lra|reflexivity].
Qed.

Lemma closest_two (gazeAlt gazeAz : R) :
  closestLoop demoObs gazeAlt gazeAz demoSky EmptyString GAZE_THRESHOLD_RAD =
  let dU := AstroMath.angularDistanceAltAz gazeAlt gazeAz 0 0 in
  let dO := AstroMath.angularDistanceAltAz gazeAlt gazeAz 0 (PI / 2) in
  if Rlt_dec dU GAZE_THRESHOLD_RAD
  then (if Rlt_dec dO dU then ("Ori", dO) else ("UMi", dU))
  else (if Rlt_dec dO GAZE_THRESHOLD_RAD then ("Ori", dO)
        else (EmptyString, GAZE_THRESHOLD_RAD)).
Proof.
  unfold demoSky. rewrite !closestLoop_step.
  unfold centroidDistance. rewrite centroid_UMi, centroid_Ori.
  cbn [fst snd closestLoop ConstellationRecord.abbr UMi Ori]. cbv zeta.
  destruct (Rlt_dec 0 0) as [H|_]; [lra|].
  repeat destruct (Rlt_dec _ _); reflexivity.
Qed.

Lemma candidate_north (w : World) :
  engine w = demoEngine -> camera w = true ->
  tickCandidate demoSky lookNorth w = Some "UMi".
Proof.
  intros He Hc.
  rewrite (tickCandidate_demo lookNorth 0 0 w He Hc);
    [|apply (skyLength_unit (0, 0, -1)); lra|apply gaze_north|lra].
  rewrite closest_two. cbv zeta. rewrite distance_zero.
  rewrite (distance_quarter 0 0 0 (PI / 2))
    by (replace (PI / 2 - 0) with (PI / 2) by lra;
        rewrite sin_0, cos_PI2; lra).
  unfold GAZE_THRESHOLD_RAD. pose proof PI_RGT_0.
  destruct (Rlt_dec 0 _) as [_|H0]; [|lra].
  destruct (Rlt_dec (PI / 2) 0) as [H0|_]; [lra|reflexivity].
Qed.

Lemma candidate_east (w : World) :
  engine w = demoEngine -> camera w = true ->
  tickCandidate demoSky lookEast w = Some "Ori".
Proof.
  intros He Hc.
  rewrite (tickCandidate_demo lookEast 0 (PI / 2) w He Hc);
    [|apply (skyLength_unit (1, 0, 0)); lra|apply gaze_east|lra].
  rewrite closest_two. cbv zeta. rewrite distance_zero.
  rewrite (distance_quarter 0 (PI / 2) 0 0)
    by (replace (0 - PI / 2) with (- (PI / 2)) by lra;
        rewrite cos_neg, sin_0, cos_PI2; lra).
  unfold GAZE_THRESHOLD_RAD. pose proof PI_RGT_0.
  destruct (Rlt_dec (PI / 2) _) as [H0|_]; [lra|].
  destruct (Rlt_dec 0 _) as [_|H0]; [reflexivity|lra].
Qed.

Lemma candidate_up (w : World) :
  engine w = demoEngine -> camera w = true ->
  tickCandidate demoSky lookUp w = Some EmptyString.
Proof.
  intros He Hc. pose proof PI_RGT_0.
  rewrite (tickCandidate_demo lookUp (PI / 2) 0 w He Hc);
    [|apply (skyLength_unit (0, 1, 0)); lra|apply gaze_up|lra].
  rewrite closest_two. cbv zeta.
  rewrite (distance_quarter (PI / 2) 0 0 0)
    by (rewrite sin_0, cos_PI2; lra).
  rewrite (distance_quarter (PI / 2) 0 0 (PI / 2))
    by (rewrite sin_0, cos_PI2; lra).
  unfold GAZE_THRESHOLD_RAD.
  repeat (destruct (Rlt_dec (PI / 2) _) as [H0|_]; [lra|]). reflexivity.
Qed.

Lemma cos_degree : 9 / 10 < cos (PI / 180).
Proof.
  pose proof PI_RGT_0 as Hpi. pose proof PI_4 as H4.
  assert (Hs : sin (PI / 180) < PI / 180) by (apply sin_lt_x; lra).
  assert (Hs0 : 0 <= sin (PI / 180)) by (apply sin_ge_0; lra).
  assert (Hc : 0 < cos (PI / 180)) by (apply cos_gt_0; lra).
  pose proof (sin2_cos2 (PI / 180)) as H. unfold Rsqr in H.
  nra.
Qed.

Lemma centroid_Cep : centroidAltAz demoObs Cep = (- (PI / 180), 0).
Proof.
  pose proof PI_RGT_0 as Hpi. pose proof cos_degree as Hcd.
  rewrite demoObs_eq. unfold centroidAltAz, Cep. simpl.
  unfold AstroMath.equatorialToHorizontal. cbv zeta.
  replace (0 - PI) with (- PI) by lra.
  rewrite cos_neg, sin_neg, cos_PI, sin_PI, sin_0, cos_0, sin_shift, cos_shift.
  replace (0 * cos (PI / 180) + 1 * sin (PI / 180) * -1)
    with (- sin (PI / 180)) by lra.
  pose proof (SIN_bound (PI / 180)) as [Hs1 Hs2].
  fold (AstroMath.clamp1 (- sin (PI / 180))).
  rewrite AstroMathFacts.clamp1_id by lra.
  rewrite asin_opp, asin_sin by lra.
  rewrite cos_neg.
  destruct (Rlt_dec (Rabs (cos (PI / 180))) (/ 10000000000)) as [Hz|_].
  { rewrite Rabs_pos_eq in Hz by lra. lra. }
  replace ((cos (PI / 180) - 0 * - sin (PI / 180)) / (1 * cos (PI / 180)))
    with 1 by (field; lra).
  fold (AstroMath.clamp1 1). rewrite AstroMathFacts.clamp1_id by lra. rewrite acos_1.
  destruct (Rlt_dec 0 (- 0)) as [Hx|_]; [lra|reflexivity].
Qed.

Lemma distance_north_Cep :
  centroidDistance demoObs 0 0 Cep = PI / 180.
Proof.
  pose proof PI_RGT_0 as Hpi.
  unfold centroidDistance. rewrite centroid_Cep. simpl fst. simpl snd.
  unfold AstroMath.angularDistanceAltAz. cbv zeta.
  replace ((0 - 0) / 2) with 0 by lra. rewrite sin_0.
  replace ((- (PI / 180) - 0) / 2) with (- (PI / 360)) by lra.
  rewrite sin_neg.
  replace ((- sin (PI / 360)) ^ 2 + cos 0 * cos (- (PI / 180)) * 0 ^ 2)
    with ((sin (PI / 360)) ^ 2) by lra.
  assert (Hs0 : 0 <= sin (PI / 360)) by (apply sin_ge_0; lra).
  pose proof (SIN_bound (PI / 360)) as [_ Hs1].
  replace (Rmin 1 (sin (PI / 360) ^ 2)) with (sin (PI / 360) ^ 2)
    by (unfold Rmin; destruct (Rle_dec _ _); nra).
  rewrite sqrt_pow2 by exact Hs0. rewrite asin_sin by lra. lra.
Qed.

End DemoSky.

(** *** No candidate *)

(** C2.  On a tick that gets as far as looking (camera set, engine
    initialised, direction not degenerate) there is no candidate when the
    gaze altitude is below -5 degrees, whatever the distances, and when
    every centroid at or above the horizon is farther from the gaze than
    the 8 degree threshold, whatever lies below the horizon: the loop then
    ends with the empty abbreviation, and the tick as a whole is
    [clearGaze]. *)
Theorem no_candidate cs f dt w :
  camera w = true -> SkyEngine.initialized (engine w) = true ->
  let obs := SkyEngine.observer (engine w) in
  let sky := skyDirection (ObserverState.headingDeg obs) f in
  let gazeAlt := fst (gazeAltAz sky) in
  let gazeAz := snd (gazeAltAz sky) in
  ~ skyLength sky < 1 / 1000 ->
  (gazeAlt < -5 * (PI / 180) \/
   (forall c, In c cs ->
      0 <= fst (centroidAltAz obs c) ->
      GAZE_THRESHOLD_RAD < centroidDistance obs gazeAlt gazeAz c)) ->
  tickCandidate cs f w = Some EmptyString /\
  updateGaze cs f dt w = clearGaze w /\
  (~ gazeAlt < -5 * (PI / 180) ->
   fst (closestLoop obs gazeAlt gazeAz cs EmptyString GAZE_THRESHOLD_RAD)
   = EmptyString).
Proof.
  intros Hcam Hinit obs sky gazeAlt gazeAz Hlen Hno.
  assert (Hcand : tickCandidate cs f w = Some EmptyString).
  { unfold tickCandidate, SkyEngine.isInitialized, SkyEngine.getObserver.
    rewrite Hcam, Hinit. simpl negb. simpl orb. cbv zeta.
    fold obs. fold sky. fold gazeAlt. fold gazeAz.
    destruct (Rlt_dec (skyLength sky) (1 / 1000)); [contradiction|].
    destruct (Rlt_dec gazeAlt (-5 * (PI / 180))) as [|Hup]; [reflexivity|].
    destruct Hno as [Hlow|Hfar]; [contradiction|].
    rewrite closestLoop_none; [reflexivity|].
    intros c Hin Habove. specialize (Hfar c Hin Habove). lra. }
  split; [exact Hcand|]. split.
  - rewrite updateGaze_tickCandidate, Hcand. apply updateHighlight_empty.
  - intros Hup. destruct Hno as [Hlow|Hfar]; [contradiction|].
    rewrite closestLoop_none; [reflexivity|].
    intros c Hin Habove. specialize (Hfar c Hin Habove). lra.
Qed.

(** Looking at the north point of the horizon with one centroid a degree
    below it and one a quarter turn away in the east: the nearest centroid
    is well inside the threshold but under the horizon, and there is no
    candidate. *)
Lemma no_candidate_witness :
  fst (centroidAltAz Demo.demoObs Demo.Cep) < 0 /\
  centroidDistance Demo.demoObs 0 0 Demo.Cep < GAZE_THRESHOLD_RAD /\
  tickCandidate Demo.sunkenSky Demo.lookNorth Demo.demoWorld
  = Some EmptyString /\
  updateGaze Demo.sunkenSky Demo.lookNorth (1 / 60) Demo.demoWorld
  = clearGaze Demo.demoWorld.
Proof.
  pose proof PI_RGT_0 as Hpi.
  split; [rewrite centroid_Cep; simpl; lra|].
  split; [rewrite distance_north_Cep; unfold GAZE_THRESHOLD_RAD; lra|].
  destruct (no_candidate Demo.sunkenSky Demo.lookNorth (1 / 60) Demo.demoWorld)
    as (Hc & Hu & _).
  - reflexivity.
  - reflexivity.
  - cbv zeta.
    change (SkyEngine.observer (engine Demo.demoWorld)) with Demo.demoObs.
    replace (ObserverState.headingDeg Demo.demoObs) with 0
      by (rewrite demoObs_eq; reflexivity).
    rewrite skyDirection_heading0. unfold Demo.lookNorth.
    rewrite (skyLength_unit (0, 0, -1)) by lra. lra.
  - right. cbv zeta.
    change (SkyEngine.observer (engine Demo.demoWorld)) with Demo.demoObs.
    replace (ObserverState.headingDeg Demo.demoObs) with 0
      by (rewrite demoObs_eq; reflexivity).
    rewrite skyDirection_heading0, gaze_north. simpl fst. simpl snd.
    intros c [<-|[<-|[]]] Habove.
    + rewrite centroid_Cep in Habove. simpl in Habove. lra.
    + unfold GAZE_THRESHOLD_RAD, centroidDistance.
      rewrite centroid_Ori. simpl fst. simpl snd.
      rewrite (distance_quarter 0 0 0 (PI / 2))
        by (replace (PI / 2 - 0) with (PI / 2) by lra;
            rewrite sin_0, cos_PI2; lra). lra.
  - split; [exact Hc | exact Hu].
Defined.

(** *** Deselection *)

Lemma runTicks_idle cs : forall ticks w,
  currentGazeConstellation w = EmptyString ->
  (forall t, In t ticks -> tickCandidate cs (fst t) w = Some EmptyString) ->
  runTicks cs ticks w = w.
Proof.
  induction ticks as [|[f dt] rest IH]; intros w Hc Hall; [reflexivity|].
  rewrite runTicks_cons. simpl fst. simpl snd.
  assert (Hstep : updateGaze cs f dt w = w).
  { rewrite updateGaze_tickCandidate.
    pose proof (Hall (f, dt) (or_introl eq_refl)) as H0. simpl in H0.
    rewrite H0, updateHighlight_empty. apply clearGaze_idle. exact Hc. }
  rewrite Hstep. apply IH; [exact Hc|].
  intros t Hin. apply Hall. right. exact Hin.
Qed.

(** C3.  When a region is matched and a tick finds no candidate, the
    matched code becomes empty, the hold time zero and the highlight empty,
    and the deselect callback (registered by [init]) is called once: the
    tick adds to the trace one highlight reset and one deselect.  Any
    further ticks without candidate leave the state, trace included, as it
    is. *)
Theorem deselect_once cs f dt w :
  currentGazeConstellation w <> EmptyString ->
  onConstellationDeselected w = true ->
  tickCandidate cs f w = Some EmptyString ->
  let w1 := updateGaze cs f dt w in
  currentGazeConstellation w1 = EmptyString /\
  gazeHoldTime w1 = 0 /\
  highlighted w1 = EmptyString /\
  trace w1 = Deselected :: SetHighlighted EmptyString :: trace w /\
  (forall later,
     (forall t, In t later -> tickCandidate cs (fst t) w1 = Some EmptyString) ->
     runTicks cs later w1 = w1).
Proof.
  intros Hc Hcb Hcand w1.
  assert (E1 : w1 = mkWorld (engine w) (SkyRenderer.mkState EmptyString)
                      (camera w) (onConstellationSelected w) true EmptyString 0
                      (Deselected :: SetHighlighted EmptyString :: trace w)).
  { subst w1. rewrite updateGaze_tickCandidate, Hcand, updateHighlight_empty.
    rewrite (clearGaze_matched w Hc), Hcb. reflexivity. }
  rewrite E1. repeat split.
  intros later Hall. apply runTicks_idle; [reflexivity|exact Hall].
Qed.

(** The north region matched and highlighted, then a look straight up,
    twice. *)
Lemma deselect_once_witness :
  let w := mkWorld Demo.demoEngine (SkyRenderer.mkState "UMi") true true true
                   "UMi" 1 [] in
  let w1 := updateGaze Demo.demoSky Demo.lookUp (1 / 60) w in
  trace w1 = [Deselected; SetHighlighted EmptyString] /\
  runTicks Demo.demoSky [(Demo.lookUp, 1 / 60); (Demo.lookUp, 1 / 60)] w1 = w1.
Proof.
  intros w w1.
  destruct (deselect_once Demo.demoSky Demo.lookUp (1 / 60) w)
    as (Hc1 & _ & _ & Htr & Hlater).
  - discriminate.
  - reflexivity.
  - apply candidate_up; reflexivity.
  - fold w1 in Hc1, Htr, Hlater. split; [exact Htr|].
    destruct (updateGaze_frame Demo.demoSky Demo.lookUp (1 / 60) w)
      as (He & Hk & _).
    fold w1 in He, Hk.
    apply Hlater. intros t [<-|[<-|[]]]; apply candidate_up; assumption.
Defined.

(** *** Hold and confirmation *)

(** C1, counterexample.  In the small sky the gaze rests on the north
    region for three ticks of 1/60 s, 1/2 s and 1/2 s: one match episode,
    in which the highlight setter is called twice (at the second and at the
    third tick), not once.  And with two ticks of 3/10 s each on the same
    region the elapsed times add up to 6/10 s, yet nothing is confirmed:
    the tick that first selects the region sets the hold time to zero and
    its own elapsed time is not counted. *)
Lemma highlight_fires_at_every_held_tick :
  trace (runTicks Demo.demoSky
           [(Demo.lookNorth, 1 / 60); (Demo.lookNorth, 1 / 2);
            (Demo.lookNorth, 1 / 2)] Demo.demoWorld)
  = [SetHighlighted "UMi"; SetHighlighted "UMi"] /\
  trace (runTicks Demo.demoSky
           [(Demo.lookNorth, 3 / 10); (Demo.lookNorth, 3 / 10)] Demo.demoWorld)
  = [] /\
  highlighted (runTicks Demo.demoSky
           [(Demo.lookNorth, 3 / 10); (Demo.lookNorth, 3 / 10)] Demo.demoWorld)
  = EmptyString.
Proof.
  split; [|split].
  - rewrite runTicks_cons.
    destruct (runTicks_episode Demo.demoSky "UMi" Demo.demoWorld
                Demo.lookNorth (1 / 60)
                [(Demo.lookNorth, 1 / 2); (Demo.lookNorth, 1 / 2)])
      as (_ & _ & _ & _ & _ & Htr & _).
    + discriminate.
    + discriminate.
    + apply candidate_north; reflexivity.
    + intros t [<-|[<-|[]]]; apply candidate_north; reflexivity.
    + simpl fst. simpl snd. rewrite Htr. simpl map. unfold holdFirings.
      unfold GAZE_HOLD_DELAY.
      repeat (destruct (Rle_dec _ _) as [_|Hx]; [|exfalso; lra]).
      reflexivity.
  - rewrite runTicks_cons.
    destruct (runTicks_episode Demo.demoSky "UMi" Demo.demoWorld
                Demo.lookNorth (3 / 10) [(Demo.lookNorth, 3 / 10)])
      as (_ & _ & _ & _ & _ & Htr & _).
    + discriminate.
    + discriminate.
    + apply candidate_north; reflexivity.
    + intros t [<-|[]]; apply candidate_north; reflexivity.
    + simpl fst. simpl snd. rewrite Htr. simpl map. unfold holdFirings.
      unfold GAZE_HOLD_DELAY.
      destruct (Rle_dec _ _) as [Hx|_]; [exfalso; lra|]. reflexivity.
  - rewrite runTicks_cons.
    destruct (runTicks_episode Demo.demoSky "UMi" Demo.demoWorld
                Demo.lookNorth (3 / 10) [(Demo.lookNorth, 3 / 10)])
      as (_ & _ & _ & _ & _ & _ & Hr).
    + discriminate.
    + discriminate.
    + apply candidate_north; reflexivity.
    + intros t [<-|[]]; apply candidate_north; reflexivity.
    + simpl fst. simpl snd. unfold highlighted. rewrite Hr. simpl map.
      unfold holdFirings, GAZE_HOLD_DELAY.
      destruct (Rle_dec _ _) as [Hx|_]; [exfalso; lra|]. reflexivity.
Qed.

(** C1, amended.  A match episode is a tick that selects a region [A] not
    matched before, followed by ticks that keep selecting it, each with an
    elapsed time that is not negative.  The first tick sets the hold time
    to zero and discards its own elapsed time; the following ticks add
    theirs.  The highlight setter is called at every tick at which the
    accumulated hold time is at least 0.5 s, so once the sum of the added
    times has reached 0.5 s the match is confirmed ([A] is highlighted) and
    each further tick on [A] calls the setter again, leaving the highlight
    as it is.  While the sum is below 0.5 s the setter is not called, and a
    tick that selects another region [B] then makes [B] the matched region
    with hold time zero: [A] has not been highlighted by this episode. *)
Theorem hold_confirms cs A w0 f0 dt0 held :
  A <> EmptyString -> currentGazeConstellation w0 <> A ->
  tickCandidate cs f0 w0 = Some A ->
  (forall t, In t held ->
     tickCandidate cs (fst t) w0 = Some A /\ 0 <= snd t) ->
  let w1 := updateGaze cs f0 dt0 w0 in
  let w2 := runTicks cs held w1 in
  let dwell := sumR (map snd held) in
  let n := holdFirings 0 (map snd held) in
  (currentGazeConstellation w1 = A /\ gazeHoldTime w1 = 0 /\
   highlighted w1 = highlighted w0 /\ trace w1 = trace w0) /\
  (currentGazeConstellation w2 = A /\ gazeHoldTime w2 = dwell /\
   trace w2 = replicate n (SetHighlighted A) ++ trace w0) /\
  (GAZE_HOLD_DELAY <= dwell ->
     (1 <= n)%nat /\ highlighted w2 = A /\
     forall f dt, tickCandidate cs f w0 = Some A -> 0 <= dt ->
       let w3 := updateGaze cs f dt w2 in
       trace w3 = SetHighlighted A :: trace w2 /\
       highlighted w3 = highlighted w2 /\
       currentGazeConstellation w3 = A) /\
  (dwell < GAZE_HOLD_DELAY ->
     n = 0%nat /\ highlighted w2 = highlighted w0 /\ trace w2 = trace w0 /\
     forall fB dtB B, B <> A -> B <> EmptyString ->
       tickCandidate cs fB w0 = Some B ->
       let w3 := updateGaze cs fB dtB w2 in
       currentGazeConstellation w3 = B /\ gazeHoldTime w3 = 0 /\
       highlighted w3 = highlighted w0 /\ trace w3 = trace w0).
Proof.
  intros HA Hcur Hf0 Hheld w1 w2 dwell n.
  destruct (runTicks_episode cs A w0 f0 dt0 held HA Hcur Hf0
              (fun t Hin => proj1 (Hheld t Hin)))
    as (E1 & He & Hcam & Hc2 & Hh & Htr & Hr).
  change (updateGaze cs f0 dt0 w0) with w1 in E1, He, Hcam, Hc2, Hh, Htr, Hr.
  change (runTicks cs held w1) with w2 in He, Hcam, Hc2, Hh, Htr, Hr.
  change (holdFirings 0 (map snd held)) with n in Htr, Hr.
  change (sumR (map snd held)) with dwell in Hh.
  assert (Hnonneg : forall dt, In dt (map snd held) -> 0 <= dt).
  { intros dt Hin. apply in_map_iff in Hin. destruct Hin as (t & <- & Hin).
    apply (Hheld t Hin). }
  assert (Hframe : forall f, tickCandidate cs f w2 = tickCandidate cs f w0).
  { intros f. apply tickCandidate_frame; assumption. }
  split; [|split; [|split]].
  - rewrite E1. unfold highlighted. repeat split.
  - repeat split; assumption.
  - intros Hreach.
    assert (Hn : (1 <= n)%nat).
    { apply holdFirings_reached; [|fold dwell; lra].
      intros E. unfold dwell in Hreach. rewrite E in Hreach.
      unfold GAZE_HOLD_DELAY in Hreach. simpl in Hreach. lra. }
    assert (Hr2 : renderer w2 = SkyRenderer.mkState A).
    { rewrite Hr. destruct (decide (n = 0%nat)); [lia|reflexivity]. }
    split; [exact Hn|]. split; [unfold highlighted; rewrite Hr2; reflexivity|].
    intros f dt Hf Hdt w3. subst w3.
    rewrite updateGaze_tickCandidate, Hframe, Hf.
    rewrite (updateHighlight_hold A dt w2 Hc2 HA), Hh.
    destruct (Rle_dec GAZE_HOLD_DELAY (dwell + dt)) as [_|Hx]; [|exfalso; lra].
    unfold highlighted. rewrite Hr2. repeat split.
  - intros Hshort.
    assert (Hn : n = 0%nat).
    { apply holdFirings_short; [exact Hnonneg|fold dwell; lra]. }
    assert (Hr2 : renderer w2 = renderer w0).
    { rewrite Hr. destruct (decide (n = 0%nat)); [reflexivity|contradiction]. }
    assert (Ht2 : trace w2 = trace w0) by (rewrite Htr, Hn; reflexivity).
    split; [exact Hn|]. split; [unfold highlighted; rewrite Hr2; reflexivity|].
    split; [exact Ht2|].
    intros fB dtB B HBA HB HfB w3. subst w3.
    rewrite updateGaze_tickCandidate, Hframe, HfB.
    rewrite (updateHighlight_enter B dtB w2); [|rewrite Hc2; exact HBA|exact HB].
    unfold highlighted. simpl. rewrite Hr2, Ht2. repeat split.
Qed.

(** The small sky: the gaze settles on the north region and stays for two
    ticks of a quarter second. *)
Lemma hold_confirms_witness :
  let w1 := updateGaze Demo.demoSky Demo.lookNorth (1 / 60) Demo.demoWorld in
  let w2 := runTicks Demo.demoSky
              [(Demo.lookNorth, 1 / 4); (Demo.lookNorth, 1 / 4)] w1 in
  currentGazeConstellation w2 = "UMi" /\ gazeHoldTime w2 = 1 / 4 + (1 / 4 + 0) /\
  highlighted w2 = "UMi".
Proof.
  intros w1 w2.
  destruct (hold_confirms Demo.demoSky "UMi" Demo.demoWorld Demo.lookNorth
              (1 / 60) [(Demo.lookNorth, 1 / 4); (Demo.lookNorth, 1 / 4)])
    as (_ & (Hc & Hh & _) & Hreach & _).
  - discriminate.
  - discriminate.
  - apply candidate_north; reflexivity.
  - intros t [<-|[<-|[]]]; (split; [apply candidate_north; reflexivity|simpl; lra]).
  - fold w1 in Hc, Hh, Hreach. fold w2 in Hc, Hh, Hreach.
    split; [exact Hc|]. split; [exact Hh|].
    apply Hreach. unfold GAZE_HOLD_DELAY. simpl. lra.
Defined.

(** A glance: a quarter second on the north region, then the east region.
    The east region becomes the matched one with hold time zero and the
    setter has not been called. *)
Lemma glance_then_switch :
  let w := runTicks Demo.demoSky
             [(Demo.lookNorth, 1 / 60); (Demo.lookNorth, 1 / 4);
              (Demo.lookEast, 1 / 60)] Demo.demoWorld in
  currentGazeConstellation w = "Ori" /\ gazeHoldTime w = 0 /\
  highlighted w = EmptyString /\ trace w = [].
Proof.
  intros w.
  destruct (runTicks_episode Demo.demoSky "UMi" Demo.demoWorld Demo.lookNorth
              (1 / 60) [(Demo.lookNorth, 1 / 4)])
    as (_ & He & Hcam & Hc2 & _ & Htr & Hr).
  - discriminate.
  - discriminate.
  - apply candidate_north; reflexivity.
  - intros t [<-|[]]; apply candidate_north; reflexivity.
  - set (w2 := runTicks Demo.demoSky [(Demo.lookNorth, 1 / 4)]
                 (updateGaze Demo.demoSky Demo.lookNorth (1 / 60) Demo.demoWorld))
      in *.
    assert (Hn : holdFirings 0 (map snd [(Demo.lookNorth, 1 / 4)]) = 0%nat).
    { apply holdFirings_short.
      - intros dt [<-|[]]. simpl. lra.
      - unfold GAZE_HOLD_DELAY. simpl. lra. }
    rewrite Hn in Htr, Hr.
    assert (Ew : w = updateGaze Demo.demoSky Demo.lookEast (1 / 60) w2)
      by reflexivity.
    rewrite Ew, updateGaze_tickCandidate.
    rewrite (candidate_east w2) by assumption.
    rewrite (updateHighlight_enter "Ori" (1 / 60) w2);
      [|rewrite Hc2; discriminate|discriminate].
    unfold highlighted. cbn [renderer trace currentGazeConstellation gazeHoldTime].
    rewrite Hr, Htr. repeat split.
Qed.

End GazeFacts.

(** ** AstroMath, further properties *)
Module AstroMathMore.
Import AstroMath AstroMathFacts GazeAndHandController.

Lemma Math_trunc_pos (q : R) : 0 <= q -> Math_trunc q <= q < Math_trunc q + 1.
Proof.
  intros Hq. unfold Math_trunc. destruct (Rle_dec 0 q); [|contradiction].
  pose proof (base_Int_part q) as [H1 H2]. lra.
Qed.

Lemma Math_trunc_neg (q : R) : q < 0 -> q <= Math_trunc q < q + 1.
Proof.
  intros Hq. unfold Math_trunc. destruct (Rle_dec 0 q); [lra|].
  pose proof (base_Int_part (- q)) as [H1 H2]. lra.
Qed.

Lemma Math_trunc_integer (q : R) : exists k : Z, Math_trunc q = IZR k.
Proof.
  unfold Math_trunc. destruct (Rle_dec 0 q).
  - eexists. reflexivity.
  - exists (- Int_part (- q))%Z. rewrite opp_IZR. reflexivity.
Qed.

Lemma rem_nonneg (a b : R) : 0 < b -> 0 <= a -> 0 <= rem a b < b.
Proof.
  intros Hb Ha. unfold rem.
  assert (Hq : 0 <= a / b).
  { unfold Rdiv. pose proof (Rinv_0_lt_compat b Hb). nra. }
  pose proof (Math_trunc_pos _ Hq) as [H1 H2].
  assert (E : a = b * (a / b)) by (field; lra).
  split; nra.
Qed.

Lemma rem_neg (a b : R) : 0 < b -> a < 0 -> - b < rem a b <= 0.
Proof.
  intros Hb Ha. unfold rem.
  assert (Hq : a / b < 0).
  { unfold Rdiv. pose proof (Rinv_0_lt_compat b Hb). nra. }
  pose proof (Math_trunc_neg _ Hq) as [H1 H2].
  assert (E : a = b * (a / b)) by (field; lra).
  split; nra.
Qed.

Lemma rem_bound (a b : R) : 0 < b -> - b < rem a b < b.
Proof.
  intros Hb. destruct (Rle_dec 0 a).
  - pose proof (rem_nonneg a b Hb r). lra.
  - pose proof (rem_neg a b Hb). lra.
Qed.

Lemma rem_congruent (a b : R) : exists k : Z, rem a b = a + b * IZR k.
Proof.
  destruct (Math_trunc_integer (a / b)) as [k Hk].
  exists (- k)%Z. unfold rem. rewrite Hk, opp_IZR. lra.
Qed.

(** [((x % m) + m) % m] *)
Lemma normalize_range (x m : R) :
  0 < m -> 0 <= rem (rem x m + m) m < m.
Proof.
  intros Hm. pose proof (rem_bound x m Hm).
  apply rem_nonneg; lra.
Qed.

Lemma normalize_congruent (x m : R) :
  exists k : Z, rem (rem x m + m) m = x + m * IZR k.
Proof.
  destruct (rem_congruent x m) as [k1 H1].
  destruct (rem_congruent (rem x m + m) m) as [k2 H2].
  exists (k1 + 1 + k2)%Z. rewrite H2, H1, !plus_IZR. lra.
Qed.

(** X1.  For every Julian date the Greenwich sidereal time, and for every
    pair of arguments the local sidereal time, lies in [0, 2 pi); the local
    one differs from the sum of its arguments by a whole number of turns. *)
Theorem sidereal_times_normalized (jd gmstRad longitudeRad : R) :
  0 <= gmst jd < 2 * PI /\
  0 <= localSiderealTime gmstRad longitudeRad < 2 * PI /\
  exists k : Z,
    localSiderealTime gmstRad longitudeRad
    = gmstRad + longitudeRad + 2 * PI * IZR k.
Proof.
  pose proof PI_RGT_0 as Hpi.
  assert (Hm : 0 < TWO_PI) by (unfold TWO_PI; lra).
  split; [|split].
  - unfold gmst. cbv zeta. apply (normalize_range _ TWO_PI Hm).
  - apply (normalize_range _ TWO_PI Hm).
  - apply (normalize_congruent _ TWO_PI).
Qed.

(** The sine of the altitude is a product of unit vectors. *)
Lemma sinAltOf_range (ra dec lst lat : R) :
  -1 <= sinAltOf ra dec lst lat <= 1.
Proof.
  unfold sinAltOf. cbv zeta.
  pose proof (sin2_cos2 lat) as H1. pose proof (sin2_cos2 dec) as H2.
  unfold Rsqr in H1, H2.
  pose proof (COS_bound (lst - ra)) as [Hk1 Hk2].
  set (s1 := sin lat) in *. set (s2 := sin dec) in *.
  set (c1 := cos lat) in *. set (c2 := cos dec) in *.
  set (k := cos (lst - ra)) in *.
  pose proof (pow2_ge_0 (s1 - s2)). pose proof (pow2_ge_0 (s1 + s2)).
  pose proof (pow2_ge_0 (c1 - c2)). pose proof (pow2_ge_0 (c1 + c2)).
  assert (Ha : s1 * s2 + c1 * c2 <= 1) by lra.
  assert (Hb : s1 * s2 - c1 * c2 <= 1) by lra.
  assert (Hc : -1 <= s1 * s2 + c1 * c2) by lra.
  assert (Hd : -1 <= s1 * s2 - c1 * c2) by lra.
  split; nra.
Qed.

Lemma sin_altitude (ra dec lst lat : R) :
  sin (fst (equatorialToHorizontal ra dec lst lat)) = sinAltOf ra dec lst lat.
Proof.
  rewrite equatorialToHorizontal_alt.
  pose proof (sinAltOf_range ra dec lst lat) as Hr.
  rewrite clamp1_id by exact Hr. apply sin_asin. exact Hr.
Qed.

Lemma cos_altitude_nonneg (ra dec lst lat : R) :
  0 <= cos (fst (equatorialToHorizontal ra dec lst lat)).
Proof.
  rewrite equatorialToHorizontal_alt.
  pose proof (asin_bound (clamp1 (sinAltOf ra dec lst lat))) as [H1 H2].
  apply cos_ge_0; lra.
Qed.

(** X2.  For all inputs the sine of the altitude returned is
    sin(lat) sin(dec) + cos(lat) cos(dec) cos(lst - ra): on real numbers
    that value is always within [-1, 1], so the clamp before the inverse
    sine never alters it; the cosine of the altitude is never negative. *)
Theorem altitude_formula (ra dec lst lat : R) :
  let alt := fst (equatorialToHorizontal ra dec lst lat) in
  sin alt = sin lat * sin dec + cos lat * cos dec * cos (lst - ra) /\
  0 <= cos alt /\ - (PI / 2) <= alt <= PI / 2.
Proof.
  intros alt. subst alt. split; [apply sin_altitude|].
  split; [apply cos_altitude_nonneg|].
  rewrite equatorialToHorizontal_alt. apply asin_bound.
Qed.





(** The numerator of [cosAz] never exceeds its denominator in magnitude. *)
Lemma cosAz_numerator_bound (ra dec lst lat : R) :
  let alt := fst (equatorialToHorizontal ra dec lst lat) in
  (sin dec - sin lat * sinAltOf ra dec lst lat) ^ 2
  <= (cos lat * cos alt) ^ 2.
Proof.
  intros alt.
  pose proof (sin_altitude ra dec lst lat) as Hs. fold alt in Hs.
  pose proof (sin2_cos2 alt) as Ha. unfold Rsqr in Ha. rewrite Hs in Ha.
  pose proof (sin2_cos2 lat) as H1. pose proof (sin2_cos2 dec) as H2.
  unfold Rsqr in H1, H2.
  pose proof (COS_bound (lst - ra)) as [Hk1 Hk2].
  unfold sinAltOf in *. cbv zeta in *.
  set (sL := sin lat) in *. set (sD := sin dec) in *.
  set (cL := cos lat) in *. set (cD := cos dec) in *.
  set (k := cos (lst - ra)) in *. set (cA := cos alt) in *.
  set (S := sL * sD + cL * cD * k) in *.
  set (M := cL * sD - sL * cD * k).
  assert (EN : sD - sL * S = cL * M).
  { unfold S, M. replace sD with (sD * (sL * sL + cL * cL)) at 1
      by (rewrite H1; ring). ring. }
  assert (ESM : S * S + M * M = sD * sD + cD * cD * (k * k)).
  { unfold S, M.
    replace (sD * sD + cD * cD * (k * k))
      with ((sL * sL + cL * cL) * (sD * sD + cD * cD * (k * k)))
      by (rewrite H1; ring). ring. }
  assert (Hkk : k * k <= 1) by nra.
  assert (HM : M * M <= cA * cA) by nra.
  rewrite EN. replace ((cL * M) ^ 2) with (cL * cL * (M * M)) by ring.
  replace ((cL * cA) ^ 2) with (cL * cL * (cA * cA)) by ring.
  apply Rmult_le_compat_l; [nra|exact HM].
Qed.

Lemma cosAzOf_unfold (ra dec lst lat : R) :
  cosAzOf ra dec lst lat =
  (sin dec - sin lat * sinAltOf ra dec lst lat)
  / (cos lat * cos (fst (equatorialToHorizontal ra dec lst lat))).
Proof. rewrite equatorialToHorizontal_alt. reflexivity. Qed.

Lemma cosAzOf_range (ra dec lst lat : R) :
  cos lat * cos (fst (equatorialToHorizontal ra dec lst lat)) <> 0 ->
  -1 <= cosAzOf ra dec lst lat <= 1.
Proof.
  intros HD. rewrite cosAzOf_unfold.
  pose proof (cosAz_numerator_bound ra dec lst lat) as HN. cbv zeta in HN.
  set (N := sin dec - sin lat * sinAltOf ra dec lst lat) in *.
  set (D := cos lat * cos (fst (equatorialToHorizontal ra dec lst lat))) in *.
  assert (HD2 : 0 < D ^ 2) by (apply Rlt_0_sqr in HD; unfold Rsqr in HD; nra).
  assert (Hq : (N / D) ^ 2 <= 1).
  { replace ((N / D) ^ 2) with (N ^ 2 / D ^ 2) by (field; exact HD).
    apply Rmult_le_reg_r with (D ^ 2); [exact HD2|].
    replace (N ^ 2 / D ^ 2 * D ^ 2) with (N ^ 2) by (field; exact HD). lra. }
  split; nra.
Qed.

Lemma cos_turn_minus (y : R) : cos (2 * PI - y) = cos y.
Proof. rewrite cos_minus, cos_2PI, sin_2PI. lra. Qed.

(** X4.  Away from the poles of the observer (cos(lat) not 0) and from
    zenith and nadir, the azimuth returned satisfies
    cos(az) cos(lat) cos(alt) = sin(dec) - sin(lat) sin(alt), the clamp
    before the inverse cosine never altering its argument; it lies in
    [0, pi] when the sine of the hour angle is not positive and in
    [pi, 2 pi] when it is positive. *)
Theorem azimuth_formula (ra dec lst lat : R) :
  let alt := fst (equatorialToHorizontal ra dec lst lat) in
  let az := snd (equatorialToHorizontal ra dec lst lat) in
  cos lat <> 0 -> ~ Rabs (cos alt) < / 10000000000 ->
  cos az * (cos lat * cos alt) = sin dec - sin lat * sin alt /\
  (sin (lst - ra) <= 0 -> 0 <= az <= PI) /\
  (0 < sin (lst - ra) -> PI <= az <= 2 * PI).
Proof.
  intros alt az Hlat Hz.
  assert (HcA : cos alt <> 0).
  { intros E. apply Hz. rewrite E, Rabs_R0. lra. }
  assert (HD : cos lat * cos alt <> 0) by (apply Rmult_integral_contrapositive; auto).
  pose proof (cosAzOf_range ra dec lst lat HD) as Hr.
  pose proof (acos_bound (clamp1 (cosAzOf ra dec lst lat))) as [Ha0 Ha1].
  assert (Eaz : az = if Rlt_dec 0 (sin (lst - ra))
                     then TWO_PI - acos (clamp1 (cosAzOf ra dec lst lat))
                     else acos (clamp1 (cosAzOf ra dec lst lat))).
  { unfold az. rewrite equatorialToHorizontal_az.
    fold alt. rewrite <- equatorialToHorizontal_alt. fold alt.
    destruct (Rlt_dec (Rabs (cos alt)) _); [contradiction|reflexivity]. }
  assert (Ecos : cos az = cosAzOf ra dec lst lat).
  { rewrite Eaz. rewrite clamp1_id by exact Hr.
    destruct (Rlt_dec 0 (sin (lst - ra))).
    - unfold TWO_PI. rewrite cos_turn_minus. apply cos_acos. exact Hr.
    - apply cos_acos. exact Hr. }
  split; [|split].
  - rewrite Ecos, cosAzOf_unfold. fold alt.
    unfold alt at 3. rewrite sin_altitude. field. split; assumption.
  - intros Hw. rewrite Eaz. destruct (Rlt_dec 0 (sin (lst - ra))); lra.
  - intros Hw. rewrite Eaz. unfold TWO_PI.
    destruct (Rlt_dec 0 (sin (lst - ra))); lra.
Qed.

Lemma azimuth_formula_witness :
  cos (snd (equatorialToHorizontal 0 (PI / 2) (PI / 2) 0))
  * (cos 0 * cos (fst (equatorialToHorizontal 0 (PI / 2) (PI / 2) 0)))
  = sin (PI / 2) - sin 0 * sin (fst (equatorialToHorizontal 0 (PI / 2) (PI / 2) 0)).
Proof.
  apply (azimuth_formula 0 (PI / 2) (PI / 2) 0).
  - rewrite cos_0. lra.
  - rewrite pole_from_the_equator. simpl fst. rewrite cos_0, Rabs_R1. lra.
Defined.

Lemma horizontalToCartesian_eq (alt az r : R) :
  horizontalToCartesian alt az r
  = (r * cos alt * sin az, r * sin alt, - r * cos alt * cos az).
Proof. reflexivity. Qed.

Lemma sin_sign_quadrant (alt : R) :
  - (PI / 2) <= alt <= PI / 2 -> (0 <= sin alt <-> 0 <= alt).
Proof.
  intros Ha. pose proof PI_RGT_0. split.
  - intros Hs. destruct (Rle_dec 0 alt) as [|Hn]; [assumption|exfalso].
    assert (sin alt < 0) by (apply sin_lt_0_var; lra). lra.
  - intros H0. apply sin_ge_0; lra.
Qed.

Lemma horizontalToCartesian_norm (alt az r : R) :
  let '(x, y, z) := horizontalToCartesian alt az r in
  x * x + y * y + z * z = r * r.
Proof.
  rewrite horizontalToCartesian_eq.
  pose proof (sin2_cos2 alt) as H1. pose proof (sin2_cos2 az) as H2.
  unfold Rsqr in H1, H2.
  replace (r * cos alt * sin az * (r * cos alt * sin az)
           + r * sin alt * (r * sin alt)
           + - r * cos alt * cos az * (- r * cos alt * cos az))
    with (r * r * (cos alt * cos alt * (sin az * sin az + cos az * cos az)
                   + sin alt * sin alt)) by ring.
  assert (E : cos alt * cos alt * (sin az * sin az + cos az * cos az)
              + sin alt * sin alt = 1) by (rewrite H2; lra).
  rewrite E. ring.
Qed.

Lemma height_sign (alt r : R) :
  0 < r -> - (PI / 2) <= alt <= PI / 2 -> (0 <= r * sin alt <-> 0 <= alt).
Proof.
  intros Hr Ha. pose proof (sin_sign_quadrant alt Ha) as [Hs1 Hs2].
  split; intros H.
  - apply Hs1. nra.
  - specialize (Hs2 H). nra.
Qed.

(** X5.  The point returned lies on the sphere of the given radius, its
    second coordinate is radius times sin(alt), so for a positive radius
    and an altitude in [-pi/2, pi/2] that coordinate is non-negative
    exactly when the altitude is; azimuth 0 (north) points along -Z and
    azimuth pi/2 (east) along +X. *)
Theorem cartesian_on_sphere (alt az r : R) :
  let '(x, y, z) := horizontalToCartesian alt az r in
  x * x + y * y + z * z = r * r /\
  y = r * sin alt /\
  (0 < r -> - (PI / 2) <= alt <= PI / 2 -> (0 <= y <-> 0 <= alt)) /\
  horizontalToCartesian alt 0 r = (0, r * sin alt, - (r * cos alt)) /\
  horizontalToCartesian alt (PI / 2) r = (r * cos alt, r * sin alt, 0).
Proof.
  pose proof (horizontalToCartesian_norm alt az r) as Hn.
  rewrite horizontalToCartesian_eq in *.
  split; [exact Hn|]. split; [reflexivity|]. split; [apply height_sign|].
  split.
  - rewrite horizontalToCartesian_eq, sin_0, cos_0.
    f_equal; [f_equal; ring|ring].
  - rewrite horizontalToCartesian_eq, sin_PI2, cos_PI2.
    f_equal; [f_equal; ring|ring].
Qed.

(** Un-rotating by the heading. *)
Lemma skyDirection_eq (h fx fy fz : R) :
  skyDirection h (fx, fy, fz) =
  (fx * cos (h * (PI / 180)) + fz * sin (h * (PI / 180)),
   fy,
   - fx * sin (h * (PI / 180)) + fz * cos (h * (PI / 180))).
Proof.
  unfold skyDirection. rewrite cos_neg, sin_neg.
  f_equal; [f_equal; ring|ring].
Qed.

Lemma skyLength_skyDirection (h : R) (f : R * R * R) :
  skyLength (skyDirection h f) = skyLength f.
Proof.
  destruct f as [[fx fy] fz]. rewrite skyDirection_eq. unfold skyLength.
  f_equal. pose proof (sin2_cos2 (h * (PI / 180))) as H. unfold Rsqr in H.
  set (s := sin (h * (PI / 180))) in *. set (c := cos (h * (PI / 180))) in *.
  replace ((fx * c + fz * s) * (fx * c + fz * s) + fy * fy
           + (- fx * s + fz * c) * (- fx * s + fz * c))
    with ((fx * fx + fz * fz) * (s * s + c * c) + fy * fy) by ring.
  rewrite H. ring.
Qed.

(** X6.  The rotation that [updateGaze] applies to the camera direction
    keeps its length and its vertical component, and maps the direction of
    altitude [alt] and azimuth [az] to the direction of the same altitude
    and azimuth [az] minus the heading (in radians). *)
Theorem heading_unrotation (h alt az r : R) (f : R * R * R) :
  skyLength (skyDirection h f) = skyLength f /\
  snd (fst (skyDirection h f)) = snd (fst f) /\
  skyDirection h (horizontalToCartesian alt az r)
  = horizontalToCartesian alt (az - h * (PI / 180)) r.
Proof.
  split; [apply skyLength_skyDirection|]. split.
  - destruct f as [[fx fy] fz]. rewrite skyDirection_eq. reflexivity.
  - rewrite !horizontalToCartesian_eq, skyDirection_eq, sin_minus, cos_minus.
    f_equal; [f_equal; ring|ring].
Qed.

Lemma atan_ratio (k t : R) :
  0 < k -> cos t <> 0 -> atan (k * sin t / (k * cos t)) = atan (tan t).
Proof.
  intros Hk Hc. f_equal. unfold tan. field. split; [exact Hc|lra].
Qed.

Lemma tan_shift_PI (t : R) : cos t <> 0 -> tan (t - PI) = tan t.
Proof.
  intros Hc. unfold tan.
  replace t with ((t - PI) + PI) at 3 4 by lra.
  rewrite neg_sin, neg_cos. field.
  intros E. apply Hc. replace t with ((t - PI) + PI) by lra.
  rewrite neg_cos, E. lra.
Qed.

Lemma tan_shift_2PI (t : R) : tan (t - 2 * PI) = tan t.
Proof.
  unfold tan. rewrite sin_minus, cos_minus, sin_2PI, cos_2PI.
  f_equal; ring.
Qed.

(** [Math.atan2] of a direction of angle [t], brought into [0, 2 pi) as
    [updateGaze] does, is [t]. *)
Lemma atan2_polar (k t : R) :
  0 < k -> 0 <= t < 2 * PI ->
  (let a := Math_atan2 (k * sin t) (k * cos t) in
   if Rlt_dec a 0 then a + 2 * PI else a) = t.
Proof.
  intros Hk Ht. pose proof PI_RGT_0 as Hpi. cbv zeta. unfold Math_atan2.
  destruct (Rlt_le_dec t (PI / 2)) as [H1|H1].
  { (* first quadrant *)
    assert (Hc : 0 < cos t) by (apply cos_gt_0; lra).
    destruct (Rlt_dec 0 (k * cos t)) as [_|Hn]; [|exfalso; nra].
    rewrite atan_ratio by lra. rewrite atan_tan by lra.
    destruct (Rlt_dec t 0); lra. }
  destruct (Req_dec t (PI / 2)) as [E|NE].
  { subst t. rewrite cos_PI2, sin_PI2, Rmult_0_r, Rmult_1_r.
    destruct (Rlt_dec 0 0) as [Hx|_]; [lra|].
    destruct (Rlt_dec 0 k) as [_|Hx]; [|lra].
    destruct (Rlt_dec (PI / 2) 0); lra. }
  destruct (Rlt_le_dec t (3 * (PI / 2))) as [H2|H2].
  { assert (Hc : cos t < 0) by (apply cos_lt_0; lra).
    destruct (Rlt_dec 0 (k * cos t)) as [Hx|_]; [exfalso; nra|].
    destruct (Rlt_dec (k * cos t) 0) as [_|Hx]; [|exfalso; nra].
    rewrite atan_ratio by lra. rewrite <- tan_shift_PI by lra.
    rewrite atan_tan by lra.
    destruct (Rle_dec 0 (k * sin t)) as [Hs|Hs].
    - destruct (Rlt_dec (t - PI + PI) 0); [|lra].
      exfalso. destruct (Rlt_le_dec PI t) as [Hgt|Hle]; [|lra].
      assert (sin t < 0) by (apply sin_lt_0; lra). nra.
    - destruct (Rlt_le_dec PI t) as [Hgt|Hle].
      + destruct (Rlt_dec (t - PI - PI) 0); lra.
      + exfalso. apply Hs. assert (0 <= sin t) by (apply sin_ge_0; lra). nra. }
  destruct (Req_dec t (3 * (PI / 2))) as [E|NE2].
  { subst t. rewrite cos_3PI2, sin_3PI2, Rmult_0_r.
    destruct (Rlt_dec 0 0) as [Hx|_]; [lra|].
    destruct (Rlt_dec 0 (k * -1)) as [Hx|_]; [lra|].
    destruct (Rlt_dec (k * -1) 0) as [_|Hx]; [|lra].
    destruct (Rlt_dec (- (PI / 2)) 0); lra. }
  { assert (Hc : 0 < cos t).
    { replace t with ((t - 2 * PI) + 2 * PI) by lra.
      rewrite cos_plus, cos_2PI, sin_2PI, Rmult_1_r, Rmult_0_r, Rminus_0_r.
      apply cos_gt_0; lra. }
    destruct (Rlt_dec 0 (k * cos t)) as [_|Hn]; [|exfalso; nra].
    rewrite atan_ratio by lra. rewrite <- tan_shift_2PI.
    rewrite atan_tan by lra.
    destruct (Rlt_dec (t - 2 * PI) 0); lra. }
Qed.

Lemma skyLength_cartesian (alt az r : R) :
  0 <= r -> skyLength (horizontalToCartesian alt az r) = r.
Proof.
  intros Hr. rewrite horizontalToCartesian_eq. unfold skyLength.
  pose proof (sin2_cos2 alt) as H1. pose proof (sin2_cos2 az) as H2.
  unfold Rsqr in H1, H2.
  replace (r * cos alt * sin az * (r * cos alt * sin az)
           + r * sin alt * (r * sin alt)
           + - r * cos alt * cos az * (- r * cos alt * cos az))
    with (r * r * (cos alt * cos alt * (sin az * sin az + cos az * cos az)
                   + sin alt * sin alt)) by ring.
  assert (E : cos alt * cos alt * (sin az * sin az + cos az * cos az)
              + sin alt * sin alt = 1) by (rewrite H2; lra).
  rewrite E, Rmult_1_r. apply sqrt_square. exact Hr.
Qed.

(** X7.  Round trip between the engine's projection and the controller's
    reading of a direction: for a positive radius, an altitude strictly
    between -pi/2 and pi/2 and an azimuth in [0, 2 pi), the direction
    [horizontalToCartesian alt az radius] has length [radius] and is read
    back by [gazeAltAz] as exactly (alt, az). *)
Theorem gaze_of_cartesian (alt az r : R) :
  0 < r -> - (PI / 2) < alt < PI / 2 -> 0 <= az < 2 * PI ->
  skyLength (horizontalToCartesian alt az r) = r /\
  gazeAltAz (horizontalToCartesian alt az r) = (alt, az).
Proof.
  intros Hr Halt Haz.
  pose proof (skyLength_cartesian alt az r (Rlt_le _ _ Hr)) as Hlen.
  split; [exact Hlen|].
  unfold gazeAltAz. rewrite Hlen. rewrite horizontalToCartesian_eq.
  assert (Hc : 0 < cos alt) by (apply cos_gt_0; lra).
  f_equal.
  - replace (r * sin alt / r) with (sin alt) by (field; lra).
    apply asin_sin. lra.
  - replace (r * cos alt * sin az) with ((r * cos alt) * sin az) by ring.
    replace (- (- r * cos alt * cos az)) with ((r * cos alt) * cos az) by ring.
    apply (atan2_polar (r * cos alt) az); [nra|exact Haz].
Qed.

Lemma gaze_of_cartesian_witness :
  gazeAltAz (horizontalToCartesian 0 (PI / 2) 500) = (0, PI / 2).
Proof.
  pose proof PI_RGT_0.
  apply (gaze_of_cartesian 0 (PI / 2) 500); lra.
Defined.

Lemma angularDistance_haversine (ra1 dec1 ra2 dec2 : R) :
  angularDistance ra1 dec1 ra2 dec2
  = 2 * asin (sqrt (haversine dec1 ra1 dec2 ra2)).
Proof.
  pose proof (haversine_range dec1 ra1 dec2 ra2) as [H0 H1].
  change (angularDistance ra1 dec1 ra2 dec2)
    with (2 * asin (sqrt (Rmin 1 (haversine dec1 ra1 dec2 ra2)))).
  rewrite Rmin_right by exact H1. reflexivity.
Qed.

Lemma haversine_sym (lat1 lon1 lat2 lon2 : R) :
  haversine lat1 lon1 lat2 lon2 = haversine lat2 lon2 lat1 lon1.
Proof.
  rewrite !haversine_dot.
  replace (lon1 - lon2) with (- (lon2 - lon1)) by lra. rewrite cos_neg. lra.
Qed.

(** X8.  The angular distance is symmetric, zero from a point to itself,
    and its cosine is sin(dec1) sin(dec2) + cos(dec1) cos(dec2)
    cos(ra2 - ra1): it is the angle between the two directions; the
    horizontal-frame function is the same function with the coordinates in
    the other order. *)
Theorem angularDistance_metric (ra1 dec1 ra2 dec2 : R) :
  angularDistance ra1 dec1 ra2 dec2 = angularDistance ra2 dec2 ra1 dec1 /\
  angularDistance ra1 dec1 ra1 dec1 = 0 /\
  cos (angularDistance ra1 dec1 ra2 dec2)
  = sin dec1 * sin dec2 + cos dec1 * cos dec2 * cos (ra2 - ra1) /\
  angularDistanceAltAz dec1 ra1 dec2 ra2 = angularDistance ra1 dec1 ra2 dec2.
Proof.
  split; [|split; [|split]].
  - rewrite !angularDistance_haversine, haversine_sym. reflexivity.
  - rewrite angularDistance_haversine, haversine_dot.
    replace (ra1 - ra1) with 0 by lra. rewrite cos_0.
    pose proof (sin2_cos2 dec1) as H. unfold Rsqr in H.
    replace ((1 - (sin dec1 * sin dec1 + cos dec1 * cos dec1 * 1)) / 2)
      with 0 by lra.
    rewrite sqrt_0, asin_0. lra.
  - rewrite angularDistance_haversine.
    pose proof (haversine_range dec1 ra1 dec2 ra2) as [H0 H1].
    set (a := haversine dec1 ra1 dec2 ra2) in *.
    assert (Hs : 0 <= sqrt a <= 1).
    { split; [apply sqrt_pos|].
      apply Rle_trans with (sqrt 1); [apply sqrt_le_1_alt; lra|rewrite sqrt_1; lra]. }
    rewrite cos_2a_sin, sin_asin by lra.
    replace (2 * sqrt a * sqrt a) with (2 * (sqrt a * sqrt a)) by ring.
    rewrite sqrt_sqrt by exact H0.
    unfold a. rewrite haversine_dot. lra.
  - reflexivity.
Qed.

(** X9.  Both magnitude maps are non-increasing: a brighter object (lower
    magnitude) never gets a lower opacity or a smaller scale. *)
Theorem magnitude_maps_monotone (mag1 mag2 : R) :
  mag1 <= mag2 ->
  magnitudeToAlpha mag2 <= magnitudeToAlpha mag1 /\
  magnitudeToScale mag2 <= magnitudeToScale mag1.
Proof.
  intros H. unfold magnitudeToAlpha, magnitudeToScale, Rmax.
  split; repeat destruct (Rle_dec _ _); lra.
Qed.

Lemma magnitude_maps_monotone_witness :
  magnitudeToAlpha 2 <= magnitudeToAlpha (-1) /\
  magnitudeToScale 2 <= magnitudeToScale (-1).
Proof. apply (magnitude_maps_monotone (-1) 2). lra. Defined.

(** X10.  For every colour index the red component lies in [0.6, 1], the
    green in [0.2, 1], the blue in [0.05, 1] and the opacity is 1; indices
    below -0.4 give the colour of -0.4 and indices above 2.0 that of 2.0. *)
Theorem bvToColor_range (bv : R) :
  let '(r, g, b, a) := bvToColor bv in
  6 / 10 <= r <= 1 /\ 2 / 10 <= g <= 1 /\ 5 / 100 <= b <= 1 /\ a = 1 /\
  (bv <= - (4 / 10) -> bvToColor bv = bvToColor (- (4 / 10))) /\
  (2 <= bv -> bvToColor bv = bvToColor 2).
Proof.
  assert (Hlo : bv <= - (4 / 10) ->
                Rmax (- (4 / 10)) (Rmin 2 bv)
                = Rmax (- (4 / 10)) (Rmin 2 (- (4 / 10)))).
  { intros H. unfold Rmax, Rmin. repeat destruct (Rle_dec _ _); lra. }
  assert (Hhi : 2 <= bv ->
                Rmax (- (4 / 10)) (Rmin 2 bv) = Rmax (- (4 / 10)) (Rmin 2 2)).
  { intros H. unfold Rmax, Rmin. repeat destruct (Rle_dec _ _); lra. }
  assert (Hsat : (bv <= - (4 / 10) -> bvToColor bv = bvToColor (- (4 / 10))) /\
                 (2 <= bv -> bvToColor bv = bvToColor 2)).
  { split; intros H; unfold bvToColor; cbv zeta;
      [rewrite (Hlo H)|rewrite (Hhi H)]; reflexivity. }
  unfold bvToColor in *. cbv zeta in *.
  assert (Ht : - (4 / 10) <= Rmax (- (4 / 10)) (Rmin 2 bv) <= 2).
  { unfold Rmax, Rmin. repeat destruct (Rle_dec _ _); lra. }
  set (t := Rmax (- (4 / 10)) (Rmin 2 bv)) in *.
  destruct (Rlt_dec t 0); [|destruct (Rlt_dec t (4 / 10));
                             [|destruct (Rlt_dec t 1)]];
    (split; [lra|]; split; [lra|];
     split; [unfold Rmax; destruct (Rle_dec _ _); lra|];
     split; [reflexivity|exact Hsat]).
Qed.

(** X11.  For headings in [0, 360): factor 0 returns the current heading,
    factor 1 returns the target, and a target equal to the current heading
    returns it for every factor. *)
Theorem smoothHeading_endpoints (current target : R) :
  0 <= current < 360 -> 0 <= target < 360 ->
  smoothHeading current target 0 = current /\
  smoothHeading current target 1 = target /\
  (forall alpha, smoothHeading current current alpha = current).
Proof.
  intros Hc Ht. unfold smoothHeading. cbv zeta.
  repeat split; try intros alpha;
    repeat (destruct (Rlt_dec _ _) || destruct (Rle_dec _ _)); nra.
Qed.

Lemma smoothHeading_endpoints_witness :
  smoothHeading 350 10 0 = 350 /\ smoothHeading 350 10 1 = 10.
Proof.
  destruct (smoothHeading_endpoints 350 10) as (H0 & H1 & _); [lra|lra|].
  split; assumption.
Defined.

End AstroMathMore.

(** ** SkyEngine, further properties *)
Module SkyEngineMore.
Import SkyEngine SkyEngineEvents SkyEngineInv SkyEngineFacts AstroMathFacts AstroMathMore.

Lemma smoothHeading_range (current target alpha : R) :
  0 <= current < 360 -> 0 <= target < 360 -> 0 <= alpha <= 1 ->
  0 <= AstroMath.smoothHeading current target alpha < 360.
Proof.
  intros Hc Ht Ha. unfold AstroMath.smoothHeading. cbv zeta.
  repeat (destruct (Rlt_dec _ _) || destruct (Rle_dec _ _)); nra.
Qed.

(** The loop leaves the catalog's entries, whatever the buffer held. *)
Lemma fillFrom_all (STARS : list StarRecord.t) (lstRad lat : R)
    (buf : list StarPosition3D.t) :
  length buf = length STARS ->
  fillFrom 0 STARS lstRad lat buf
  = map (fun star => entryOf star lstRad lat) STARS.
Proof.
  intros Hlen. apply list_eq. intros i.
  rewrite list_lookup_fmap.
  destruct (STARS !! i) as [star|] eqn:Hi; simpl.
  - apply (lookup_fillFrom STARS 0 lstRad lat buf i star); [lia|exact Hi].
  - apply lookup_ge_None_2. rewrite length_fillFrom, Hlen.
    apply lookup_ge_None_1. exact Hi.
Qed.

Lemma entryOf_eq (star : StarRecord.t) (lstRad lat : R) :
  let alt := fst (AstroMath.equatorialToHorizontal (StarRecord.ra star)
                    (StarRecord.dec star) lstRad lat) in
  let az := snd (AstroMath.equatorialToHorizontal (StarRecord.ra star)
                   (StarRecord.dec star) lstRad lat) in
  entryOf star lstRad lat =
  StarPosition3D.mk (StarRecord.hip star)
    (SPHERE_RADIUS * cos alt * sin az) (SPHERE_RADIUS * sin alt)
    (- SPHERE_RADIUS * cos alt * cos az)
    (StarRecord.mag star) (StarRecord.bv star) (StarRecord.name star).
Proof.
  cbv zeta. unfold entryOf, writeStar.
  destruct (AstroMath.equatorialToHorizontal _ _ _ _) as [alt az].
  reflexivity.
Qed.

Section Engine.
Variable STARS : list StarRecord.t.

(** X14.  After a call on an initialised engine the entry of every catalog
    star lies on the sphere of radius 500 and its vertical coordinate is
    non-negative exactly when the star's altitude, for the observer's
    latitude and the sidereal time of the call, is non-negative. *)
Theorem star_positions_on_sphere (now : R) (s : State) (i : nat)
    (star : StarRecord.t) :
  initialized s = true -> STARS !! i = Some star ->
  exists sp,
    starPositions (updateStarPositions STARS now s) !! i = Some sp /\
    StarPosition3D.x sp * StarPosition3D.x sp
    + StarPosition3D.y sp * StarPosition3D.y sp
    + StarPosition3D.z sp * StarPosition3D.z sp = 500 * 500 /\
    (0 <= StarPosition3D.y sp <->
     0 <= fst (AstroMath.equatorialToHorizontal (StarRecord.ra star)
                 (StarRecord.dec star) (lstAt now s)
                 (ObserverState.latitude (observer s)))).
Proof.
  intros Hinit Hi.
  destruct (updateStarPositions_call STARS now s Hinit) as (_ & _ & He & _).
  eexists. split; [apply (He i star Hi)|].
  rewrite entryOf_eq. simpl.
  set (alt := fst _). set (az := snd _).
  pose proof (horizontalToCartesian_norm alt az SPHERE_RADIUS) as Hn.
  rewrite horizontalToCartesian_eq in Hn. unfold SPHERE_RADIUS in *.
  split; [exact Hn|].
  apply height_sign; [lra|].
  unfold alt. rewrite equatorialToHorizontal_alt. apply asin_bound.
Qed.

Lemma updateStarPositions_eq (now : R) (s : State) :
  initialized s = true ->
  updateStarPositions STARS now s =
  mkState
    (ObserverState.mk (ObserverState.latitude (observer s))
       (ObserverState.longitude (observer s)) (lstAt now s)
       (ObserverState.headingDeg (observer s))
       (ObserverState.timestamp (observer s)))
    (map (fun star => entryOf star (lstAt now s)
                        (ObserverState.latitude (observer s))) STARS)
    (if decide (length (starPositions s) <> length STARS)
     then heapNext s else starPositionsRef s)
    (if decide (length (starPositions s) <> length STARS)
     then S (heapNext s) else heapNext s)
    true (rawHeadingDeg s).
Proof.
  intros Hinit. unfold updateStarPositions. rewrite Hinit. simpl.
  fold (lstAt now s).
  destruct (decide (length (starPositions s) <> length STARS)) as [Hne|He];
    simpl.
  - rewrite fillFrom_all by apply length_replicate. reflexivity.
  - rewrite fillFrom_all; [reflexivity|].
    destruct (decide (length (starPositions s) = length STARS));
      [assumption|contradiction].
Qed.

(** X12.  On an initialised engine a call leaves in the buffer, in catalog
    order, exactly the entries computed from the catalog, the sidereal time
    of the call and the observer's latitude, whatever the buffer held
    before; a second call at the same time changes nothing. *)
Theorem updateStarPositions_recomputes (now : R) (s : State) :
  initialized s = true ->
  let s1 := updateStarPositions STARS now s in
  starPositions s1
  = map (fun star => entryOf star (lstAt now s)
                       (ObserverState.latitude (observer s))) STARS /\
  updateStarPositions STARS now s1 = s1.
Proof.
  intros Hinit s1.
  pose proof (updateStarPositions_eq now s Hinit) as E1. fold s1 in E1.
  split; [rewrite E1; reflexivity|].
  assert (Hi1 : initialized s1 = true) by (rewrite E1; reflexivity).
  assert (Ho : observer s1 =
               ObserverState.mk (ObserverState.latitude (observer s))
                 (ObserverState.longitude (observer s)) (lstAt now s)
                 (ObserverState.headingDeg (observer s))
                 (ObserverState.timestamp (observer s)))
    by (rewrite E1; reflexivity).
  assert (Hp : starPositions s1 =
               map (fun star => entryOf star (lstAt now s)
                                  (ObserverState.latitude (observer s))) STARS)
    by (rewrite E1; reflexivity).
  assert (Hl : lstAt now s1 = lstAt now s)
    by (unfold lstAt; rewrite Ho; reflexivity).
  rewrite (updateStarPositions_eq now s1 Hi1), Hl, Ho, Hp. simpl.
  rewrite length_map.
  destruct (decide (length STARS <> length STARS)); [contradiction|].
  rewrite <- Ho, <- Hp. rewrite <- Hi1. destruct s1; reflexivity.
Qed.

Lemma lstAt_range (now : R) (s : State) : 0 <= lstAt now s < 2 * PI.
Proof.
  pose proof PI_RGT_0 as Hpi. unfold lstAt, AstroMath.localSiderealTime.
  apply (normalize_range _ AstroMath.TWO_PI). unfold AstroMath.TWO_PI. lra.
Qed.

(** X13.  On an initialised engine a call leaves latitude, longitude,
    heading and timestamp of the observer as they are and sets the local
    sidereal time to the value computed from the time of the call and the
    longitude, a value in [0, 2 pi). *)
Theorem updateStarPositions_observer (now : R) (s : State) :
  initialized s = true ->
  let o := observer s in
  let o1 := observer (updateStarPositions STARS now s) in
  ObserverState.latitude o1 = ObserverState.latitude o /\
  ObserverState.longitude o1 = ObserverState.longitude o /\
  ObserverState.headingDeg o1 = ObserverState.headingDeg o /\
  ObserverState.timestamp o1 = ObserverState.timestamp o /\
  ObserverState.lstRadians o1
  = AstroMath.localSiderealTime
      (AstroMath.gmst (AstroMath.julianDate now)) (ObserverState.longitude o) /\
  0 <= ObserverState.lstRadians o1 < 2 * PI.
Proof.
  intros Hinit o o1. subst o o1.
  rewrite (updateStarPositions_eq now s Hinit). simpl.
  repeat split; try reflexivity; apply lstAt_range.
Qed.

Lemma apply_Inv (e : Event) (s : State) :
  inRange e -> Inv STARS s -> Inv STARS (apply STARS e s).
Proof.
  intros Hr Hinv. pose proof Hinv as (Hh & Hl & Hb & Hi).
  destruct e as [h|lat lon now|lat lon| |now]; simpl in *.
  - split; [|split; [|split]]; simpl; try assumption.
    apply smoothHeading_range; [assumption|assumption|lra].
  - split; [|split; [|split]]; simpl; try assumption; try discriminate.
  - split; [|split; [|split]]; simpl; try assumption; try discriminate.
  - split; [|split; [|split]]; simpl; try assumption; try lra;
      try discriminate.
  - destruct (initialized s) eqn:Hinit.
    + rewrite (updateStarPositions_eq now s Hinit).
      split; [|split; [|split]]; simpl.
      * assumption.
      * apply lstAt_range.
      * right. rewrite length_map. split; [reflexivity|].
        destruct (decide (length (starPositions s) <> length STARS)) as [Hne|He].
        -- destruct Hb as [(_ & _ & Hn)|(Hlen & _)]; [lia|contradiction].
        -- destruct Hb as [(_ & _ & Hn)|(_ & Hn)]; lia.
      * discriminate.
    + unfold updateStarPositions. rewrite Hinit. exact Hinv.
Qed.

Lemma initial_Inv : Inv STARS initial.
Proof.
  pose proof PI_RGT_0. unfold Inv, initial. simpl.
  split; [lra|]. split; [lra|]. split; [left; auto|reflexivity].
Qed.

Lemma apply_initialized (e : Event) (s : State) :
  initialized s = true -> initialized (apply STARS e s) = true.
Proof.
  intros Hinit. destruct e; simpl; try assumption; try reflexivity.
  unfold updateStarPositions. rewrite Hinit. simpl.
  destruct (decide _); reflexivity.
Qed.

(** X15.  From the initial engine, after any sequence of compass samples
    (each in [0, 360)), position samples, locations set by hand, fallbacks
    and recomputations: the smoothed heading is in [0, 360), the sidereal
    time in [0, 2 pi), the buffer is either still the empty initial array or
    has the length of the catalog with at most one array ever allocated, an
    engine that is not initialised has an empty buffer, and once a position
    sample, a location or the fallback has occurred the engine is
    initialised for good. *)
Theorem engine_invariant (es : list Event) :
  Forall inRange es ->
  Inv STARS (run STARS es initial) /\
  (forall e, In e es ->
     match e with Heading _ | Recompute _ => False | _ => True end ->
     initialized (run STARS es initial) = true).
Proof.
  intros Hes. unfold run.
  assert (Hgen : forall s, Inv STARS s ->
            Inv STARS (fold_left (fun s e => apply STARS e s) es s)).
  { induction Hes as [|e es He Hes IH]; intros s Hs; simpl; [exact Hs|].
    apply IH. apply apply_Inv; assumption. }
  split; [apply Hgen, initial_Inv|].
  assert (Hkeep : forall l s, initialized s = true ->
            initialized (fold_left (fun s e => apply STARS e s) l s) = true).
  { induction l as [|e l IH]; intros s Hs; simpl; [exact Hs|].
    apply IH, apply_initialized, Hs. }
  clear Hes Hgen. generalize initial.
  induction es as [|e0 es IH]; intros s e Hin Hfix; [destruct Hin|].
  simpl. destruct Hin as [<-|Hin].
  - apply Hkeep. destruct e0; simpl; try reflexivity; contradiction.
  - apply (IH _ e Hin Hfix).
Qed.

End Engine.

(** The two-star catalog and an observer seeded by hand. *)
Lemma updateStarPositions_recomputes_witness :
  let s := setObserverLocation 0 0 initial in
  let s1 := updateStarPositions Demo.demoStars 0 s in
  length (starPositions s1) = 2%nat /\
  updateStarPositions Demo.demoStars 0 s1 = s1.
Proof.
  intros s s1.
  destruct (updateStarPositions_recomputes Demo.demoStars 0 s eq_refl)
    as (Hp & Hidem).
  fold s1 in Hp, Hidem. split; [rewrite Hp; reflexivity|exact Hidem].
Defined.

Lemma updateStarPositions_observer_witness :
  let s := setObserverLocation 0 0 initial in
  0 <= ObserverState.lstRadians
         (observer (updateStarPositions Demo.demoStars 0 s)) < 2 * PI.
Proof.
  intros s.
  destruct (updateStarPositions_observer Demo.demoStars 0 s eq_refl)
    as (_ & _ & _ & _ & _ & Hr).
  exact Hr.
Defined.

Lemma star_positions_on_sphere_witness :
  let s := setObserverLocation 0 0 initial in
  exists sp,
    starPositions (updateStarPositions Demo.demoStars 0 s) !! 1%nat = Some sp /\
    StarPosition3D.x sp * StarPosition3D.x sp
    + StarPosition3D.y sp * StarPosition3D.y sp
    + StarPosition3D.z sp * StarPosition3D.z sp = 500 * 500.
Proof.
  intros s.
  destruct (star_positions_on_sphere Demo.demoStars 0 s 1 Demo.Polaris
              eq_refl eq_refl) as (sp & Hl & Hn & _).
  exists sp. split; [exact Hl|exact Hn].
Defined.

(** A position fix, compass samples across north, two recomputations. *)
Lemma engine_invariant_witness :
  let s := run Demo.demoStars
             [Position 48 2 0; Heading 359; Recompute 0; Heading 1;
              Recompute 1000] initial in
  Inv Demo.demoStars s /\ initialized s = true.
Proof.
  intros s.
  destruct (engine_invariant Demo.demoStars
              [Position 48 2 0; Heading 359; Recompute 0; Heading 1;
               Recompute 1000]) as (Hinv & Hinit).
  - repeat constructor; simpl; lra.
  - split; [exact Hinv|].
    apply (Hinit (Position 48 2 0)); [left; reflexivity|exact I].
Defined.

End SkyEngineMore.

(** ** GazeAndHandController, further properties *)
Module GazeMore.
Import GazeAndHandController GazeAndHandPinch GazeFacts.

(** The loop returns either what it was started with, every centroid at or
    above the horizon being at least that far, or the first of the nearest
    such centroids, strictly nearer than the starting distance. *)
Lemma closestLoop_first_nearest obs gazeAlt gazeAz cs : forall abbr0 dist0,
  let r := closestLoop obs gazeAlt gazeAz cs abbr0 dist0 in
  (r = (abbr0, dist0) /\
   forall c, In c cs -> 0 <= fst (centroidAltAz obs c) ->
             dist0 <= centroidDistance obs gazeAlt gazeAz c) \/
  (exists before c after,
     cs = before ++ c :: after /\
     0 <= fst (centroidAltAz obs c) /\
     r = (ConstellationRecord.abbr c, centroidDistance obs gazeAlt gazeAz c) /\
     centroidDistance obs gazeAlt gazeAz c < dist0 /\
     (forall c', In c' before -> 0 <= fst (centroidAltAz obs c') ->
        centroidDistance obs gazeAlt gazeAz c
        < centroidDistance obs gazeAlt gazeAz c') /\
     (forall c', In c' after -> 0 <= fst (centroidAltAz obs c') ->
        centroidDistance obs gazeAlt gazeAz c
        <= centroidDistance obs gazeAlt gazeAz c')).
Proof.
  induction cs as [|c rest IH]; intros abbr0 dist0; cbv zeta.
  - left. split; [reflexivity|]. intros c [].
  - rewrite closestLoop_step.
    destruct (Rlt_dec (fst (centroidAltAz obs c)) 0) as [Hbelow|Habove].
    + destruct (IH abbr0 dist0) as [(Hr & Hfar)|(b & c1 & a & E & H1 & Hr & Hd & Hb & Ha)].
      * left. split; [exact Hr|]. intros c' [<-|Hin] H0; [lra|auto].
      * right. exists (c :: b), c1, a.
        split; [simpl; f_equal; exact E|]. split; [exact H1|]. split; [exact Hr|].
        split; [exact Hd|]. split; [|exact Ha].
        intros c' [<-|Hin] H0; [lra|auto].
    + destruct (Rlt_dec (centroidDistance obs gazeAlt gazeAz c) dist0)
        as [Hnear|Hfar0].
      * destruct (IH (ConstellationRecord.abbr c)
                     (centroidDistance obs gazeAlt gazeAz c))
          as [(Hr & Hfar)|(b & c1 & a & E & H1 & Hr & Hd & Hb & Ha)].
        -- right. exists [], c, rest.
           split; [reflexivity|]. split; [lra|]. split; [exact Hr|].
           split; [exact Hnear|]. split; [intros c' []|exact Hfar].
        -- right. exists (c :: b), c1, a.
           split; [simpl; f_equal; exact E|]. split; [exact H1|]. split; [exact Hr|].
           split; [lra|]. split; [|exact Ha].
           intros c' [<-|Hin] H0; [exact Hd|exact (Hb c' Hin H0)].
      * destruct (IH abbr0 dist0)
          as [(Hr & Hfar)|(b & c1 & a & E & H1 & Hr & Hd & Hb & Ha)].
        -- left. split; [exact Hr|].
           intros c' [<-|Hin] H0; [lra|auto].
        -- right. exists (c :: b), c1, a.
           split; [simpl; f_equal; exact E|]. split; [exact H1|]. split; [exact Hr|].
           split; [exact Hd|]. split; [|exact Ha].
           intros c' [<-|Hin] H0; [lra|auto].
Qed.

(** A tick with a candidate other than the empty string got past the
    guards and took it from the loop. *)
Lemma tickCandidate_from_loop cs f w A :
  tickCandidate cs f w = Some A -> A <> EmptyString ->
  let obs := SkyEngine.observer (engine w) in
  let sky := skyDirection (ObserverState.headingDeg obs) f in
  ~ skyLength sky < 1 / 1000 /\
  ~ fst (gazeAltAz sky) < -5 * (PI / 180) /\
  fst (closestLoop obs (fst (gazeAltAz sky)) (snd (gazeAltAz sky)) cs
         EmptyString GAZE_THRESHOLD_RAD) = A.
Proof.
  unfold tickCandidate, SkyEngine.getObserver. intros Hc HA. cbv zeta in *.
  destruct (negb (camera w) || negb (SkyEngine.isInitialized (engine w)));
    [discriminate|].
  destruct (Rlt_dec (skyLength _) _) as [|Hlen]; [discriminate|].
  destruct (Rlt_dec (fst (gazeAltAz _)) _) as [|Halt].
  - injection Hc as <-. contradiction.
  - injection Hc as Hc. auto.
Qed.

(** X16.  When a tick selects a region, the gaze is not below the -5 degree
    margin and the region is an entry of the catalog whose centroid is at
    or above the horizon and strictly inside the 8 degree threshold;
    every above-horizon centroid listed before it is strictly farther from
    the gaze and every one listed after it is at least as far: among
    equally near centroids the first of the catalog wins. *)
Theorem candidate_is_first_nearest cs f w A :
  tickCandidate cs f w = Some A -> A <> EmptyString ->
  let obs := SkyEngine.observer (engine w) in
  let sky := skyDirection (ObserverState.headingDeg obs) f in
  let gazeAlt := fst (gazeAltAz sky) in
  let gazeAz := snd (gazeAltAz sky) in
  ~ gazeAlt < -5 * (PI / 180) /\
  exists before c after,
    cs = before ++ c :: after /\
    ConstellationRecord.abbr c = A /\
    0 <= fst (centroidAltAz obs c) /\
    centroidDistance obs gazeAlt gazeAz c < GAZE_THRESHOLD_RAD /\
    (forall c', In c' before -> 0 <= fst (centroidAltAz obs c') ->
       centroidDistance obs gazeAlt gazeAz c
       < centroidDistance obs gazeAlt gazeAz c') /\
    (forall c', In c' after -> 0 <= fst (centroidAltAz obs c') ->
       centroidDistance obs gazeAlt gazeAz c
       <= centroidDistance obs gazeAlt gazeAz c').
Proof.
  intros Hc HA obs sky gazeAlt gazeAz.
  destruct (tickCandidate_from_loop cs f w A Hc HA) as (_ & Halt & Hloop).
  fold obs sky gazeAlt gazeAz in Halt, Hloop.
  split; [exact Halt|].
  destruct (closestLoop_first_nearest obs gazeAlt gazeAz cs EmptyString
              GAZE_THRESHOLD_RAD)
    as [(Hr & _)|(b & c & a & E & H0 & Hr & Hd & Hb & Ha)]; cbv zeta in *.
  - rewrite Hr in Hloop. simpl in Hloop. symmetry in Hloop. contradiction.
  - exists b, c, a. rewrite Hr in Hloop. simpl in Hloop.
    repeat split; assumption.
Qed.

(** The north region in the small sky. *)
Lemma candidate_is_first_nearest_witness :
  exists before c after,
    Demo.demoSky = before ++ c :: after /\
    ConstellationRecord.abbr c = "UMi".
Proof.
  destruct (candidate_is_first_nearest Demo.demoSky Demo.lookNorth
              Demo.demoWorld "UMi")
    as (_ & b & c & a & E & Hab & _).
  - apply candidate_north; reflexivity.
  - discriminate.
  - exists b, c, a. split; assumption.
Defined.

Lemma updateHighlight_selected c dt w :
  onConstellationSelected (updateHighlight c dt w) = onConstellationSelected w.
Proof.
  unfold updateHighlight, clearGaze.
  repeat (destruct (decide _) || destruct (Rle_dec _ _)); reflexivity.
Qed.

Lemma updateHighlight_matched A dt w :
  A <> EmptyString -> currentGazeConstellation (updateHighlight A dt w) = A.
Proof.
  intros HA. unfold updateHighlight.
  destruct (decide (A <> currentGazeConstellation w)) as [Hne|He].
  - destruct (decide (A = EmptyString)); [contradiction|reflexivity].
  - destruct (decide (A <> EmptyString)); [|contradiction].
    destruct (Rle_dec _ _); simpl;
      (destruct (decide (A = currentGazeConstellation w));
       [symmetry; assumption|contradiction]).
Qed.

Lemma clearGaze_unmatched w : currentGazeConstellation (clearGaze w) = EmptyString.
Proof.
  unfold clearGaze.
  destruct (decide (currentGazeConstellation w <> EmptyString)) as [|He];
    [reflexivity|].
  destruct (decide (currentGazeConstellation w = EmptyString));
    [assumption|contradiction].
Qed.

Lemma find_abbr_first (A : string) (cs : list ConstellationRecord.t) :
  (exists c, In c cs /\ ConstellationRecord.abbr c = A) ->
  exists before c after,
    cs = before ++ c :: after /\ ConstellationRecord.abbr c = A /\
    (forall c', In c' before -> ConstellationRecord.abbr c' <> A) /\
    find (fun con => bool_decide (ConstellationRecord.abbr con = A)) cs
    = Some c.
Proof.
  induction cs as [|c0 rest IH]; intros (c & Hin & Hab); [destruct Hin|].
  simpl. destruct (decide (ConstellationRecord.abbr c0 = A)) as [E0|N0].
  - exists [], c0, rest. rewrite bool_decide_eq_true_2 by exact E0.
    split; [reflexivity|]. split; [exact E0|].
    split; [intros c' []|reflexivity].
  - rewrite bool_decide_eq_false_2 by exact N0.
    destruct Hin as [<-|Hin]; [contradiction|].
    destruct (IH (ex_intro _ c (conj Hin Hab))) as (b & c1 & a & E & H1 & Hb & Hf).
    exists (c0 :: b), c1, a.
    split; [simpl; f_equal; exact E|]. split; [exact H1|].
    split; [intros c' [<-|Hc']; auto|exact Hf].
Qed.

(** X17.  With the selection callback registered, a right-hand pinch
    straight after a tick that selected a region calls the callback with
    that region's abbreviation and the name of the first catalog entry
    carrying it: whatever the elapsed time, no hold delay is needed, and
    whatever is highlighted.  After a tick without candidate the pinch
    calls nothing. *)
Theorem pinch_selects_matched cs f dt w :
  onConstellationSelected w = true ->
  (forall A, tickCandidate cs f w = Some A -> A <> EmptyString ->
     exists before c after,
       cs = before ++ c :: after /\ ConstellationRecord.abbr c = A /\
       (forall c', In c' before -> ConstellationRecord.abbr c' <> A) /\
       pinchRight cs (updateGaze cs f dt w)
       = Some (A, ConstellationRecord.name c)) /\
  (tickCandidate cs f w = Some EmptyString ->
   pinchRight cs (updateGaze cs f dt w) = None).
Proof.
  intros Hcb. split.
  - intros A Hc HA.
    assert (Hin : exists c, In c cs /\ ConstellationRecord.abbr c = A).
    { destruct (tickCandidate_from_loop cs f w A Hc HA) as (_ & _ & Hloop).
      cbv zeta in Hloop.
      destruct (closestLoop_first_nearest (SkyEngine.observer (engine w))
                  (fst (gazeAltAz (skyDirection
                     (ObserverState.headingDeg (SkyEngine.observer (engine w))) f)))
                  (snd (gazeAltAz (skyDirection
                     (ObserverState.headingDeg (SkyEngine.observer (engine w))) f)))
                  cs EmptyString GAZE_THRESHOLD_RAD)
        as [(Hr & _)|(b & c & a & E & _ & Hr & _)]; cbv zeta in *.
      - rewrite Hr in Hloop. simpl in Hloop. symmetry in Hloop. contradiction.
      - exists c. rewrite Hr in Hloop. simpl in Hloop.
        split; [rewrite E; apply in_elt|exact Hloop]. }
    destruct (find_abbr_first A cs Hin) as (b & c & a & E & Hab & Hb & Hf).
    exists b, c, a. split; [exact E|]. split; [exact Hab|]. split; [exact Hb|].
    rewrite updateGaze_tickCandidate, Hc. unfold pinchRight.
    rewrite (updateHighlight_matched A dt w HA), updateHighlight_selected, Hcb.
    destruct (decide (A <> EmptyString)); [|contradiction].
    rewrite Hf, Hab. reflexivity.
  - intros Hc. rewrite updateGaze_tickCandidate, Hc, updateHighlight_empty.
    unfold pinchRight. rewrite clearGaze_unmatched.
    destruct (decide (EmptyString <> EmptyString)); [contradiction|reflexivity].
Qed.

(** One tick toward the north region, then a pinch. *)
Lemma pinch_selects_matched_witness :
  pinchRight Demo.demoSky
    (updateGaze Demo.demoSky Demo.lookNorth (1 / 60) Demo.demoWorld)
  = Some ("UMi", "Ursa Minor").
Proof.
  destruct (pinch_selects_matched Demo.demoSky Demo.lookNorth (1 / 60)
              Demo.demoWorld eq_refl) as (Hsel & _).
  destruct (Hsel "UMi") as (b & c & a & E & Hab & Hb & Hp).
  - apply candidate_north; reflexivity.
  - discriminate.
  - rewrite Hp. f_equal. f_equal.
    destruct b as [|c0 b].
    + injection E as <- _. reflexivity.
    + exfalso. injection E as <- _. apply (Hb Demo.UMi); [left; reflexivity|].
      reflexivity.
Defined.

Lemma clearGaze_Idle w : Idle w -> Idle (clearGaze w).
Proof.
  intros Hi. unfold clearGaze.
  destruct (decide (currentGazeConstellation w <> EmptyString));
    [|exact Hi].
  intros _. split; reflexivity.
Qed.

Lemma updateHighlight_Idle c dt w :
  Idle w -> Idle (updateHighlight c dt w).
Proof.
  intros Hi.
  destruct (decide (c = EmptyString)) as [->|Hc].
  - rewrite updateHighlight_empty. apply clearGaze_Idle, Hi.
  - intros E. rewrite (updateHighlight_matched c dt w Hc) in E. contradiction.
Qed.

Lemma updateHighlight_hold_nonneg c dt w :
  0 <= dt -> 0 <= gazeHoldTime w -> 0 <= gazeHoldTime (updateHighlight c dt w).
Proof.
  intros Hdt Hh. unfold updateHighlight, clearGaze.
  repeat (destruct (decide _) || destruct (Rle_dec _ _)); simpl; lra.
Qed.

(** X18.  Over any run of ticks, whatever the camera does: if at the start
    "no region matched" went with a zero hold time and an empty highlight,
    it does so at the end, so the highlight never outlives the gaze leaving
    every region; and with elapsed times that are not negative a hold time
    that is not negative stays so. *)
Theorem gaze_invariant cs (ticks : list ((R * R * R) * R)) (w : World) :
  Idle w -> 0 <= gazeHoldTime w ->
  (forall t, In t ticks -> 0 <= snd t) ->
  Idle (runTicks cs ticks w) /\ 0 <= gazeHoldTime (runTicks cs ticks w).
Proof.
  revert w. induction ticks as [|[f dt] rest IH]; intros w Hi Hh Hdt.
  - split; assumption.
  - rewrite runTicks_cons. simpl fst. simpl snd.
    assert (Hd : 0 <= dt) by (apply (Hdt (f, dt)); left; reflexivity).
    apply IH.
    + rewrite updateGaze_tickCandidate.
      destruct (tickCandidate cs f w); [apply updateHighlight_Idle|]; exact Hi.
    + rewrite updateGaze_tickCandidate.
      destruct (tickCandidate cs f w);
        [apply updateHighlight_hold_nonneg|]; assumption.
    + intros t Hin. apply Hdt. right. exact Hin.
Qed.

(** A fresh controller, a look north, a look east, a look up. *)
Lemma gaze_invariant_witness :
  Idle (runTicks Demo.demoSky
          [(Demo.lookNorth, 1 / 60); (Demo.lookEast, 1 / 2);
           (Demo.lookUp, 1 / 60)] Demo.demoWorld).
Proof.
  apply (gaze_invariant Demo.demoSky
           [(Demo.lookNorth, 1 / 60); (Demo.lookEast, 1 / 2);
            (Demo.lookUp, 1 / 60)] Demo.demoWorld).
  - intros _. split; reflexivity.
  - simpl. lra.
  - intros t [<-|[<-|[<-|[]]]]; simpl; lra.
Defined.

(** X19.  A tick that selects a region other than the matched one makes it
    the matched region with hold time zero and calls nothing: whatever was
    highlighted, the previous region included, stays highlighted.  From
    there a tick without candidate clears the highlight, and ticks that
    stay on the new region for the hold delay move the highlight to it. *)
Theorem highlight_survives_switch cs f dt w B :
  tickCandidate cs f w = Some B -> B <> EmptyString ->
  B <> currentGazeConstellation w ->
  let w1 := updateGaze cs f dt w in
  currentGazeConstellation w1 = B /\ gazeHoldTime w1 = 0 /\
  highlighted w1 = highlighted w /\ trace w1 = trace w /\
  (forall f' dt', tickCandidate cs f' w = Some EmptyString ->
     highlighted (updateGaze cs f' dt' w1) = EmptyString) /\
  (forall f' dt', tickCandidate cs f' w = Some B ->
     GAZE_HOLD_DELAY <= dt' ->
     highlighted (updateGaze cs f' dt' w1) = B).
Proof.
  intros Hc HB Hne w1.
  assert (E1 : w1 = mkWorld (engine w) (renderer w) (camera w)
                      (onConstellationSelected w)
                      (onConstellationDeselected w) B 0 (trace w)).
  { subst w1. rewrite updateGaze_tickCandidate, Hc.
    apply updateHighlight_enter; assumption. }
  assert (Hframe : forall f', tickCandidate cs f' w1 = tickCandidate cs f' w).
  { intros f'. apply tickCandidate_frame; rewrite E1; reflexivity. }
  split; [rewrite E1; reflexivity|]. split; [rewrite E1; reflexivity|].
  split; [rewrite E1; reflexivity|]. split; [rewrite E1; reflexivity|].
  split.
  - intros f' dt' Hn.
    rewrite updateGaze_tickCandidate, Hframe, Hn, updateHighlight_empty.
    rewrite clearGaze_matched by (rewrite E1; exact HB). reflexivity.
  - intros f' dt' Hs Hlong.
    rewrite updateGaze_tickCandidate, Hframe, Hs.
    rewrite (updateHighlight_hold B dt' w1) by (try rewrite E1; auto).
    assert (Hh : gazeHoldTime w1 = 0) by (rewrite E1; reflexivity).
    rewrite Hh. destruct (Rle_dec _ _) as [_|Hx]; [reflexivity|exfalso; lra].
Qed.

(** The north region confirmed, then a look east: the east region is the
    matched one while the north region is still the highlighted one. *)
Lemma highlight_survives_switch_witness :
  let w := mkWorld Demo.demoEngine (SkyRenderer.mkState "UMi") true true true
                   "UMi" 1 [] in
  let w1 := updateGaze Demo.demoSky Demo.lookEast (1 / 60) w in
  currentGazeConstellation w1 = "Ori" /\ highlighted w1 = "UMi".
Proof.
  intros w w1.
  destruct (highlight_survives_switch Demo.demoSky Demo.lookEast (1 / 60) w "Ori")
    as (Hc & _ & Hh & _).
  - apply candidate_east; reflexivity.
  - discriminate.
  - discriminate.
  - split; [exact Hc|exact Hh].
Defined.

End GazeMore.

(** ** StarData and SkyRenderer: the index and the two meshes *)
Module SkyRendererMeshFacts.
Import StarData SkyRendererMeshes.

(** What the loop that fills the index leaves at a key. *)
Lemma hipToIndexFrom_spec (stars : list StarRecord.t) : forall i m h,
  match hipToIndexFrom i stars m !! h with
  | Some k =>
      (m !! h = Some k /\
       forall j s, stars !! j = Some s -> StarRecord.hip s <> h) \/
      (exists j s, stars !! j = Some s /\ StarRecord.hip s = h /\
         k = (i + j)%nat /\
         forall j' s', stars !! j' = Some s' -> StarRecord.hip s' = h ->
                       (j' <= j)%nat)
  | None =>
      m !! h = None /\
      forall j s, stars !! j = Some s -> StarRecord.hip s <> h
  end.
Proof.
  induction stars as [|s rest IH]; intros i m h; simpl.
  - destruct (m !! h) as [k|] eqn:E.
    + left. split; [reflexivity|]. intros j s Hj. discriminate.
    + split; [reflexivity|]. intros j s Hj. discriminate.
  - specialize (IH (S i) (<[StarRecord.hip s := i]> m) h).
    destruct (hipToIndexFrom (S i) rest (<[StarRecord.hip s := i]> m) !! h)
      as [k|].
    + destruct IH as [(Hm & Hno)|(j & s' & Hj & Hh & Hk & Hlast)].
      * rewrite lookup_insert in Hm.
        destruct (decide (StarRecord.hip s = h)) as [Heq|Hne].
        -- right. exists 0%nat, s. inversion Hm; subst k.
           split; [reflexivity|]. split; [exact Heq|]. split; [lia|].
           intros [|j'] s' Hj' Hh'; [lia|]. simpl in Hj'.
           exfalso. exact (Hno j' s' Hj' Hh').
        -- left. split; [exact Hm|].
           intros [|j] s' Hj; simpl in Hj.
           ++ inversion Hj; subst s'. exact Hne.
           ++ exact (Hno j s' Hj).
      * right. exists (S j), s'. split; [exact Hj|]. split; [exact Hh|].
        split; [lia|].
        intros [|j'] s'' Hj' Hh'; [lia|]. simpl in Hj'.
        specialize (Hlast j' s'' Hj' Hh'). lia.
    + destruct IH as (Hm & Hno). rewrite lookup_insert in Hm.
      destruct (decide (StarRecord.hip s = h)) as [Heq|Hne]; [discriminate|].
      split; [exact Hm|].
      intros [|j] s' Hj; simpl in Hj.
      * inversion Hj; subst s'. exact Hne.
      * exact (Hno j s' Hj).
Qed.

Lemma HIP_TO_INDEX_Some (STARS : list StarRecord.t) (h : Z) (i : nat) :
  HIP_TO_INDEX STARS !! h = Some i ->
  (exists s, STARS !! i = Some s /\ StarRecord.hip s = h) /\
  (forall j s, STARS !! j = Some s -> StarRecord.hip s = h -> (j <= i)%nat).
Proof.
  intros H. unfold HIP_TO_INDEX in H.
  pose proof (hipToIndexFrom_spec STARS 0 ∅ h) as Hs. rewrite H in Hs.
  destruct Hs as [(Hm & _)|(j & s & Hj & Hh & Hk & Hlast)].
  - rewrite lookup_empty in Hm. discriminate.
  - simpl in Hk. subst i. split; [exists s; split; assumption|exact Hlast].
Qed.

Lemma HIP_TO_INDEX_None (STARS : list StarRecord.t) (h : Z) :
  HIP_TO_INDEX STARS !! h = None <->
  forall j s, STARS !! j = Some s -> StarRecord.hip s <> h.
Proof.
  unfold HIP_TO_INDEX.
  pose proof (hipToIndexFrom_spec STARS 0 ∅ h) as Hs.
  destruct (hipToIndexFrom 0 STARS ∅ !! h) as [k|].
  - split; [discriminate|]. intros Hno. exfalso.
    destruct Hs as [(Hm & _)|(j & s & Hj & Hh & _)].
    + rewrite lookup_empty in Hm. discriminate.
    + exact (Hno j s Hj Hh).
  - split; [intros _; exact (proj2 Hs)|reflexivity].
Qed.

Lemma HIP_TO_INDEX_bound (STARS : list StarRecord.t) (h : Z) (i : nat) :
  HIP_TO_INDEX STARS !! h = Some i -> (i < length STARS)%nat.
Proof.
  intros H. destruct (HIP_TO_INDEX_Some STARS h i H) as ((s & Hs & _) & _).
  apply lookup_lt_Some in Hs. exact Hs.
Qed.

(** *** The first loop of [updateMeshes] *)

Lemma updateStars_prefix (ps : list StarPosition3D.t) : forall pre verts,
  (length ps <= length verts)%nat ->
  updateStars (length pre) ps (pre ++ verts)
  = pre ++ map starVertex ps ++ drop (length ps) verts.
Proof.
  induction ps as [|sp rest IH]; intros pre verts Hlen; simpl.
  - rewrite drop_0. reflexivity.
  - destruct verts as [|v verts]; [simpl in Hlen; lia|].
    rewrite insert_app_r_alt by lia. rewrite Nat.sub_diag. simpl.
    replace (S (length pre)) with (length (pre ++ [starVertex sp]))
      by (rewrite length_app; simpl; lia).
    replace (pre ++ starVertex sp :: verts)
      with ((pre ++ [starVertex sp]) ++ verts)
      by (rewrite <- app_assoc; reflexivity).
    rewrite IH by (simpl in Hlen; lia).
    rewrite <- app_assoc. reflexivity.
Qed.

Lemma updateStars_all (ps : list StarPosition3D.t) (verts : list Vertex) :
  length verts = length ps -> updateStars 0 ps verts = map starVertex ps.
Proof.
  intros Hlen.
  pose proof (updateStars_prefix ps [] verts) as H. simpl in H.
  rewrite H by lia. rewrite <- Hlen, drop_all, app_nil_r. reflexivity.
Qed.

(** *** The second loop of [updateMeshes] *)

Lemma lineVertices_app positions hip (a b : list (bool * list Z)) :
  lineVertices positions hip (a ++ b)
  = match lineVertices positions hip a, lineVertices positions hip b with
    | Some va, Some vb => Some (va ++ vb)
    | _, _ => None
    end.
Proof.
  induction a as [|[hl seg] a IH]; simpl.
  - destruct (lineVertices positions hip b); reflexivity.
  - destruct (segmentVertices positions hip hl seg) as [[v1 v2]|];
      [|reflexivity].
    rewrite IH.
    destruct (lineVertices positions hip a); [|reflexivity].
    destruct (lineVertices positions hip b); reflexivity.
Qed.

Lemma lineVertices_length positions hip (segs : list (bool * list Z)) vs :
  lineVertices positions hip segs = Some vs ->
  length vs = (2 * length segs)%nat.
Proof.
  revert vs. induction segs as [|[hl seg] segs IH]; intros vs H; simpl in H.
  - inversion H. reflexivity.
  - destruct (segmentVertices positions hip hl seg) as [[v1 v2]|];
      [|discriminate].
    destruct (lineVertices positions hip segs) as [vs'|]; [|discriminate].
    inversion H; subst vs. simpl. rewrite (IH vs' eq_refl). lia.
Qed.

Lemma lineVertices_lookup positions hip (segs : list (bool * list Z)) vs :
  lineVertices positions hip segs = Some vs ->
  forall k hl seg, segs !! k = Some (hl, seg) ->
  exists v1 v2,
    segmentVertices positions hip hl seg = Some (v1, v2) /\
    vs !! (2 * k)%nat = Some v1 /\ vs !! (2 * k + 1)%nat = Some v2.
Proof.
  revert vs. induction segs as [|[hl0 seg0] segs IH]; intros vs H k hl seg Hk.
  - discriminate.
  - simpl in H.
    destruct (segmentVertices positions hip hl0 seg0) as [[v1 v2]|] eqn:E;
      [|discriminate].
    destruct (lineVertices positions hip segs) as [vs'|]; [|discriminate].
    inversion H; subst vs. destruct k as [|k]; simpl in Hk.
    + inversion Hk; subst hl0 seg0. exists v1, v2.
      split; [exact E|]. split; reflexivity.
    + destruct (IH vs' eq_refl k hl seg Hk) as (w1 & w2 & Hs & H1 & H2).
      exists w1, w2. split; [exact Hs|].
      replace (2 * S k)%nat with (S (S (2 * k))) by lia.
      replace (S (S (2 * k)) + 1)%nat with (S (S (2 * k + 1))) by lia.
      split; [exact H1|exact H2].
Qed.

Lemma updateSegments_prefix positions hip hl (lines : list (list Z)) :
  forall pre verts,
  (2 * length lines <= length verts)%nat ->
  updateSegments positions hip hl lines (length pre) (pre ++ verts)
  = match lineVertices positions hip (map (fun seg => (hl, seg)) lines) with
    | Some vs =>
        Some ((length pre + 2 * length lines)%nat,
              pre ++ vs ++ drop (2 * length lines) verts)
    | None => None
    end.
Proof.
  induction lines as [|seg rest IH]; intros pre verts Hlen; simpl.
  - rewrite drop_0, Nat.add_0_r. reflexivity.
  - destruct (segmentVertices positions hip hl seg) as [[v1 v2]|];
      [|reflexivity].
    destruct verts as [|a [|b verts]]; simpl in Hlen; try lia.
    rewrite (insert_app_r_alt pre _ (length pre)) by lia.
    rewrite Nat.sub_diag. simpl.
    rewrite insert_app_r_alt by lia.
    replace (length pre + 1 - length pre)%nat with 1%nat by lia. simpl.
    replace (length pre + 2)%nat with (length (pre ++ [v1; v2]))
      by (rewrite length_app; reflexivity).
    replace (pre ++ v1 :: v2 :: verts) with ((pre ++ [v1; v2]) ++ verts)
      by (rewrite <- app_assoc; reflexivity).
    rewrite IH by lia.
    destruct (lineVertices positions hip (map (fun seg => (hl, seg)) rest))
      as [vs|]; [|reflexivity].
    rewrite length_app. simpl. rewrite <- app_assoc. simpl.
    f_equal. f_equal; [lia|].
    f_equal. f_equal. f_equal. f_equal.
    replace (length rest + S (length rest + 0))%nat
      with (S (2 * length rest)) by lia.
    reflexivity.
Qed.

Lemma length_allSegments hl (cs : list ConstellationRecord.t) :
  length (allSegments hl cs) = segmentCount cs.
Proof.
  unfold allSegments, segmentCount.
  induction cs as [|c cs IH]; simpl; [reflexivity|].
  rewrite !length_app, length_map, IH. reflexivity.
Qed.

Lemma updateLines_prefix positions hip hl (cs : list ConstellationRecord.t) :
  forall pre verts,
  (2 * segmentCount cs <= length verts)%nat ->
  updateLines positions hip hl cs (length pre) (pre ++ verts)
  = match lineVertices positions hip (allSegments hl cs) with
    | Some vs => Some (pre ++ vs ++ drop (2 * segmentCount cs) verts)
    | None => None
    end.
Proof.
  induction cs as [|c rest IH]; intros pre verts Hlen.
  - simpl. rewrite drop_0. reflexivity.
  - assert (Hc : segmentCount (c :: rest)
                 = (length (ConstellationRecord.lines c)
                    + segmentCount rest)%nat).
    { unfold segmentCount. simpl. rewrite length_app. reflexivity. }
    rewrite Hc in *.
    change (allSegments hl (c :: rest))
      with (map (fun seg =>
                   (bool_decide (ConstellationRecord.abbr c = hl), seg))
                (ConstellationRecord.lines c) ++ allSegments hl rest).
    rewrite lineVertices_app. cbn [updateLines].
    rewrite updateSegments_prefix by lia.
    destruct (lineVertices positions hip
                (map (fun seg =>
                        (bool_decide (ConstellationRecord.abbr c = hl), seg))
                     (ConstellationRecord.lines c))) as [va|] eqn:Ea;
      [|reflexivity].
    pose proof (lineVertices_length _ _ _ _ Ea) as Hla.
    rewrite length_map in Hla.
    replace (length pre + 2 * length (ConstellationRecord.lines c))%nat
      with (length (pre ++ va)) by (rewrite length_app; lia).
    rewrite (app_assoc pre va).
    rewrite IH by (rewrite length_drop; lia).
    destruct (lineVertices positions hip (allSegments hl rest)) as [vb|];
      [|reflexivity].
    rewrite drop_drop, <- !app_assoc.
    replace (2 * (length (ConstellationRecord.lines c) + segmentCount rest))%nat
      with (2 * length (ConstellationRecord.lines c)
            + 2 * segmentCount rest)%nat by lia.
    reflexivity.
Qed.

Lemma updateLines_all positions hip hl (cs : list ConstellationRecord.t)
    (verts : list Vertex) :
  length verts = (2 * segmentCount cs)%nat ->
  updateLines positions hip hl cs 0 verts
  = lineVertices positions hip (allSegments hl cs).
Proof.
  intros Hlen.
  change (updateLines positions hip hl cs (length (@nil Vertex)) ([] ++ verts)
          = lineVertices positions hip (allSegments hl cs)).
  rewrite updateLines_prefix by lia.
  destruct (lineVertices positions hip (allSegments hl cs)); [|reflexivity].
  rewrite <- Hlen, drop_all, app_nil_r. reflexivity.
Qed.

(** With every index of the map inside [positions], no segment raises. *)
Lemma segmentVertices_Some positions (hip : gmap Z nat) hl seg :
  (forall h i, hip !! h = Some i -> (i < length positions)%nat) ->
  exists v1 v2, segmentVertices positions hip hl seg = Some (v1, v2).
Proof.
  intros Hb. unfold segmentVertices.
  destruct (seg !! 0%nat ≫= fun h => hip !! h) as [i1|] eqn:E1;
    [|eexists _, _; reflexivity].
  destruct (seg !! 1%nat ≫= fun h => hip !! h) as [i2|] eqn:E2;
    [|eexists _, _; reflexivity].
  assert (H1 : (i1 < length positions)%nat).
  { destruct (seg !! 0%nat) as [h|]; [|discriminate]. exact (Hb h i1 E1). }
  assert (H2 : (i2 < length positions)%nat).
  { destruct (seg !! 1%nat) as [h|]; [|discriminate]. exact (Hb h i2 E2). }
  destruct (lookup_lt_is_Some_2 positions i1 H1) as (s1 & ->).
  destruct (lookup_lt_is_Some_2 positions i2 H2) as (s2 & ->).
  eexists _, _. reflexivity.
Qed.

Lemma lineVertices_Some positions (hip : gmap Z nat) segs :
  (forall h i, hip !! h = Some i -> (i < length positions)%nat) ->
  exists vs, lineVertices positions hip segs = Some vs.
Proof.
  intros Hb. induction segs as [|[hl seg] segs (vs & IH)]; simpl.
  - eexists. reflexivity.
  - destruct (segmentVertices_Some positions hip hl seg Hb) as (v1 & v2 & ->).
    rewrite IH. eexists. reflexivity.
Qed.

(** The flat position of segment [k] of constellation [ci]. *)
Lemma allSegments_lookup hl (cs : list ConstellationRecord.t) :
  forall ci c k seg,
  cs !! ci = Some c -> ConstellationRecord.lines c !! k = Some seg ->
  allSegments hl cs !! (segmentCount (take ci cs) + k)%nat
  = Some (bool_decide (ConstellationRecord.abbr c = hl), seg).
Proof.
  induction cs as [|c0 rest IH]; intros ci c k seg Hc Hk; [discriminate|].
  change (allSegments hl (c0 :: rest))
    with (map (fun seg =>
                 (bool_decide (ConstellationRecord.abbr c0 = hl), seg))
              (ConstellationRecord.lines c0) ++ allSegments hl rest).
  destruct ci as [|ci]; simpl in Hc.
  - inversion Hc; subst c0. simpl.
    rewrite lookup_app_l
      by (rewrite length_map; apply lookup_lt_Some in Hk; exact Hk).
    rewrite list_lookup_fmap, Hk. reflexivity.
  - assert (Hs : segmentCount (take (S ci) (c0 :: rest))
                 = (length (ConstellationRecord.lines c0)
                    + segmentCount (take ci rest))%nat).
    { unfold segmentCount. simpl. rewrite length_app. reflexivity. }
    rewrite Hs. rewrite lookup_app_r by (rewrite length_map; lia).
    rewrite length_map.
    replace (length (ConstellationRecord.lines c0)
             + segmentCount (take ci rest) + k
             - length (ConstellationRecord.lines c0))%nat
      with (segmentCount (take ci rest) + k)%nat by lia.
    exact (IH ci c k seg Hc Hk).
Qed.

(** *** [init] *)

Lemma initSegments_eq (lines : list (list Z)) :
  forall vertIdx lv li total,
  initSegments lines vertIdx lv li total
  = ((vertIdx + 2 * length lines)%nat,
     lv ++ replicate (2 * length lines) lineBlank,
     li ++ seq vertIdx (2 * length lines),
     (total + length lines)%nat).
Proof.
  induction lines as [|seg rest IH]; intros vertIdx lv li total.
  - simpl. rewrite !app_nil_r, !Nat.add_0_r. reflexivity.
  - cbn [initSegments]. rewrite IH. rewrite <- !app_assoc.
    replace (2 * length (seg :: rest))%nat
      with (S (S (2 * length rest))) by (simpl; lia).
    cbn [replicate seq app length].
    replace (vertIdx + 2)%nat with (S (S vertIdx)) by lia.
    replace (vertIdx + 1)%nat with (S vertIdx) by lia.
    replace (S (S vertIdx) + 2 * length rest)%nat
      with (vertIdx + S (S (2 * length rest)))%nat by lia.
    replace (S total + length rest)%nat
      with (total + S (length rest))%nat by lia.
    reflexivity.
Qed.

Lemma initLines_eq (cs : list ConstellationRecord.t) :
  forall vertIdx lv li total offsets,
  initLines cs vertIdx lv li total offsets
  = (lv ++ replicate (2 * segmentCount cs) lineBlank,
     li ++ seq vertIdx (2 * segmentCount cs),
     (total + segmentCount cs)%nat,
     offsets ++ map (fun ci => (vertIdx + 2 * segmentCount (take ci cs))%nat)
                    (seq 0 (length cs))).
Proof.
  induction cs as [|c rest IH]; intros vertIdx lv li total offsets.
  - simpl. rewrite !app_nil_r, Nat.add_0_r. reflexivity.
  - cbn [initLines]. rewrite initSegments_eq. rewrite IH.
    assert (Hc : segmentCount (c :: rest)
                 = (length (ConstellationRecord.lines c)
                    + segmentCount rest)%nat).
    { unfold segmentCount. simpl. rewrite length_app. reflexivity. }
    rewrite Hc. rewrite <- !app_assoc.
    replace (2 * (length (ConstellationRecord.lines c) + segmentCount rest))%nat
      with (2 * length (ConstellationRecord.lines c)
            + 2 * segmentCount rest)%nat by lia.
    rewrite replicate_add, seq_app.
    rewrite Nat.add_assoc.
    assert (Ho : map (fun ci =>
                        (vertIdx + 2 * segmentCount (take ci (c :: rest)))%nat)
                     (seq 0 (length (c :: rest)))
                 = [vertIdx] ++
                   map (fun ci =>
                          (vertIdx + 2 * length (ConstellationRecord.lines c)
                           + 2 * segmentCount (take ci rest))%nat)
                       (seq 0 (length rest))).
    { cbn [length seq map take app].
      f_equal; [unfold segmentCount; simpl; lia|].
      rewrite <- seq_shift, map_map.
      apply map_ext. intros ci.
      assert (Hs : segmentCount (take (S ci) (c :: rest))
                   = (length (ConstellationRecord.lines c)
                      + segmentCount (take ci rest))%nat).
      { unfold segmentCount. simpl. rewrite length_app. reflexivity. }
      rewrite Hs. lia. }
    rewrite Ho. reflexivity.
Qed.

Lemma init_eq STARS CS m0 :
  init STARS CS m0
  = mkState
      (Some (mkMesh (replicate (length STARS) starBlank)
                    (seq 0 (length STARS))))
      (Some (mkMesh (replicate (2 * segmentCount CS) lineBlank)
                    (seq 0 (2 * segmentCount CS))))
      (segmentCount CS)
      (map (fun ci => (2 * segmentCount (take ci CS))%nat)
           (seq 0 (length CS))).
Proof.
  unfold init. rewrite initLines_eq. reflexivity.
Qed.

Lemma init_Laid STARS CS m0 : Laid STARS CS (init STARS CS m0).
Proof.
  rewrite init_eq. eexists _, _.
  split; [reflexivity|]. split; [reflexivity|]. simpl.
  rewrite !length_replicate. repeat split; reflexivity.
Qed.

(** *** [updateMeshes] on a laid-out renderer *)

Lemma updateMeshes_eq STARS CS positions hl m sm lm :
  starMeshBuilder m = Some sm -> lineMeshBuilder m = Some lm ->
  length (vertices sm) = length STARS ->
  length (vertices lm) = (2 * segmentCount CS)%nat ->
  length positions = length STARS -> positions <> [] ->
  exists vs,
    lineVertices positions (HIP_TO_INDEX STARS) (allSegments hl CS) = Some vs /\
    updateMeshes CS (HIP_TO_INDEX STARS) positions hl m
    = Some (mkState (Some (mkMesh (map starVertex positions) (indices sm)))
                    (Some (mkMesh vs (indices lm)))
                    (totalLineSegments m) (constellationSegmentOffsets m)).
Proof.
  intros Hsm Hlm Hls Hll Hp Hne.
  destruct (lineVertices_Some positions (HIP_TO_INDEX STARS)
              (allSegments hl CS)) as (vs & Hvs).
  { intros h i Hi. rewrite Hp. exact (HIP_TO_INDEX_bound STARS h i Hi). }
  exists vs. split; [exact Hvs|].
  unfold updateMeshes. rewrite Hsm, Hlm.
  destruct (decide (length positions = 0%nat)) as [H0|_].
  { destruct positions; [contradiction|discriminate]. }
  rewrite updateStars_all by lia.
  rewrite updateLines_all by exact Hll.
  rewrite Hvs. reflexivity.
Qed.

Lemma updateMeshes_Laid STARS CS positions hl m :
  Laid STARS CS m ->
  positions = [] \/ length positions = length STARS ->
  exists m', updateMeshes CS (HIP_TO_INDEX STARS) positions hl m = Some m' /\
             Laid STARS CS m' /\
             (positions = [] -> m' = m).
Proof.
  intros (sm & lm & Hsm & Hlm & Hls & His & Hll & Hil & Ht & Ho) Hp.
  destruct positions as [|sp ps].
  - exists m. unfold updateMeshes. rewrite Hsm, Hlm. simpl.
    split; [reflexivity|]. split; [|reflexivity].
    exists sm, lm. repeat split; assumption.
  - destruct Hp as [Hp|Hp]; [discriminate|].
    destruct (updateMeshes_eq STARS CS (sp :: ps) hl m sm lm
                Hsm Hlm Hls Hll Hp) as (vs & Hvs & E); [discriminate|].
    eexists. split; [exact E|]. split; [|discriminate].
    eexists _, _. split; [reflexivity|]. split; [reflexivity|]. simpl.
    rewrite length_map.
    rewrite (lineVertices_length _ _ _ _ Hvs), length_allSegments.
    repeat split; assumption.
Qed.

Lemma bvToColor_opaque (bv : R) : snd (AstroMath.bvToColor bv) = 1.
Proof.
  unfold AstroMath.bvToColor. cbv zeta.
  repeat destruct (Rlt_dec _ _); reflexivity.
Qed.

Lemma magnitudeToAlpha_floor (mag : R) :
  15 / 100 <= AstroMath.magnitudeToAlpha mag.
Proof. unfold AstroMath.magnitudeToAlpha. apply Rmax_l. Qed.

Lemma line_segment_at STARS CS positions hl m ci c k seg :
  Laid STARS CS m -> length positions = length STARS -> positions <> [] ->
  CS !! ci = Some c -> ConstellationRecord.lines c !! k = Some seg ->
  exists m' lm o v1 v2,
    updateMeshes CS (HIP_TO_INDEX STARS) positions hl m = Some m' /\
    lineMeshBuilder m' = Some lm /\
    constellationSegmentOffsets m' !! ci = Some o /\
    vertices lm !! (o + 2 * k)%nat = Some v1 /\
    vertices lm !! (o + 2 * k + 1)%nat = Some v2 /\
    segmentVertices positions (HIP_TO_INDEX STARS)
      (bool_decide (ConstellationRecord.abbr c = hl)) seg = Some (v1, v2).
Proof.
  intros (sm & lm & Hsm & Hlm & Hls & His & Hll & Hil & Ht & Ho) Hp Hne Hc Hk.
  destruct (updateMeshes_eq STARS CS positions hl m sm lm
              Hsm Hlm Hls Hll Hp Hne) as (vs & Hvs & E).
  destruct (lineVertices_lookup _ _ _ _ Hvs
              (segmentCount (take ci CS) + k)%nat
              (bool_decide (ConstellationRecord.abbr c = hl)) seg
              (allSegments_lookup hl CS ci c k seg Hc Hk))
    as (v1 & v2 & Hs & H1 & H2).
  eexists _, _, (2 * segmentCount (take ci CS))%nat, v1, v2.
  split; [exact E|]. split; [reflexivity|]. cbn [constellationSegmentOffsets vertices].
  split.
  { rewrite Ho, list_lookup_fmap.
    rewrite lookup_seq_lt by (apply lookup_lt_Some in Hc; exact Hc).
    reflexivity. }
  replace (2 * segmentCount (take ci CS) + 2 * k)%nat
    with (2 * (segmentCount (take ci CS) + k))%nat by lia.
  split; [exact H1|]. split; [exact H2|exact Hs].
Qed.

(** X20.  The index of the star table sends a Hipparcos number to the
    last row of the table that carries it, and has no entry for a number
    that no row carries. *)
Theorem HIP_TO_INDEX_last_row (STARS : list StarRecord.t) (h : Z) :
  match HIP_TO_INDEX STARS !! h with
  | Some i =>
      (exists s, STARS !! i = Some s /\ StarRecord.hip s = h) /\
      (forall j s, STARS !! j = Some s -> StarRecord.hip s = h -> (j <= i)%nat)
  | None => forall j s, STARS !! j = Some s -> StarRecord.hip s <> h
  end.
Proof.
  destruct (HIP_TO_INDEX STARS !! h) as [i|] eqn:E.
  - exact (HIP_TO_INDEX_Some STARS h i E).
  - apply HIP_TO_INDEX_None. exact E.
Qed.

(** X21.  [init] leaves a star mesh of one white vertex at the origin per
    star, indexed in order, and a line mesh of two vertices per segment,
    indexed in order; it counts the segments, and records for each
    constellation, as the vertex its segments start at, twice the number
    of segments of the constellations before it. *)
Theorem init_layout (STARS : list StarRecord.t)
    (CS : list ConstellationRecord.t) (m0 : State) :
  exists sm lm,
    starMeshBuilder (init STARS CS m0) = Some sm /\
    lineMeshBuilder (init STARS CS m0) = Some lm /\
    vertices sm = replicate (length STARS) starBlank /\
    indices sm = seq 0 (length STARS) /\
    vertices lm = replicate (2 * segmentCount CS) lineBlank /\
    indices lm = seq 0 (2 * segmentCount CS) /\
    totalLineSegments (init STARS CS m0) = segmentCount CS /\
    length (constellationSegmentOffsets (init STARS CS m0)) = length CS /\
    forall ci c, CS !! ci = Some c ->
      constellationSegmentOffsets (init STARS CS m0) !! ci
      = Some (2 * segmentCount (take ci CS))%nat.
Proof.
  rewrite init_eq. eexists _, _.
  split; [reflexivity|]. split; [reflexivity|]. simpl.
  split; [reflexivity|]. split; [reflexivity|].
  split; [reflexivity|]. split; [reflexivity|].
  split; [reflexivity|].
  split; [rewrite length_map, length_seq; reflexivity|].
  intros ci c Hc. rewrite list_lookup_fmap.
  rewrite lookup_seq_lt by (apply lookup_lt_Some in Hc; exact Hc).
  reflexivity.
Qed.

(** X22.  On a laid-out renderer, with one position per star, a frame
    puts vertex [i] of the star mesh at the coordinates of position [i],
    with the colour of its B-V index; its opacity is zero when the star is
    under the horizon, and otherwise the opacity of its magnitude, which
    is at least 0.15. *)
Theorem star_vertex_drawn STARS CS positions hl m (i : nat)
    (sp : StarPosition3D.t) :
  Laid STARS CS m -> length positions = length STARS ->
  positions !! i = Some sp ->
  exists m' sm v,
    updateMeshes CS (HIP_TO_INDEX STARS) positions hl m = Some m' /\
    starMeshBuilder m' = Some sm /\
    length (vertices sm) = length STARS /\
    vertices sm !! i = Some v /\
    px v = StarPosition3D.x sp /\ py v = StarPosition3D.y sp /\
    pz v = StarPosition3D.z sp /\
    (cr v, cg v, cb v, 1) = AstroMath.bvToColor (StarPosition3D.bv sp) /\
    (StarPosition3D.y sp < 0 -> ca v = 0) /\
    (0 <= StarPosition3D.y sp ->
       ca v = AstroMath.magnitudeToAlpha (StarPosition3D.mag sp) /\
       15 / 100 <= ca v).
Proof.
  intros HL Hp Hi.
  destruct HL as (sm & lm & Hsm & Hlm & Hls & His & Hll & Hil & Ht & Ho).
  assert (Hne : positions <> []) by (intros ->; discriminate).
  destruct (updateMeshes_eq STARS CS positions hl m sm lm
              Hsm Hlm Hls Hll Hp Hne) as (vs & Hvs & E).
  eexists _, _, (starVertex sp).
  split; [exact E|]. split; [reflexivity|]. cbn [vertices].
  split; [rewrite length_map; exact Hp|].
  split; [rewrite list_lookup_fmap, Hi; reflexivity|].
  pose proof (bvToColor_opaque (StarPosition3D.bv sp)) as Hop.
  unfold starVertex.
  destruct (AstroMath.bvToColor (StarPosition3D.bv sp)) as [[[r g] b] a].
  simpl in Hop. subst a. cbn [px py pz cr cg cb ca].
  split; [reflexivity|]. split; [reflexivity|]. split; [reflexivity|].
  split; [reflexivity|].
  destruct (Rle_dec 0 (StarPosition3D.y sp)) as [Hy|Hy].
  - split; [intros; lra|]. intros _.
    split; [reflexivity|apply magnitudeToAlpha_floor].
  - split; [reflexivity|]. intros; lra.
Qed.

(** X23.  A segment with an end that no row of the star table carries is
    hidden: the two vertices it owns, at the offset of its constellation
    plus twice its rank, are set to zero in every component. *)
Theorem segment_hidden_without_star STARS CS positions hl m
    (ci k : nat) (c : ConstellationRecord.t) (h1 h2 : Z) :
  Laid STARS CS m -> length positions = length STARS -> positions <> [] ->
  CS !! ci = Some c -> ConstellationRecord.lines c !! k = Some [h1; h2] ->
  (forall j s, STARS !! j = Some s -> StarRecord.hip s <> h1) \/
  (forall j s, STARS !! j = Some s -> StarRecord.hip s <> h2) ->
  exists m' lm o,
    updateMeshes CS (HIP_TO_INDEX STARS) positions hl m = Some m' /\
    lineMeshBuilder m' = Some lm /\
    constellationSegmentOffsets m' !! ci = Some o /\
    vertices lm !! (o + 2 * k)%nat = Some hidden /\
    vertices lm !! (o + 2 * k + 1)%nat = Some hidden.
Proof.
  intros HL Hp Hne Hc Hk Hmiss.
  destruct (line_segment_at STARS CS positions hl m ci c k [h1; h2]
              HL Hp Hne Hc Hk) as (m' & lm & o & v1 & v2 & E & Hlm & Ho & H1 & H2 & Hs).
  exists m', lm, o.
  split; [exact E|]. split; [exact Hlm|]. split; [exact Ho|].
  assert (Hv : (v1, v2) = (hidden, hidden)).
  { unfold segmentVertices in Hs. cbn [lookup list_lookup mbind option_bind] in Hs.
    destruct Hmiss as [H|H]; apply HIP_TO_INDEX_None in H; rewrite H in Hs.
    - inversion Hs. reflexivity.
    - destruct (HIP_TO_INDEX STARS !! h1); inversion Hs; reflexivity. }
  inversion Hv; subst v1 v2. split; [exact H1|exact H2].
Qed.

(** X24.  A segment whose two ends are in the star table is drawn between
    the positions the index names.  It is opaque only when both ends are
    at or above the horizon: 0.9 for the highlighted constellation, 0.35
    for the others, and zero as soon as one end is under the horizon; the
    colour is the highlight colour exactly for the highlighted
    constellation. *)
Theorem segment_drawn_between_stars STARS CS positions hl m
    (ci k : nat) (c : ConstellationRecord.t) (h1 h2 : Z) (i1 i2 : nat)
    (s1 s2 : StarPosition3D.t) :
  Laid STARS CS m -> length positions = length STARS ->
  CS !! ci = Some c -> ConstellationRecord.lines c !! k = Some [h1; h2] ->
  HIP_TO_INDEX STARS !! h1 = Some i1 -> HIP_TO_INDEX STARS !! h2 = Some i2 ->
  positions !! i1 = Some s1 -> positions !! i2 = Some s2 ->
  exists m' lm o v1 v2,
    updateMeshes CS (HIP_TO_INDEX STARS) positions hl m = Some m' /\
    lineMeshBuilder m' = Some lm /\
    constellationSegmentOffsets m' !! ci = Some o /\
    vertices lm !! (o + 2 * k)%nat = Some v1 /\
    vertices lm !! (o + 2 * k + 1)%nat = Some v2 /\
    (px v1, py v1, pz v1)
    = (StarPosition3D.x s1, StarPosition3D.y s1, StarPosition3D.z s1) /\
    (px v2, py v2, pz v2)
    = (StarPosition3D.x s2, StarPosition3D.y s2, StarPosition3D.z s2) /\
    ca v1 = ca v2 /\
    (0 <= StarPosition3D.y s1 -> 0 <= StarPosition3D.y s2 ->
       ca v1 = if decide (ConstellationRecord.abbr c = hl)
               then 9 / 10 else 35 / 100) /\
    (StarPosition3D.y s1 < 0 \/ StarPosition3D.y s2 < 0 -> ca v1 = 0) /\
    (cr v1, cg v1, cb v1) = (cr v2, cg v2, cb v2) /\
    (cr v1, cg v1, cb v1)
    = if decide (ConstellationRecord.abbr c = hl)
      then (4 / 10, 85 / 100, 1) else (3 / 10, 5 / 10, 8 / 10).
Proof.
  intros HL Hp Hc Hk Hi1 Hi2 Hs1 Hs2.
  assert (Hne : positions <> []) by (intros ->; discriminate).
  destruct (line_segment_at STARS CS positions hl m ci c k [h1; h2]
              HL Hp Hne Hc Hk) as (m' & lm & o & v1 & v2 & E & Hlm & Ho & H1 & H2 & Hs).
  exists m', lm, o, v1, v2.
  split; [exact E|]. split; [exact Hlm|]. split; [exact Ho|].
  split; [exact H1|]. split; [exact H2|].
  unfold segmentVertices in Hs.
  cbn [lookup list_lookup mbind option_bind] in Hs.
  rewrite Hi1, Hi2, Hs1, Hs2 in Hs.
  rewrite bool_decide_decide in Hs.
  inversion Hs; subst v1 v2; clear Hs. cbn [px py pz cr cg cb ca].
  split; [reflexivity|]. split; [reflexivity|]. split; [reflexivity|].
  destruct (decide (ConstellationRecord.abbr c = hl));
    destruct (Rle_dec 0 (StarPosition3D.y s1));
    destruct (Rle_dec 0 (StarPosition3D.y s2));
    (split; [intros; first [reflexivity|lra]|]);
    (split; [intros [?|?]; first [reflexivity|lra]|]);
    split; reflexivity.
Qed.

(** X25.  From [init] on, a run of frames none of which reads a position
    array of another length than the star table, the empty one apart,
    never raises and keeps the layout; while the arrays read are empty
    the meshes stay as [init] left them. *)
Theorem frames_keep_layout STARS CS m0
    (frames : list (list StarPosition3D.t * string)) :
  Forall (fun f => fst f = [] \/ length (fst f) = length STARS) frames ->
  exists m',
    runFrames CS (HIP_TO_INDEX STARS) frames (init STARS CS m0) = Some m' /\
    Laid STARS CS m' /\
    (Forall (fun f => fst f = []) frames -> m' = init STARS CS m0).
Proof.
  pose proof (init_Laid STARS CS m0) as HL.
  generalize dependent (init STARS CS m0). intros m HL.
  revert m HL. induction frames as [|[positions hl] rest IH]; intros m HL Hall.
  - exists m. split; [reflexivity|]. split; [exact HL|reflexivity].
  - inversion Hall as [|f fs Hf Hrest]; subst. simpl in Hf.
    destruct (updateMeshes_Laid STARS CS positions hl m HL Hf)
      as (m1 & E & HL1 & Hsame).
    destruct (IH m1 HL1 Hrest) as (m' & Er & HL' & Hsame').
    exists m'. simpl. rewrite E. split; [exact Er|]. split; [exact HL'|].
    intros Hempty. inversion Hempty as [|f fs He Hrest']; subst. simpl in He.
    rewrite (Hsame' Hrest'). exact (Hsame He).
Qed.

Lemma star_vertex_drawn_witness :
  exists m' sm v,
    updateMeshes DemoLines.catalog (HIP_TO_INDEX Demo.demoStars)
      DemoLines.positions "UMi"
      (init Demo.demoStars DemoLines.catalog initial) = Some m' /\
    starMeshBuilder m' = Some sm /\
    vertices sm !! 1%nat = Some v /\
    py v = 500 /\ 15 / 100 <= ca v.
Proof.
  destruct (star_vertex_drawn Demo.demoStars DemoLines.catalog
              DemoLines.positions "UMi"
              (init Demo.demoStars DemoLines.catalog initial) 1
              (StarPosition3D.mk 11767 0 500 0 (197 / 100) (64 / 100) "Polaris")
              (init_Laid _ _ _) eq_refl eq_refl)
    as (m' & sm & v & E & Hsm & _ & Hv & _ & Hy & _ & _ & _ & Ha).
  exists m', sm, v. split; [exact E|]. split; [exact Hsm|].
  split; [exact Hv|]. split; [exact Hy|].
  apply Ha. simpl. lra.
Defined.

Lemma segment_hidden_without_star_witness :
  exists m' lm o,
    updateMeshes DemoLines.catalog (HIP_TO_INDEX Demo.demoStars)
      DemoLines.positions "UMi"
      (init Demo.demoStars DemoLines.catalog initial) = Some m' /\
    lineMeshBuilder m' = Some lm /\
    constellationSegmentOffsets m' !! 0%nat = Some o /\
    vertices lm !! (o + 2 * 1)%nat = Some hidden /\
    vertices lm !! (o + 2 * 1 + 1)%nat = Some hidden.
Proof.
  apply (segment_hidden_without_star Demo.demoStars DemoLines.catalog
           DemoLines.positions "UMi"
           (init Demo.demoStars DemoLines.catalog initial)
           0 1 DemoLines.CMa 32349 99999 (init_Laid _ _ _) eq_refl).
  - discriminate.
  - reflexivity.
  - reflexivity.
  - right. intros [|[|j]] s Hs; simpl in Hs; inversion Hs; subst s;
      simpl; discriminate.
Defined.

Lemma segment_drawn_between_stars_witness :
  exists m' lm o v1 v2,
    updateMeshes DemoLines.catalog (HIP_TO_INDEX Demo.demoStars)
      DemoLines.positions "UMi"
      (init Demo.demoStars DemoLines.catalog initial) = Some m' /\
    lineMeshBuilder m' = Some lm /\
    constellationSegmentOffsets m' !! 1%nat = Some o /\
    vertices lm !! (o + 2 * 0)%nat = Some v1 /\
    vertices lm !! (o + 2 * 0 + 1)%nat = Some v2 /\
    ca v1 = 9 / 10 /\ (cr v1, cg v1, cb v1) = (4 / 10, 85 / 100, 1).
Proof.
  destruct (segment_drawn_between_stars Demo.demoStars DemoLines.catalog
              DemoLines.positions "UMi"
              (init Demo.demoStars DemoLines.catalog initial)
              1 0 DemoLines.UMi 11767 11767 1 1
              (StarPosition3D.mk 11767 0 500 0 (197 / 100) (64 / 100) "Polaris")
              (StarPosition3D.mk 11767 0 500 0 (197 / 100) (64 / 100) "Polaris")
              (init_Laid _ _ _) eq_refl eq_refl eq_refl eq_refl eq_refl
              eq_refl eq_refl)
    as (m' & lm & o & v1 & v2 & E & Hlm & Ho & H1 & H2 & _ & _ & _ & Ha & _ & _ & Hc).
  exists m', lm, o, v1, v2. split; [exact E|]. split; [exact Hlm|].
  split; [exact Ho|]. split; [exact H1|]. split; [exact H2|].
  split; [apply Ha; simpl; lra|exact Hc].
Defined.

Lemma frames_keep_layout_witness :
  exists m',
    runFrames DemoLines.catalog (HIP_TO_INDEX Demo.demoStars)
      [([], EmptyString); (DemoLines.positions, "UMi")]
      (init Demo.demoStars DemoLines.catalog initial) = Some m' /\
    Laid Demo.demoStars DemoLines.catalog m'.
Proof.
  destruct (frames_keep_layout Demo.demoStars DemoLines.catalog initial
              [([], EmptyString); (DemoLines.positions, "UMi")])
    as (m' & E & HL & _).
  - constructor; [left; reflexivity|].
    constructor; [right; reflexivity|constructor].
  - exists m'. split; [exact E|exact HL].
Defined.

End SkyRendererMeshFacts.

(** ** SkyGuideMain: the engine and the renderer in the frame loop *)
Module SkyGuideMainFacts.
Import SkyGuideMain.

Section Frames.
Variable STARS : list StarRecord.t.
Variable CONSTELLATIONS : list ConstellationRecord.t.
Variable positionUpdateInterval : Z.

(** What the loop keeps: the invariant of the engine and the layout of the
    meshes. *)
Lemma step_safe (x : Step) (st : State) :
  stepInRange x ->
  SkyEngineInv.Inv STARS (engine st) ->
  SkyRendererMeshes.Laid STARS CONSTELLATIONS (meshes st) ->
  exists st',
    step STARS CONSTELLATIONS positionUpdateInterval x st = Some st' /\
    SkyEngineInv.Inv STARS (engine st') /\
    SkyRendererMeshes.Laid STARS CONSTELLATIONS (meshes st') /\
    frameCount st' = ((if isFrame x then 1 else 0) + frameCount st)%nat.
Proof.
  intros Hr Hinv HL. destruct x as [e|now hl]; simpl.
  - eexists. split; [reflexivity|]. simpl.
    split; [apply SkyEngineMore.apply_Inv; assumption|].
    split; [exact HL|reflexivity].
  - unfold drawFrame.
    set (eng := if isDue (S (frameCount st)) positionUpdateInterval
                then SkyEngine.updateStarPositions STARS now (engine st)
                else engine st).
    assert (Hinv' : SkyEngineInv.Inv STARS eng).
    { unfold eng. destruct (isDue _ _); [|exact Hinv].
      exact (SkyEngineMore.apply_Inv STARS (SkyEngineEvents.Recompute now)
               (engine st) I Hinv). }
    assert (Hp : SkyEngine.getStarPositions eng = [] \/
                 length (SkyEngine.getStarPositions eng) = length STARS).
    { destruct Hinv' as (_ & _ & [(H & _)|(H & _)] & _);
        [left|right]; exact H. }
    destruct (SkyRendererMeshFacts.updateMeshes_Laid STARS CONSTELLATIONS
                (SkyEngine.getStarPositions eng) hl (meshes st) HL Hp)
      as (m' & E & HL' & _).
    rewrite E. eexists. split; [reflexivity|]. simpl.
    split; [exact Hinv'|]. split; [exact HL'|reflexivity].
Qed.

(** Without a recomputation the buffer stays empty and nothing is drawn. *)
Lemma step_blank (x : Step) (st : State) :
  notRecompute x ->
  (isFrame x = true -> isDue (S (frameCount st)) positionUpdateInterval = false) ->
  SkyEngine.getStarPositions (engine st) = [] ->
  SkyRendererMeshes.Laid STARS CONSTELLATIONS (meshes st) ->
  exists st',
    step STARS CONSTELLATIONS positionUpdateInterval x st = Some st' /\
    SkyEngine.getStarPositions (engine st') = [] /\
    meshes st' = meshes st.
Proof.
  intros Hn Hdue He HL. destruct x as [e|now hl]; simpl.
  - eexists. split; [reflexivity|]. simpl. split; [|reflexivity].
    destruct e; simpl in *; try exact He. contradiction.
  - unfold drawFrame. rewrite (Hdue eq_refl). rewrite He.
    destruct (SkyRendererMeshFacts.updateMeshes_Laid STARS CONSTELLATIONS
                [] hl (meshes st) HL (or_introl eq_refl))
      as (m' & E & _ & Hsame).
    rewrite E. eexists. split; [reflexivity|]. simpl.
    split; [exact He|exact (Hsame eq_refl)].
Qed.

Lemma isDue_early (k : nat) :
  (0 < k)%nat ->
  positionUpdateInterval = 0%Z \/
  (Z.of_nat k < Z.abs positionUpdateInterval)%Z ->
  isDue k positionUpdateInterval = false.
Proof.
  intros Hk Hp. unfold isDue.
  destruct (decide (positionUpdateInterval = 0%Z)) as [|Hne]; [reflexivity|].
  destruct Hp as [Hp|Hp]; [contradiction|].
  apply bool_decide_eq_false. intros Hrem.
  rewrite <- Z.rem_abs_r in Hrem by exact Hne.
  rewrite Z.rem_small in Hrem by lia. lia.
Qed.

(** X26.  From the state [onStart] leaves, through any interleaving of
    engine inputs (compass samples in [0, 360)) and frames, the head of
    [onUpdate] never raises: the engine keeps its invariant, the meshes
    keep the layout of [init], and the frame counter is the number of
    frames. *)
Theorem frames_never_raise (xs : list Step) :
  Forall stepInRange xs ->
  exists st,
    runSteps STARS CONSTELLATIONS positionUpdateInterval xs
             (started STARS CONSTELLATIONS) = Some st /\
    SkyEngineInv.Inv STARS (engine st) /\
    SkyRendererMeshes.Laid STARS CONSTELLATIONS (meshes st) /\
    frameCount st = length (filter (fun x => isFrame x = true) xs).
Proof.
  intros Hxs.
  assert (Hgen : forall st,
            SkyEngineInv.Inv STARS (engine st) ->
            SkyRendererMeshes.Laid STARS CONSTELLATIONS (meshes st) ->
            exists st',
              runSteps STARS CONSTELLATIONS positionUpdateInterval xs st
              = Some st' /\
              SkyEngineInv.Inv STARS (engine st') /\
              SkyRendererMeshes.Laid STARS CONSTELLATIONS (meshes st') /\
              frameCount st'
              = (length (filter (fun x => isFrame x = true) xs)
                 + frameCount st)%nat).
  { induction Hxs as [|x xs Hx Hxs IH]; intros st Hinv HL.
    - exists st. split; [reflexivity|]. split; [exact Hinv|].
      split; [exact HL|reflexivity].
    - destruct (step_safe x st Hx Hinv HL) as (st1 & E & Hinv1 & HL1 & Hc1).
      destruct (IH st1 Hinv1 HL1) as (st' & Er & Hinv' & HL' & Hc').
      exists st'. cbn [runSteps]. rewrite E.
      split; [exact Er|]. split; [exact Hinv'|]. split; [exact HL'|].
      rewrite Hc', Hc1. rewrite filter_cons.
      destruct (isFrame x); simpl.
      + destruct (decide (true = true)); [simpl; lia|contradiction].
      + destruct (decide (false = true)); [discriminate|simpl; lia]. }
  destruct (Hgen (started STARS CONSTELLATIONS)) as (st & E & Hinv & HL & Hc).
  - apply SkyEngineMore.initial_Inv.
  - apply SkyRendererMeshFacts.init_Laid.
  - exists st. split; [exact E|]. split; [exact Hinv|]. split; [exact HL|].
    rewrite Hc. simpl. lia.
Qed.

(** X27.  With a position update interval of zero, or while fewer frames
    have run than its absolute value, nothing is drawn: unless
    [updateStarPositions] is called from outside the loop, the engine's
    buffer is still empty and the meshes are exactly as [init] left them,
    whatever locations and compass samples have arrived. *)
Theorem nothing_drawn_before_due (xs : list Step) :
  Forall notRecompute xs ->
  positionUpdateInterval = 0%Z \/
  (Z.of_nat (length (filter (fun x => isFrame x = true) xs))
   < Z.abs positionUpdateInterval)%Z ->
  exists st,
    runSteps STARS CONSTELLATIONS positionUpdateInterval xs
             (started STARS CONSTELLATIONS) = Some st /\
    SkyEngine.getStarPositions (engine st) = [] /\
    meshes st = meshes (started STARS CONSTELLATIONS).
Proof.
  intros Hxs Hp.
  assert (Hgen : forall st,
            SkyEngine.getStarPositions (engine st) = [] ->
            SkyRendererMeshes.Laid STARS CONSTELLATIONS (meshes st) ->
            positionUpdateInterval = 0%Z \/
            (Z.of_nat (length (filter (fun x => isFrame x = true) xs)
                       + frameCount st)
             < Z.abs positionUpdateInterval)%Z ->
            exists st',
              runSteps STARS CONSTELLATIONS positionUpdateInterval xs st
              = Some st' /\
              SkyEngine.getStarPositions (engine st') = [] /\
              meshes st' = meshes st).
  { clear Hp. induction Hxs as [|x xs Hx Hxs IH]; intros st He HL Hp.
    - exists st. split; [reflexivity|]. split; [exact He|reflexivity].
    - assert (Hc : length (filter (fun x => isFrame x = true) (x :: xs))
                   = ((if isFrame x then 1 else 0)
                      + length (filter (fun x => isFrame x = true) xs))%nat).
      { rewrite filter_cons. destruct (isFrame x).
        - destruct (decide (true = true)); [reflexivity|contradiction].
        - destruct (decide (false = true)); [discriminate|reflexivity]. }
      rewrite Hc in Hp.
      destruct (step_blank x st Hx) as (st1 & E & He1 & Hm1);
        [|exact He|exact HL|].
      { intros Hf. rewrite Hf in Hp. apply isDue_early; [lia|].
        destruct Hp as [Hp|Hp]; [left; exact Hp|right; lia]. }
      assert (Hc1 : frameCount st1
                    = ((if isFrame x then 1 else 0) + frameCount st)%nat).
      { destruct x as [e|now hl]; simpl in E.
        - inversion E. reflexivity.
        - unfold drawFrame in E.
          destruct (SkyRendererMeshes.updateMeshes _ _ _ _ _);
            inversion E; reflexivity. }
      destruct (IH st1 He1) as (st' & Er & He' & Hm').
      + rewrite Hm1. exact HL.
      + destruct Hp as [Hp|Hp]; [left; exact Hp|right].
        rewrite Hc1. destruct (isFrame x); lia.
      + exists st'. cbn [runSteps]. rewrite E.
        split; [exact Er|]. split; [exact He'|].
        rewrite Hm', Hm1. reflexivity. }
  apply Hgen.
  - reflexivity.
  - apply SkyRendererMeshFacts.init_Laid.
  - destruct Hp as [Hp|Hp]; [left; exact Hp|right].
    simpl. rewrite Nat.add_0_r. exact Hp.
Qed.

End Frames.

(** A position fix, a frame that is not due, a compass sample, a frame
    that is due. *)
Lemma frames_never_raise_witness :
  exists st,
    runSteps Demo.demoStars DemoLines.catalog 2
      [Input (SkyEngineEvents.Position 48 2 0); Frame 0 EmptyString;
       Input (SkyEngineEvents.Heading 359); Frame 16 "UMi"]
      (started Demo.demoStars DemoLines.catalog) = Some st /\
    frameCount st = 2%nat.
Proof.
  destruct (frames_never_raise Demo.demoStars DemoLines.catalog 2
              [Input (SkyEngineEvents.Position 48 2 0); Frame 0 EmptyString;
               Input (SkyEngineEvents.Heading 359); Frame 16 "UMi"])
    as (st & E & _ & _ & Hc).
  - repeat constructor; simpl; lra.
  - exists st. split; [exact E|exact Hc].
Defined.

(** The default interval of two: the first frame after a position fix
    draws nothing. *)
Lemma nothing_drawn_before_due_witness :
  exists st,
    runSteps Demo.demoStars DemoLines.catalog 2
      [Input (SkyEngineEvents.Position 48 2 0); Frame 0 EmptyString]
      (started Demo.demoStars DemoLines.catalog) = Some st /\
    SkyEngine.getStarPositions (engine st) = [] /\
    meshes st = meshes (started Demo.demoStars DemoLines.catalog).
Proof.
  apply (nothing_drawn_before_due Demo.demoStars DemoLines.catalog 2
           [Input (SkyEngineEvents.Position 48 2 0); Frame 0 EmptyString]).
  - repeat constructor.
  - right. vm_compute. reflexivity.
Defined.

End SkyGuideMainFacts.

(** ** The insertion-ordered set *)
Module JsSetFacts.

Lemma elem_of_add {A : Type} `{EqDecision A} (x y : A) (set : list A) :
  y ∈ JsSet.add x set <-> y = x \/ y ∈ set.
Proof.
  unfold JsSet.add. destruct (decide (x ∈ set)) as [Hin|Hout].
  - split; [intros H; right; exact H|].
    intros [->|H]; assumption.
  - rewrite elem_of_app, list_elem_of_singleton. tauto.
Qed.

Lemma NoDup_add {A : Type} `{EqDecision A} (x : A) (set : list A) :
  NoDup set -> NoDup (JsSet.add x set).
Proof.
  intros Hnd. unfold JsSet.add.
  destruct (decide (x ∈ set)) as [Hin|Hout]; [exact Hnd|].
  apply NoDup_app. split; [exact Hnd|]. split; [|apply NoDup_singleton].
  intros y Hy Hy'. apply list_elem_of_singleton in Hy'. subst y.
  exact (Hout Hy).
Qed.

End JsSetFacts.

(** ** InfoPanel *)
Module InfoPanelFacts.
Import InfoPanel JsSetFacts.

Lemma collectHips_spec (lines : list (list Z)) : forall acc,
  NoDup acc ->
  NoDup (collectHips lines acc) /\
  forall h, h ∈ collectHips lines acc <->
            h ∈ acc \/
            exists seg, seg ∈ lines /\ (h = seg !! 0%nat \/ h = seg !! 1%nat).
Proof.
  induction lines as [|seg rest IH]; intros acc Hnd; simpl.
  - split; [exact Hnd|]. intros h. split; [intros H; left; exact H|].
    intros [H|(seg & Hs & _)]; [exact H|]. inversion Hs.
  - destruct (IH (JsSet.add (seg !! 1%nat) (JsSet.add (seg !! 0%nat) acc)))
      as (Hnd' & Hmem).
    { apply NoDup_add, NoDup_add, Hnd. }
    split; [exact Hnd'|]. intros h. rewrite Hmem, !elem_of_add.
    split.
    + intros [[->|[->|H]]|(s & Hs & Hh)].
      * right. exists seg. split; [left|right; reflexivity].
      * right. exists seg. split; [left|left; reflexivity].
      * left. exact H.
      * right. exists s. split; [right; exact Hs|exact Hh].
    + intros [H|(s & Hs & Hh)].
      * left. right. right. exact H.
      * apply elem_of_cons in Hs. destruct Hs as [->|Hs].
        -- left. destruct Hh as [->| ->]; [right; left|left]; reflexivity.
        -- right. exists s. split; assumption.
Qed.

(** With the index of the star table the second loop does not raise, and
    every name it collects is the non-empty name of a row of the table
    that carries one of the numbers. *)
Lemma collectNames_spec (STARS : list StarRecord.t)
    (hips : list (option Z)) : forall acc,
  exists names,
    collectNames STARS (StarData.HIP_TO_INDEX STARS) hips acc
    = Some (acc ++ names) /\
    forall n, n ∈ names ->
      n <> EmptyString /\
      exists h s, Some h ∈ hips /\ s ∈ STARS /\
                  StarRecord.hip s = h /\ StarRecord.name s = n.
Proof.
  induction hips as [|hip rest IH]; intros acc; simpl.
  - exists []. rewrite app_nil_r. split; [reflexivity|].
    intros n Hn. inversion Hn.
  - assert (Hweak : forall names : list string,
              (forall n, n ∈ names ->
                 n <> EmptyString /\
                 exists h s, Some h ∈ rest /\ s ∈ STARS /\
                             StarRecord.hip s = h /\ StarRecord.name s = n) ->
              forall n, n ∈ names ->
                 n <> EmptyString /\
                 exists h s, Some h ∈ hip :: rest /\ s ∈ STARS /\
                             StarRecord.hip s = h /\ StarRecord.name s = n).
    { intros names H n Hn. destruct (H n Hn) as (Hne & h & s & Hh & Hs & E1 & E2).
      split; [exact Hne|]. exists h, s.
      split; [right; exact Hh|]. repeat split; assumption. }
    destruct hip as [h|]; simpl.
    + destruct (StarData.HIP_TO_INDEX STARS !! h) as [idx|] eqn:E.
      * destruct (SkyRendererMeshFacts.HIP_TO_INDEX_Some STARS h idx E)
          as ((s & Hs & Hh) & _).
        rewrite Hs.
        destruct (decide (StarRecord.name s <> EmptyString)) as [Hne|He].
        -- destruct (IH (acc ++ [StarRecord.name s])) as (names & En & Hn).
           exists (StarRecord.name s :: names).
           rewrite En, <- app_assoc. split; [reflexivity|].
           intros n Hin. apply elem_of_cons in Hin. destruct Hin as [->|Hin].
           ++ split; [exact Hne|]. exists h, s. split; [left|].
              repeat split; [|exact Hh].
              apply list_elem_of_lookup. exists idx. exact Hs.
           ++ exact (Hweak names Hn n Hin).
        -- destruct (IH acc) as (names & En & Hn).
           exists names. split; [exact En|exact (Hweak names Hn)].
      * destruct (IH acc) as (names & En & Hn).
        exists names. split; [exact En|exact (Hweak names Hn)].
    + destruct (IH acc) as (names & En & Hn).
      exists names. split; [exact En|exact (Hweak names Hn)].
Qed.

(** X28.  On an initialised panel, for an abbreviation of the catalog,
    [showConstellationInfo] does not raise; the panel is enabled, visible
    and placed three units along the camera's forward direction, half a
    unit up.  The text shows the name it was given (not the catalog's),
    the abbreviation, and as number of stars the number of distinct ends
    of the segments of the first constellation with that abbreviation,
    whether or not the star table has them; it lists at most four names,
    each the non-empty name of a row of the star table that carries one of
    those ends, and has no such line when there is none. *)
Theorem panel_shows (CS : list ConstellationRecord.t)
    (STARS : list StarRecord.t) (abbr name : string)
    (cx cy cz fx fy fz : R) (st : State) (root : PanelRoot) (txt : string)
    (c : ConstellationRecord.t) :
  infoPanelRoot st = Some root -> infoTextComponent st = Some txt ->
  camera st = true ->
  find (fun con => bool_decide (ConstellationRecord.abbr con = abbr)) CS
  = Some c ->
  exists st' root' hips names,
    showConstellationInfo CS STARS (StarData.HIP_TO_INDEX STARS) abbr name
      (cx, cy, cz) (fx, fy, fz) st = Some st' /\
    isVisible st' = true /\
    infoPanelRoot st' = Some root' /\ enabled root' = true /\
    worldPosition root' = (cx + fx * 3, cy + fy * 3 + 1 / 2, cz + fz * 3) /\
    NoDup hips /\
    (forall h, h ∈ hips <->
       exists seg, seg ∈ ConstellationRecord.lines c /\
                   (h = seg !! 0%nat \/ h = seg !! 1%nat)) /\
    (length names <= 4)%nat /\
    (forall n, n ∈ names ->
       n <> EmptyString /\
       exists h s, Some h ∈ hips /\ s ∈ STARS /\
                   StarRecord.hip s = h /\ StarRecord.name s = n) /\
    infoTextComponent st'
    = Some (let text := name +:+ " (" +:+ abbr +:+ ")" +:+ newline in
            let text := text +:+ pretty (length hips) +:+ " stars" +:+ newline in
            if decide (names = []) then text
            else text +:+ "Notable: " +:+ String.concat ", " names).
Proof.
  intros Hroot Htxt Hcam Hfind.
  destruct (collectHips_spec (ConstellationRecord.lines c) [] (NoDup_nil_2))
    as (Hnd & Hmem).
  destruct (collectNames_spec STARS
              (collectHips (ConstellationRecord.lines c) []) [])
    as (all & Hall & Hnames).
  simpl in Hall.
  eexists _, _, (collectHips (ConstellationRecord.lines c) []), (take 4 all).
  split.
  { unfold showConstellationInfo.
    rewrite Hroot, Htxt, Hcam, Hfind. cbv zeta. rewrite Hall.
    unfold positionInFrontOfCamera. cbn [camera infoPanelRoot].
    reflexivity. }
  cbn [isVisible infoPanelRoot enabled worldPosition infoTextComponent].
  split; [reflexivity|]. split; [reflexivity|]. split; [reflexivity|].
  split; [unfold PANEL_DISTANCE; reflexivity|].
  split; [exact Hnd|].
  split.
  { intros h. rewrite Hmem. split.
    - intros [H|H]; [inversion H|exact H].
    - intros H. right. exact H. }
  split; [rewrite length_take; lia|].
  split.
  { intros n Hn. apply Hnames. apply list_elem_of_lookup in Hn.
    destruct Hn as (i & Hi). apply lookup_take_Some in Hi.
    apply list_elem_of_lookup. exists i. exact (proj1 Hi). }
  unfold panelText. cbv zeta. f_equal.
  destruct all as [|n0 all].
  - simpl. reflexivity.
  - destruct (decide (0 < length (n0 :: all))%nat) as [_|H];
      [|simpl in H; lia].
    destruct (decide (take 4 (n0 :: all) = [])) as [H|_];
      [discriminate|reflexivity].
Qed.

(** The panel of the small catalog, asked for its first region under a
    name of the caller's choice. *)
Lemma panel_shows_witness :
  let st := init (mkRoot true (0, 0, 0) (0, 0, 1)) (Some EmptyString) initial in
  exists st' root',
    showConstellationInfo DemoLines.catalog Demo.demoStars
      (StarData.HIP_TO_INDEX Demo.demoStars) "CMa" "Great Dog"
      (0, 0, 0) (0, 0, -1) st = Some st' /\
    isVisible st' = true /\
    infoPanelRoot st' = Some root' /\
    worldPosition root' = (0 + 0 * 3, 0 + 0 * 3 + 1 / 2, 0 + -1 * 3).
Proof.
  intros st.
  destruct (panel_shows DemoLines.catalog Demo.demoStars "CMa" "Great Dog"
              0 0 0 0 0 (-1) st (mkRoot false (0, 0, 0) (0, 0, 1)) EmptyString
              DemoLines.CMa eq_refl eq_refl eq_refl eq_refl)
    as (st' & root' & hips & names & E & Hv & Hr & _ & Hp & _).
  exists st', root'. split; [exact E|]. split; [exact Hv|].
  split; [exact Hr|exact Hp].
Defined.

End InfoPanelFacts.

(** ** The generator of the tables *)
Module GeneratorFacts.
Import Generator.

(** *** [parseCSVLine] *)

Lemma quote_not_comma : comma <> quote.
Proof. discriminate. Qed.

(** Outside quotes, characters that are neither quote nor comma join the
    current field. *)
Lemma parseLoop_plain (field : list Ascii.ascii) :
  forall tail current fields,
  Forall (fun ch => ch <> quote /\ ch <> comma) field ->
  parseLoop (field ++ tail) false current fields
  = parseLoop tail false (current ++ field) fields.
Proof.
  induction field as [|ch rest IH]; intros tail current fields Hf.
  - rewrite app_nil_r. reflexivity.
  - inversion Hf as [|? ? (Hq & Hc) Hrest]; subst. simpl.
    destruct (decide (ch = quote)) as [|_]; [contradiction|].
    destruct (decide (ch = comma)) as [|_]; [contradiction|].
    rewrite IH by exact Hrest. rewrite <- app_assoc. reflexivity.
Qed.

(** Inside quotes, an escaped field followed by the closing quote joins
    the current field, whatever it contains. *)
Lemma parseLoop_quoted (field : list Ascii.ascii) :
  forall tail current fields,
  (tail = [] \/ exists rest, tail = comma :: rest) ->
  parseLoop (escape field ++ quote :: tail) true current fields
  = parseLoop tail false (current ++ field) fields.
Proof.
  induction field as [|ch rest IH]; intros tail current fields Htail.
  - rewrite app_nil_r. simpl.
    destruct (decide (quote = quote)) as [_|]; [|contradiction].
    destruct Htail as [->|(r & ->)]; [reflexivity|].
    destruct (decide (comma = quote)) as [H|_]; [discriminate|reflexivity].
  - unfold escape. cbn [flat_map]. fold (escape rest).
    destruct (decide (ch = quote)) as [->|Hne].
    + cbn [app parseLoop].
      destruct (decide (quote = quote)) as [_|]; [|contradiction].
      rewrite IH by exact Htail. rewrite <- app_assoc. reflexivity.
    + cbn [app parseLoop].
      destruct (decide (ch = quote)) as [|_]; [contradiction|].
      rewrite IH by exact Htail. rewrite <- app_assoc. reflexivity.
Qed.

Lemma parseLoop_written (text field tail : list Ascii.ascii) fields :
  Written text field ->
  (tail = [] \/ exists rest, tail = comma :: rest) ->
  parseLoop (text ++ tail) false [] fields = parseLoop tail false field fields.
Proof.
  intros [->|(-> & Hplain)] Htail.
  - cbn [app parseLoop].
    destruct (decide (quote = quote)) as [_|]; [|contradiction].
    rewrite <- app_assoc. cbn [app].
    rewrite parseLoop_quoted by exact Htail. reflexivity.
  - rewrite parseLoop_plain by exact Hplain. reflexivity.
Qed.

Lemma parseLoop_joined (texts : list (list Ascii.ascii)) :
  forall fields text field done,
  Written text field -> Forall2 Written texts fields ->
  parseLoop (joinFields (text :: texts)) false [] done
  = done ++ field :: fields.
Proof.
  induction texts as [|text' texts IH]; intros fields text field done Hw Hall.
  - inversion Hall; subst. cbn [joinFields].
    rewrite <- (app_nil_r text).
    rewrite (parseLoop_written text field [] done Hw) by (left; reflexivity).
    reflexivity.
  - inversion Hall as [|? field' ? fields' Hw' Hall']; subst.
    change (joinFields (text :: text' :: texts))
      with (text ++ comma :: joinFields (text' :: texts)).
    rewrite (parseLoop_written text field _ done Hw)
      by (right; eexists; reflexivity).
    cbn [parseLoop].
    destruct (decide (comma = quote)) as [H|_]; [discriminate|].
    destruct (decide (comma = comma)) as [_|]; [|contradiction].
    rewrite (IH fields' text' field' (done ++ [field]) Hw' Hall').
    rewrite <- app_assoc. reflexivity.
Qed.

(** X29.  [parseCSVLine] reads back what a CSV writer wrote: for a line
    made of one or more fields separated by commas, each written either
    between quotes with its quotes doubled (whatever it contains, commas
    and quotes included) or bare (when it has neither), the result is the
    list of the fields. *)
Theorem parseCSVLine_reads_written
    (texts fields : list (list Ascii.ascii)) :
  Forall2 Written texts fields -> fields <> [] ->
  parseCSVLine (joinFields texts) = fields.
Proof.
  intros Hall Hne.
  destruct Hall as [|text field texts fields Hw Hall]; [contradiction|].
  unfold parseCSVLine.
  rewrite (parseLoop_joined texts fields text field [] Hw Hall).
  reflexivity.
Qed.

(** *** [parseConstellationJSON] *)

Lemma chainSegments_spec (chain : list Z) : forall segments,
  exists new,
    chainSegments chain segments = segments ++ new /\
    forall seg, seg ∈ new ->
      (0 < fst seg)%Z /\ (0 < snd seg)%Z /\
      exists i, chain !! i = Some (fst seg) /\ chain !! S i = Some (snd seg).
Proof.
  induction chain as [|h1 rest IH]; intros segments.
  - exists []. rewrite app_nil_r. split; [reflexivity|].
    intros seg H. inversion H.
  - destruct rest as [|h2 rest'].
    + exists []. rewrite app_nil_r. split; [reflexivity|].
      intros seg H. inversion H.
    + change (chainSegments (h1 :: h2 :: rest') segments)
        with (chainSegments (h2 :: rest')
                (if decide (0 < h1 /\ 0 < h2)%Z
                 then segments ++ [(h1, h2)] else segments)).
      destruct (decide (0 < h1 /\ 0 < h2)%Z) as [(H1 & H2)|Hno].
      * destruct (IH (segments ++ [(h1, h2)])) as (new & E & Hnew).
        exists ((h1, h2) :: new). rewrite E, <- app_assoc.
        split; [reflexivity|].
        intros seg Hin. apply elem_of_cons in Hin. destruct Hin as [->|Hin].
        -- split; [exact H1|]. split; [exact H2|].
           exists 0%nat. split; reflexivity.
        -- destruct (Hnew seg Hin) as (Ha & Hb & i & Hi & Hi').
           split; [exact Ha|]. split; [exact Hb|].
           exists (S i). split; assumption.
      * destruct (IH segments) as (new & E & Hnew).
        exists new. split; [exact E|].
        intros seg Hin.
        destruct (Hnew seg Hin) as (Ha & Hb & i & Hi & Hi').
        split; [exact Ha|]. split; [exact Hb|].
        exists (S i). split; assumption.
Qed.

Lemma chainsSegments_spec (chains : list (list Z)) : forall segments,
  exists new,
    chainsSegments chains segments = segments ++ new /\
    forall seg, seg ∈ new ->
      (0 < fst seg)%Z /\ (0 < snd seg)%Z /\
      exists chain i, chain ∈ chains /\
        chain !! i = Some (fst seg) /\ chain !! S i = Some (snd seg).
Proof.
  induction chains as [|chain rest IH]; intros segments; simpl.
  - exists []. rewrite app_nil_r. split; [reflexivity|].
    intros seg H. inversion H.
  - destruct (chainSegments_spec chain segments) as (new1 & E1 & H1).
    destruct (IH (segments ++ new1)) as (new2 & E2 & H2).
    exists (new1 ++ new2). rewrite E1, E2, <- app_assoc.
    split; [reflexivity|].
    intros seg Hin. apply elem_of_app in Hin. destruct Hin as [Hin|Hin].
    + destruct (H1 seg Hin) as (Ha & Hb & i & Hi & Hi').
      split; [exact Ha|]. split; [exact Hb|].
      exists chain, i. split; [left|split; assumption].
    + destruct (H2 seg Hin) as (Ha & Hb & ch & i & Hc & Hi & Hi').
      split; [exact Ha|]. split; [exact Hb|].
      exists ch, i. split; [right; exact Hc|split; assumption].
Qed.

Lemma collectHips_members (segments : list (Z * Z)) : forall acc,
  NoDup acc ->
  NoDup (collectHips segments acc) /\
  forall h, h ∈ collectHips segments acc <->
            h ∈ acc \/
            exists seg, seg ∈ segments /\ (h = fst seg \/ h = snd seg).
Proof.
  induction segments as [|[h1 h2] rest IH]; intros acc Hnd; simpl.
  - split; [exact Hnd|]. intros h. split; [intros H; left; exact H|].
    intros [H|(seg & Hs & _)]; [exact H|]. inversion Hs.
  - destruct (IH (JsSet.add h2 (JsSet.add h1 acc))) as (Hnd' & Hmem).
    { apply JsSetFacts.NoDup_add, JsSetFacts.NoDup_add, Hnd. }
    split; [exact Hnd'|]. intros h.
    rewrite Hmem, !JsSetFacts.elem_of_add.
    split.
    + intros [[->|[->|H]]|(s & Hs & Hh)].
      * right. exists (h1, h2). split; [left|right; reflexivity].
      * right. exists (h1, h2). split; [left|left; reflexivity].
      * left. exact H.
      * right. exists s. split; [right; exact Hs|exact Hh].
    + intros [H|(s & Hs & Hh)].
      * left. right. right. exact H.
      * apply elem_of_cons in Hs. destruct Hs as [->|Hs].
        -- left. simpl in Hh.
           destruct Hh as [->| ->]; [right; left|left]; reflexivity.
        -- right. exists s. split; assumption.
Qed.

Lemma sumMembers_spec (starsByHip : gmap Z StarRecord.t)
    (hips : list Z) : forall sumRA sumDec count,
  sumMembers starsByHip hips sumRA sumDec count
  = (sumRA + fold_right Rplus 0
               (map StarRecord.ra (omap (fun h => starsByHip !! h) hips)),
     sumDec + fold_right Rplus 0
                (map StarRecord.dec (omap (fun h => starsByHip !! h) hips)),
     (count + length (omap (fun h => starsByHip !! h) hips))%nat).
Proof.
  induction hips as [|h rest IH]; intros sumRA sumDec count; simpl.
  - rewrite !Rplus_0_r, Nat.add_0_r. reflexivity.
  - destruct (starsByHip !! h) as [star|]; rewrite IH; simpl.
    + rewrite !Rplus_assoc, Nat.add_succ_r. reflexivity.
    + reflexivity.
Qed.

Lemma Math_round_close (x : R) : Rabs (Math_round x - x) <= 1 / 2.
Proof.
  unfold Math_round, AstroMath.Math_floor.
  destruct (base_Int_part (x + 1 / 2)) as (H1 & H2).
  apply Rabs_le. lra.
Qed.

Lemma round4_close (x : R) : Rabs (round4 x - x) <= 1 / 20000.
Proof.
  unfold round4. pose proof (Math_round_close (x * 10000)) as H.
  unfold Rabs in *.
  destruct (Rcase_abs (Math_round (x * 10000) - x * 10000));
    destruct (Rcase_abs (Math_round (x * 10000) / 10000 - x)); lra.
Qed.

Lemma round4_0 : round4 0 = 0.
Proof.
  unfold round4, Math_round, AstroMath.Math_floor.
  destruct (base_Int_part (0 * 10000 + 1 / 2)) as (H1 & H2).
  assert (Hz : Int_part (0 * 10000 + 1 / 2) = 0%Z).
  { assert (Hle : (Int_part (0 * 10000 + 1 / 2) < 1)%Z)
      by (apply lt_IZR; lra).
    assert (Hge : (-1 < Int_part (0 * 10000 + 1 / 2))%Z)
      by (apply lt_IZR; lra).
    lia. }
  rewrite Hz. lra.
Qed.

Lemma orElse_nonempty (a : option string) (b : string) :
  b <> EmptyString -> orElse a b <> EmptyString.
Proof.
  intros Hb. unfold orElse. destruct a as [s|]; [|exact Hb].
  destruct (decide (s = EmptyString)); assumption.
Qed.

(** X30.  A constellation the generator emits has a non-empty
    abbreviation and name and at least one segment; each segment is a
    pair of positive numbers that are neighbours in one of the entry's
    chains.  Its centroid is, to within the rounding to four decimals,
    the plain mean of the right ascensions and of the declinations of
    the distinct segment ends that the star map has, each counted once,
    and is (0, 0) when the map has none of them. *)
Theorem generated_constellation (starsByHip : gmap Z StarRecord.t)
    (entry : Entry) (c : ConstellationRecord.t) :
  parseEntry starsByHip entry = Some c ->
  ConstellationRecord.abbr c <> EmptyString /\
  ConstellationRecord.name c <> EmptyString /\
  ConstellationRecord.lines c <> [] /\
  (forall seg, seg ∈ ConstellationRecord.lines c ->
     exists h1 h2 chains chain i,
       seg = [h1; h2] /\ (0 < h1)%Z /\ (0 < h2)%Z /\
       lines entry = Some chains /\ chain ∈ chains /\
       chain !! i = Some h1 /\ chain !! S i = Some h2) /\
  exists hips,
    NoDup hips /\
    (forall h, h ∈ hips <->
       exists seg, seg ∈ ConstellationRecord.lines c /\ h ∈ seg) /\
    let members := omap (fun h => starsByHip !! h) hips in
    (members = [] ->
       ConstellationRecord.centroidRA c = 0 /\
       ConstellationRecord.centroidDec c = 0) /\
    (members <> [] ->
       Rabs (ConstellationRecord.centroidRA c
             - fold_right Rplus 0 (map StarRecord.ra members)
               / INR (length members)) <= 1 / 20000 /\
       Rabs (ConstellationRecord.centroidDec c
             - fold_right Rplus 0 (map StarRecord.dec members)
               / INR (length members)) <= 1 / 20000).
Proof.
  unfold parseEntry. cbv zeta.
  destruct (decide (orElse (iau entry) EmptyString = EmptyString))
    as [|Habbr]; [discriminate|].
  set (chains := match lines entry with Some l => l | None => [] end).
  destruct (chainsSegments_spec chains []) as (segments & Eseg & Hseg).
  simpl in Eseg. rewrite Eseg.
  destruct (decide (length segments = 0%nat)) as [|Hlen]; [discriminate|].
  rewrite sumMembers_spec.
  destruct (collectHips_members segments [] (NoDup_nil_2)) as (Hnd & Hmem).
  set (hips := collectHips segments []) in *.
  set (members := omap (fun h => starsByHip !! h) hips).
  intros Hc. inversion Hc as [Hc']; clear Hc Hc'. simpl.
  split; [exact Habbr|].
  split; [apply orElse_nonempty, orElse_nonempty, Habbr|].
  split; [destruct segments; [contradiction|discriminate]|].
  split.
  { intros seg Hin. apply list_elem_of_fmap in Hin.
    destruct Hin as ([h1 h2] & -> & Hin).
    destruct (Hseg (h1, h2) Hin) as (Ha & Hb & chain & i & Hch & Hi & Hi').
    destruct (lines entry) as [l|] eqn:El; [|inversion Hch].
    exists h1, h2, l, chain, i. simpl in *.
    repeat (split; [first [reflexivity|assumption]|]). assumption. }
  exists hips. split; [exact Hnd|]. split.
  { intros h. rewrite Hmem. split.
    - intros [H|(seg & Hs & Hh)]; [inversion H|].
      exists [fst seg; snd seg]. split.
      + apply list_elem_of_fmap. exists seg. split; [reflexivity|exact Hs].
      + destruct Hh as [->| ->]; [left|right; left].
    - intros (seg & Hs & Hh). right.
      apply list_elem_of_fmap in Hs. destruct Hs as (s & -> & Hs).
      exists s. split; [exact Hs|].
      apply elem_of_cons in Hh. destruct Hh as [->|Hh]; [left; reflexivity|].
      apply list_elem_of_singleton in Hh. right. exact Hh. }
  fold members. cbv zeta. rewrite !Rplus_0_l. simpl.
  split.
  - intros He. rewrite He. simpl.
    destruct (decide (0 < 0)%nat) as [H|_]; [lia|].
    split; exact round4_0.
  - intros Hne.
    destruct (decide (0 < length members)%nat) as [_|H].
    + split; apply round4_close.
    + destruct members; [contradiction|simpl in H; lia].
Qed.

(** A field with a comma and a quote, written between quotes, and a bare
    one. *)
Lemma parseCSVLine_reads_written_witness :
  let field := [Ascii.ascii_of_nat 97; comma; quote; Ascii.ascii_of_nat 98] in
  parseCSVLine
    (joinFields [quote :: escape field ++ [quote]; [Ascii.ascii_of_nat 99]])
  = [field; [Ascii.ascii_of_nat 99]].
Proof.
  intros field.
  apply (parseCSVLine_reads_written
           [quote :: escape field ++ [quote]; [Ascii.ascii_of_nat 99]]
           [field; [Ascii.ascii_of_nat 99]]).
  - constructor; [left; reflexivity|].
    constructor; [|constructor].
    right. split; [reflexivity|].
    constructor; [split; discriminate|constructor].
  - discriminate.
Defined.

(** An entry whose one chain has a gap: the segment across the gap is
    dropped; of the two ends left, the star map has one. *)
Lemma generated_constellation_witness :
  let entry :=
    mkEntry (Some "UMi") None (Some "Little Bear")
            (Some [[32349%Z; 0%Z; 11767%Z; 5%Z]]) in
  exists c,
    parseEntry (starsByHipOf Demo.demoStars) entry = Some c /\
    ConstellationRecord.lines c <> [] /\
    ConstellationRecord.name c <> EmptyString.
Proof.
  intros entry.
  assert (E : exists c,
            parseEntry (starsByHipOf Demo.demoStars) entry = Some c).
  { unfold parseEntry. cbv zeta. simpl.
    destruct (starsByHipOf Demo.demoStars !! 11767%Z);
      destruct (starsByHipOf Demo.demoStars !! 5%Z);
      eexists; reflexivity. }
  destruct E as (c & E). exists c. split; [exact E|].
  destruct (generated_constellation (starsByHipOf Demo.demoStars) entry c E)
    as (_ & Hn & Hl & _).
  split; [exact Hl|exact Hn].
Defined.

End GeneratorFacts.
